(** * The behaviour layer of the portfolio site: project filters and modals

    A shallow embedding of two parts of [assets/css/js/main.js]:
    [initProjectFilters] (search, category, year and skill filters with three
    sort orders over the project cards) and [initModals] (open, close, the
    focus trap and the resolver of focusable elements).

    Conventions of the embedding.
    - JavaScript strings are [string]; the case mapping and the white space
      of [toLowerCase] and [trim] are the ASCII ones, other characters are
      left alone.
    - A JavaScript number is [JS.num]: not-a-number, an infinity, or a finite
      value carried as a rational.  Only the sign of a difference of finite
      values is ever observed (by [Array.prototype.sort]), and rounding to a
      double never changes the sign of a difference.
    - What the host (the browser) computes and the script only reads is a
      parameter: [Number] on strings, [offsetParent], whether [focus()] takes
      effect, whether an object has a [focus] method.
    - DOM nodes are identified by a number ([node_id]); the script's
      references to nodes are these numbers or the element records. *)

From Stdlib Require Import Ascii QArith Lqa.
From stdpp Require Import gmap strings list sorting.

Set Default Proof Using "Type".

(** ** JavaScript values used by the script *)

Module JS.

(** [a || b] on an attribute value: [null] and the empty string are falsy. *)
Definition or_else (o : option string) (d : string) : string :=
  match o with
  | Some s => if decide (s = EmptyString) then d else s
  | None => d
  end.

Definition is_upper (c : ascii) : bool :=
  let n := Ascii.N_of_ascii c in ((65 <=? n) && (n <=? 90))%N.

Definition lower_char (c : ascii) : ascii :=
  if is_upper c then Ascii.ascii_of_N (Ascii.N_of_ascii c + 32) else c.

Fixpoint toLowerCase (s : string) : string :=
  match s with
  | EmptyString => EmptyString
  | String c s' => String (lower_char c) (toLowerCase s')
  end.

Fixpoint trimStart (s : string) : string :=
  match s with
  | EmptyString => EmptyString
  | String c s' => if Ascii.is_space c then trimStart s' else s
  end.

Fixpoint trimEnd (s : string) : string :=
  match s with
  | EmptyString => EmptyString
  | String c s' =>
      match trimEnd s' with
      | EmptyString => if Ascii.is_space c then EmptyString else String c EmptyString
      | t => String c t
      end
  end.

Definition trim (s : string) : string := trimEnd (trimStart s).

(** [hay.includes(q)] on strings: [q] occurs in [hay] as a substring. *)
Fixpoint includes (hay q : string) : bool :=
  String.prefix q hay ||
  match hay with
  | EmptyString => false
  | String _ hay' => includes hay' q
  end.

(** [s.split(sep)] for a one-character separator. *)
Fixpoint split (sep : ascii) (s : string) : list string :=
  match s with
  | EmptyString => [EmptyString]
  | String c s' =>
      if decide (c = sep) then EmptyString :: split sep s'
      else match split sep s' with
           | h :: t => String c h :: t
           | [] => [String c EmptyString]
           end
  end.

(** The strings made of white space only. *)
Fixpoint all_space (s : string) : bool :=
  match s with
  | EmptyString => true
  | String c s' => Ascii.is_space c && all_space s'
  end.

(** A string is truthy when it is not empty. *)
Definition truthy (s : string) : bool := negb (bool_decide (s = EmptyString)).

(** Numbers. *)
Inductive num : Type :=
  | NaN : num
  | Inf (negative : bool) : num
  | Fin (q : Q) : num.

Definition isFinite (n : num) : bool :=
  match n with Fin _ => true | _ => false end.

(** [a - b]. *)
Definition sub (a b : num) : num :=
  match a, b with
  | NaN, _ | _, NaN => NaN
  | Fin x, Fin y => Fin (x - y)
  | Inf s, Fin _ => Inf s
  | Fin _, Inf t => Inf (negb t)
  | Inf s, Inf t => if Bool.eqb s t then NaN else Inf s
  end.

(** The sign under which [Array.prototype.sort] reads what the comparator
    returns: not-a-number counts as zero. *)
Definition sign (n : num) : comparison :=
  match n with
  | NaN => Eq
  | Inf true => Lt
  | Inf false => Gt
  | Fin q => (q ?= 0)%Q
  end.

(** [Array.prototype.sort(cmp)].  The language requires the sort to be
    stable; for a comparator that is a consistent ordering the result is then
    unique (see [sorted_stably] and [SortFacts.sort_unique]), and it is the
    one a stable insertion sort builds: [x] moves behind [y] only when
    [cmp x y > 0]. *)
Section Sort.
Context {A : Type} (cmp : A → A → num).

Fixpoint sort_insert (x : A) (l : list A) : list A :=
  match l with
  | [] => [x]
  | y :: l' =>
      match sign (cmp x y) with
      | Gt => y :: sort_insert x l'
      | _ => x :: l
      end
  end.

Definition sort (l : list A) : list A := foldr sort_insert [] l.

(** The comparator lets [x] stay in front of [y]. *)
Definition in_order (x y : A) : Prop := sign (cmp x y) ≠ Gt.

(** Two elements tie when the comparator lets either stand first. *)
Definition tied (x y : A) : Prop := in_order x y ∧ in_order y x.

#[global] Instance in_order_dec x y : Decision (in_order x y).
Proof. unfold in_order. apply _. Defined.

#[global] Instance tied_dec x y : Decision (tied x y).
Proof. unfold tied. apply _. Defined.

(** What the language asks of the result [out] of sorting [l]: it
    rearranges [l], the comparator lets every element stand in front of all
    the later ones, and tied elements are in the order they had in [l]. *)
Definition sorted_stably (l out : list A) : Prop :=
  out ≡ₚ l
  ∧ StronglySorted in_order out
  ∧ ∀ x, filter (tied x) out = filter (tied x) l.
End Sort.

(** The rational a finite number stands for. *)
Definition value (n : num) : Q :=
  match n with Fin q => q | _ => 0 end.

(** A fragment of the conversion [Number(s)] that is used to run the model on
    concrete catalogs: white space around an optionally signed run of decimal
    digits; the empty (or blank) string is 0.  Every other string is mapped to
    [NaN] here, which is what the conversion gives for words such as
    ["all"]. *)
Fixpoint digits_value (acc : Z) (s : string) : option Z :=
  match s with
  | EmptyString => Some acc
  | String c s' =>
      match Ascii.is_nat c with
      | Some d => digits_value (10 * acc + Z.of_nat d) s'
      | None => None
      end
  end.

Definition Number_int (s : string) : num :=
  match trim s with
  | EmptyString => Fin 0
  | String c r as t =>
      let '(neg, ds) :=
        if decide (c = "-"%char) then (true, r)
        else if decide (c = "+"%char) then (false, r) else (false, t) in
      match ds with
      | EmptyString => NaN
      | _ => match digits_value 0 ds with
             | Some z => Fin (inject_Z (if neg : bool then - z else z))
             | None => NaN
             end
      end
  end.

End JS.

(** ** DOM elements as the script reads them *)

Module Dom.

(** An element: its identity, its tag name in lower case, its attributes
    other than [class], its class list and its text. *)
Record Element : Type := {
  node_id : nat;
  localName : string;
  attributes : gmap string string;
  classList : gset string;
  textContent : string
}.

(** [el.getAttribute(name)]: [None] is [null]. *)
Definition getAttribute (el : Element) (name : string) : option string :=
  attributes el !! name.

(** The selectors the script uses: a comma-separated list of compound
    selectors, each a conjunction of simple ones. *)
Inductive simple : Type :=
  | Tag (name : string)
  | Class (c : string)
  | HasAttr (a : string)
  | AttrIs (a v : string)
  | Not (s : simple).

Fixpoint matches_simple (s : simple) (el : Element) : bool :=
  match s with
  | Tag name => bool_decide (localName el = name)
  | Class c => bool_decide (c ∈ classList el)
  | HasAttr a => bool_decide (is_Some (getAttribute el a))
  | AttrIs a v => bool_decide (getAttribute el a = Some v)
  | Not s' => negb (matches_simple s' el)
  end.

Definition compound : Type := list simple.
Definition selector : Type := list compound.

Definition matches (sel : selector) (el : Element) : bool :=
  existsb (λ c, forallb (λ s, matches_simple s el) c) sel.

(** An element with its child elements. *)
#[warnings="-register-all"] Inductive Node : Type :=
  | mkNode (el : Element) (childNodes : list Node).

Definition node_el (n : Node) : Element :=
  let '(mkNode el _) := n in el.

Definition ref (n : Node) : nat := node_id (node_el n).

(** The elements below a node, in document order; the node itself is not
    among them. *)
Fixpoint descendants (n : Node) : list Node :=
  let '(mkNode _ kids) := n in
  (fix go (l : list Node) : list Node :=
     match l with
     | [] => []
     | k :: l' => k :: descendants k ++ go l'
     end) kids.

(** All the elements of a document, in document order. *)
Definition all_nodes (doc : Node) : list Node := doc :: descendants doc.

(** References are node identities: no two elements of a document share
    one. *)
Definition unique_ids (doc : Node) : Prop := NoDup (ref <$> all_nodes doc).

(** [Array.from(root.querySelectorAll(sel))] and [root.querySelector(sel)]. *)
Definition qsa (sel : selector) (root : Node) : list Node :=
  filter (λ n, matches sel (node_el n) = true) (descendants root).

Definition qs (sel : selector) (root : Node) : option Node :=
  head (qsa sel root).

(** A write to the element that a reference denotes. *)
Fixpoint update_node (i : nat) (f : Element → Element) (n : Node) : Node :=
  let '(mkNode el kids) := n in
  mkNode (if decide (node_id el = i) then f el else el)
         (map (update_node i f) kids).

Definition add_class (c : string) (el : Element) : Element :=
  {| node_id := node_id el; localName := localName el;
     attributes := attributes el; classList := {[c]} ∪ classList el;
     textContent := textContent el |}.

Definition remove_class (c : string) (el : Element) : Element :=
  {| node_id := node_id el; localName := localName el;
     attributes := attributes el; classList := classList el ∖ {[c]};
     textContent := textContent el |}.

Definition set_attr (a v : string) (el : Element) : Element :=
  {| node_id := node_id el; localName := localName el;
     attributes := <[a := v]> (attributes el); classList := classList el;
     textContent := textContent el |}.

End Dom.

(** ** [initProjectFilters] *)

Module Projects.
Import JS Dom.

(** The controls the closure reads.  A control that is absent from the page
    is [None]; a present one is given by its current [value].
    [selectedSkills] is the closure's [Set]. *)
Record Controls : Type := {
  searchInput : option string;
  categorySelect : option string;
  yearSelect : option string;
  sortSelect : option string;
  selectedSkills : gset string
}.

(** What [apply] writes: the order of the grid's children, the inline
    [style.display] of the cards (a card that was never written has the
    empty value) and, when the empty-state message exists, its [hidden]
    flag. *)
Record Grid : Type := {
  children : list nat;
  display : gmap nat string;
  emptyMsg : option bool
}.

(** The user's edits of the search box and of the year select. *)
Definition set_search (v : option string) (env : Controls) : Controls :=
  {| searchInput := v; categorySelect := categorySelect env;
     yearSelect := yearSelect env; sortSelect := sortSelect env;
     selectedSkills := selectedSkills env |}.

Definition set_year (v : option string) (env : Controls) : Controls :=
  {| searchInput := searchInput env; categorySelect := categorySelect env;
     yearSelect := v; sortSelect := sortSelect env;
     selectedSkills := selectedSkills env |}.

Definition readCardText (card : Element) : string :=
  toLowerCase (textContent card).

Definition getCardCategory (card : Element) : string :=
  or_else (getAttribute card "data_category") "all".

Definition getCardYear (card : Element) : string :=
  or_else (getAttribute card "data_year") "all".

Definition getCardSkills (card : Element) : list string :=
  let raw := or_else (getAttribute card "data_skills") EmptyString in
  filter (λ s, truthy s = true)
         ((λ s, toLowerCase (trim s)) <$> split ","%char raw).

Definition matchesFilters (env : Controls) (card : Element) : bool :=
  let q :=
    toLowerCase
      (trim (match searchInput env with
             | Some v => if truthy v then v else EmptyString
             | None => EmptyString
             end)) in
  if truthy q && negb (includes (readCardText card) q) then false
  else
    let cat := default "all" (categorySelect env) in
    if negb (bool_decide (cat = "all"))
       && negb (bool_decide (getCardCategory card = cat)) then false
    else
      let year := default "all" (yearSelect env) in
      if negb (bool_decide (year = "all"))
         && negb (bool_decide (getCardYear card = year)) then false
      else
        if negb (size (selectedSkills env) =? 0)
           && negb (forallb (λ s, bool_decide (s ∈ getCardSkills card))
                            (elements (selectedSkills env)))
        then false
        else true.

(** The array [visible] at the end of the first loop of [apply]: the cards
    that match, in the order of [cards]. *)
Definition visible (env : Controls) (cards : list Element) : list Element :=
  filter (λ c, matchesFilters env c = true) cards.

(** [card.style.display = v]. *)
Definition set_display (card : Element) (v : string) (g : Grid) : Grid :=
  {| children := children g;
     display := <[node_id card := v]> (display g);
     emptyMsg := emptyMsg g |}.

(** [grid.appendChild(card)]: the card leaves its place and becomes the last
    child. *)
Definition moved (ch : list nat) (card : Element) : list nat :=
  filter (λ n, n ≠ node_id card) ch ++ [node_id card].

Definition appendChild (g : Grid) (card : Element) : Grid :=
  {| children := moved (children g) card;
     display := display g;
     emptyMsg := emptyMsg g |}.

(** The [display] map after the first loop of [apply] has written one
    card. *)
Definition shown (env : Controls) (d : gmap nat string) (card : Element)
    : gmap nat string :=
  <[node_id card := if matchesFilters env card then EmptyString else "none"]> d.

(** [emptyMsg.hidden = v], when the message exists. *)
Definition set_hidden (v : bool) (g : Grid) : Grid :=
  {| children := children g;
     display := display g;
     emptyMsg := match emptyMsg g with Some _ => Some v | None => None end |}.

(** What one run of [apply] computes besides its writes to the page: the
    array [sorted], in the order in which it is appended to the grid, and
    whether [visible] is empty. *)
Record Recompute : Type := {
  visibleItemsInOrder : list Element;
  isEmpty : bool
}.

Section WithNumber.
(** The host's [Number(s)] on strings. *)
Variable Number : string → num.

Definition score (attr : string) (card : Element) : num :=
  let raw := getAttribute card attr in
  let n := match raw with
           | Some s => if truthy s then Number s else NaN
           | None => NaN
           end in
  if isFinite n then n else Fin 0.

Definition scoreImpact : Element → num := score "data_impact".
Definition scoreTechnical : Element → num := score "data_technical".

(** The three comparators handed to [sort]. *)
Definition by_impact (a b : Element) : num := sub (scoreImpact b) (scoreImpact a).
Definition by_technical (a b : Element) : num :=
  sub (scoreTechnical b) (scoreTechnical a).
Definition by_recent (a b : Element) : num :=
  let ay := Number (getCardYear a) in
  let by_ := Number (getCardYear b) in
  let aOk := isFinite ay in
  let bOk := isFinite by_ in
  if aOk && bOk then sub by_ ay
  else if aOk && negb bOk then Fin (-1)
  else if negb aOk && bOk then Fin 1
  else Fin 0.

(** The first loop of [apply]: every card gets its [display], the matching
    ones are pushed on [visible]. *)
Definition apply_card (env : Controls) (acc : Grid * list Element)
    (card : Element) : Grid * list Element :=
  let ok := matchesFilters env card in
  (set_display card (if ok then EmptyString else "none") acc.1,
   if ok then acc.2 ++ [card] else acc.2).

(** [sorted], from [visible] and the value of the sort control. *)
Definition sort_visible (env : Controls) (visible : list Element) : list Element :=
  let sort_ := default "recent" (sortSelect env) in
  if bool_decide (sort_ = "impact") then sort by_impact visible
  else if bool_decide (sort_ = "technical") then sort by_technical visible
  else sort by_recent visible.

(** The comparator that [apply] hands to [sort] under the current value
    of the sort control. *)
Definition comparator (env : Controls) : Element → Element → num :=
  let sort_ := default "recent" (sortSelect env) in
  if bool_decide (sort_ = "impact") then by_impact
  else if bool_decide (sort_ = "technical") then by_technical
  else by_recent.

(** One run of [apply].  [cards] are the cards as this run reads them;
    how a later run reads them again from the document is
    [LiveGrid.apply]. *)
Definition apply (env : Controls) (cards : list Element) (g : Grid)
    : Grid * Recompute :=
  let '(g1, visible) := foldl (apply_card env) (g, []) cards in
  let sorted := sort_visible env visible in
  let g2 := foldl appendChild g1 sorted in
  (set_hidden (negb (length visible =? 0)) g2,
   {| visibleItemsInOrder := sorted; isEmpty := length visible =? 0 |}).
End WithNumber.

End Projects.

(** ** [initModals] *)

Module Modals.
Import JS Dom.

(** The page as the modal code sees and changes it: the document, the inline
    [overflow] of the body, the element that has input focus, and the
    closure's variable [lastFocus].  [None] is [null].  The root of
    [document] is the document node: a query on the document looks at the
    elements below it. *)
Record Page : Type := {
  document : Node;
  body_overflow : string;
  activeElement : option nat;
  lastFocus : option nat
}.

Definition with_document (f : Node → Node) (p : Page) : Page :=
  {| document := f (document p); body_overflow := body_overflow p;
     activeElement := activeElement p; lastFocus := lastFocus p |}.

Definition set_body_overflow (v : string) (p : Page) : Page :=
  {| document := document p; body_overflow := v;
     activeElement := activeElement p; lastFocus := lastFocus p |}.

Definition set_activeElement (a : option nat) (p : Page) : Page :=
  {| document := document p; body_overflow := body_overflow p;
     activeElement := a; lastFocus := lastFocus p |}.

Definition set_lastFocus (t : option nat) (p : Page) : Page :=
  {| document := document p; body_overflow := body_overflow p;
     activeElement := activeElement p; lastFocus := t |}.

Definition classList_add (m : nat) (c : string) : Page → Page :=
  with_document (update_node m (add_class c)).

Definition classList_remove (m : nat) (c : string) : Page → Page :=
  with_document (update_node m (remove_class c)).

Definition setAttribute (m : nat) (a v : string) : Page → Page :=
  with_document (update_node m (set_attr a v)).

(** The node a reference denotes in the current document. *)
Definition deref (p : Page) (i : nat) : option Node :=
  head (filter (λ n, ref n = i) (all_nodes (document p))).

(** The state of the page that a user can observe: the document with the
    modals' flags, the scroll suspension and the input focus. *)
Definition observable (p : Page) : Node * string * option nat :=
  (document p, body_overflow p, activeElement p).

(** [modal.classList.contains("is_open")] and
    [modal.getAttribute("aria-hidden")]. *)
Definition is_open (p : Page) (m : nat) : bool :=
  from_option (λ n, bool_decide ("is_open" ∈ classList (node_el n))) false
              (deref p m).

Definition aria_hidden (p : Page) (m : nat) : option string :=
  deref p m ≫= λ n, getAttribute (node_el n) "aria-hidden".

Record KeyEvent : Type := {
  key : string;
  shiftKey : bool
}.

(** The six alternatives of [getFocusable]. *)
Definition selectors : selector :=
  [ [Tag "a"; HasAttr "href"];
    [Tag "button"; Not (HasAttr "disabled")];
    [Tag "input"; Not (HasAttr "disabled")];
    [Tag "select"; Not (HasAttr "disabled")];
    [Tag "textarea"; Not (HasAttr "disabled")];
    [HasAttr "tabindex"; Not (AttrIs "tabindex" "-1")] ].

(** [".modal.is_open"]. *)
Definition open_modal : selector := [ [Class "modal"; Class "is_open"] ].

Section WithHost.
(** What the host answers: [el.offsetParent] in the current page, whether
    the object behind a reference has a function [focus], and whether a
    call of [el.focus()] in the current page makes [el] the active
    element. *)
Variable offsetParent : Page → nat → option nat.
Variable focus_is_function : nat → bool.
Variable takes_focus : Page → nat → bool.

Definition getFocusable (p : Page) (root : Node) : list Node :=
  filter (λ el, offsetParent p (ref el) ≠ None) (qsa selectors root).

(** [el.focus()]. *)
Definition focus (el : nat) (p : Page) : Page :=
  if takes_focus p el then set_activeElement (Some el) p else p.

Definition openModal (modal : option nat) (p : Page) : Page :=
  match modal with
  | None => p
  | Some m =>
      let p := set_lastFocus (activeElement p) p in
      let p := classList_add m "is_open" p in
      let p := setAttribute m "aria-hidden" "false" p in
      let p := set_body_overflow "hidden" p in
      let focusable := from_option (getFocusable p) [] (deref p m) in
      match focusable with
      | first :: _ => focus (ref first) p
      | [] => p
      end
  end.

Definition closeModal (modal : option nat) (p : Page) : Page :=
  match modal with
  | None => p
  | Some m =>
      let p := classList_remove m "is_open" p in
      let p := setAttribute m "aria-hidden" "true" p in
      let p := set_body_overflow EmptyString p in
      let p := match lastFocus p with
               | Some t => if focus_is_function t then focus t p else p
               | None => p
               end in
      set_lastFocus None p
  end.

(** The page at the moment [closeModal] looks at [lastFocus]. *)
Definition unmarked (m : nat) (p : Page) : Page :=
  set_body_overflow EmptyString
    (setAttribute m "aria-hidden" "true" (classList_remove m "is_open" p)).

(** The [keydown] listener for Escape. *)
Definition onEscape (e : KeyEvent) (p : Page) : Page :=
  if negb (bool_decide (key e = "Escape")) then p
  else match qs open_modal (document p) with
       | Some open => closeModal (Some (ref open)) p
       | None => p
       end.

(** The [keydown] listener of the focus trap.  The second component tells
    whether [e.preventDefault()] was called. *)
Definition focusTrap (e : KeyEvent) (p : Page) : Page * bool :=
  if negb (bool_decide (key e = "Tab")) then (p, false)
  else match qs open_modal (document p) with
       | None => (p, false)
       | Some modal =>
           let focusable := getFocusable p modal in
           match focusable with
           | [] => (p, false)
           | first :: _ =>
               let last_ := List.last focusable first in
               if shiftKey e && bool_decide (activeElement p = Some (ref first))
               then (focus (ref last_) p, true)
               else if negb (shiftKey e)
                       && bool_decide (activeElement p = Some (ref last_))
               then (focus (ref first) p, true)
               else (p, false)
           end
       end.
End WithHost.

End Modals.

(** ** The specification's reading of the filter engine

    The four predicates in the words of the specification, over its Filter
    State; they are compared with [Projects.matchesFilters] below. *)

Module FilterSpec.
Import JS Dom Projects.

Record FilterState : Type := {
  query : string;
  category : string;
  year : string;
  skills : gset string
}.

(** The Filter State that the controls hold: an absent control reads as the
    empty query or as ["all"]. *)
Definition filter_state (env : Controls) : FilterState :=
  {| query := default EmptyString (searchInput env);
     category := default "all" (categorySelect env);
     year := default "all" (yearSelect env);
     skills := selectedSkills env |}.

(** The item's searchable text is its text, case-folded. *)
Definition searchableText (item : Element) : string := readCardText item.

(** Text predicate: the query is empty, or it occurs in the searchable text
    without regard to case. *)
Definition text_passes (q : string) (item : Element) : bool :=
  bool_decide (q = EmptyString) || includes (searchableText item) (toLowerCase q).

(** Category predicate: ["all"] is selected, or the item has exactly the
    selected category. *)
Definition category_passes (sel : string) (item : Element) : bool :=
  bool_decide (sel = "all") || bool_decide (getCardCategory item = sel).

(** Year predicate: ["all"] is selected, or the item's year is the selected
    string. *)
Definition year_passes (sel : string) (item : Element) : bool :=
  bool_decide (sel = "all") || bool_decide (getCardYear item = sel).

(** Skill predicate: nothing is selected, or every selected skill is one of
    the item's skills. *)
Definition skills_pass (sel : gset string) (item : Element) : bool :=
  bool_decide (sel = ∅)
  || bool_decide (set_Forall (λ s, s ∈ getCardSkills item) sel).

(** "Descending by the key; ties keep encounter order": [out] rearranges
    [input], no item stands in front of one with a larger key, and the items
    of any one key value are in [out] in the order they have in [input]. *)
Definition stable_descending (key : Element → num) (input out : list Element)
    : Prop :=
  out ≡ₚ input
  ∧ StronglySorted (λ a b, (value (key b) <= value (key a))%Q) out
  ∧ ∀ v : Q, filter (λ c, Qeq_bool (value (key c)) v = true) out
            = filter (λ c, Qeq_bool (value (key c)) v = true) input.

(** An item has a numeric year when its year converts to a finite number. *)
Definition numeric_year (Number : string → num) (item : Element) : bool :=
  isFinite (Number (getCardYear item)).

Definition year_value (Number : string → num) (item : Element) : Q :=
  value (Number (getCardYear item)).

(** The four predicates on the query as it stands in the Filter State. *)
Definition predicates (fs : FilterState) : list (Element → bool) :=
  [text_passes (query fs); category_passes (category fs);
   year_passes (year fs); skills_pass (skills fs)].

(** The four predicates with the text predicate on the trimmed query. *)
Definition predicates_trimmed (fs : FilterState) : list (Element → bool) :=
  [text_passes (trim (query fs)); category_passes (category fs);
   year_passes (year fs); skills_pass (skills fs)].

(** Evaluating a list of predicates in the order of the list. *)
Definition all_pass (ps : list (Element → bool)) (item : Element) : bool :=
  forallb (λ p, p item) ps.

End FilterSpec.

(** ** The specification's reading of the focusable-set resolver *)

Module FocusSpec.
Import JS Dom Modals.

(** An integer written in an attribute: an optional sign and decimal
    digits. *)
Definition parse_integer (s : string) : option Z :=
  match trim s with
  | EmptyString => None
  | String c r as t =>
      let '(neg, ds) :=
        if decide (c = "-"%char) then (true, r)
        else if decide (c = "+"%char) then (false, r) else (false, t) in
      match ds with
      | EmptyString => None
      | _ => (λ z : Z, if neg : bool then (- z)%Z else z) <$> digits_value 0 ds
      end
  end.

(** The explicit tab priority of an element, when it has one. *)
Definition tab_priority (el : Element) : option Z :=
  getAttribute el "tabindex" ≫= parse_integer.

Definition link_with_destination (el : Element) : bool :=
  bool_decide (localName el = "a")
  && bool_decide (is_Some (getAttribute el "href")).

Definition enabled_control (el : Element) : bool :=
  bool_decide (localName el ∈ ["button"; "input"; "select"; "textarea"])
  && negb (bool_decide (is_Some (getAttribute el "disabled"))).

Definition nonnegative_tab_priority (el : Element) : bool :=
  match tab_priority el with
  | Some z => (0 <=? z)%Z
  | None => false
  end.

Definition negative_tab_priority (el : Element) : bool :=
  match tab_priority el with
  | Some z => (z <? 0)%Z
  | None => false
  end.

(** The three kinds of element the specification lists. *)
Definition focusable_kind (el : Element) : bool :=
  link_with_destination el || enabled_control el || nonnegative_tab_priority el.

(** The third kind as the selector has it: a [tabindex] attribute whose
    value is not the string ["-1"]. *)
Definition tabindex_other_than_minus_one (el : Element) : bool :=
  bool_decide (is_Some (getAttribute el "tabindex"))
  && negb (bool_decide (getAttribute el "tabindex" = Some "-1")).

Definition selected_kind (el : Element) : bool :=
  link_with_destination el || enabled_control el
  || tabindex_other_than_minus_one el.

End FocusSpec.


(** ** A small catalog and a small page, to run the model *)

Module Examples.
Import JS Dom Projects Modals.

Definition card (i : nat) (attrs : list (string * string)) (text : string)
    : Element :=
  {| node_id := i; localName := "article"; attributes := list_to_map attrs;
     classList := {["project_card"]}; textContent := text |}.

Definition catalog : list Element :=
  [ card 0 [("data_category", "x"); ("data_year", "2024");
            ("data_impact", "80"); ("data_skills", "CAD, Testing")]
         "Intake Manifold";
    card 1 [("data_category", "y"); ("data_year", "2023");
            ("data_impact", "95"); ("data_skills", "cad")]
         "Brake rotor";
    card 2 [("data_category", "x"); ("data_year", "2024");
            ("data_impact", "60")]
         "Pedal box";
    card 3 [("data_category", "x"); ("data_impact", "80")]
         "Undated sketch" ].

Definition controls (q cat yr srt : option string) (sk : gset string)
    : Controls :=
  {| searchInput := q; categorySelect := cat; yearSelect := yr;
     sortSelect := srt; selectedSkills := sk |}.

Definition grid0 : Grid :=
  {| children := [0; 1; 2; 3]; display := ∅; emptyMsg := Some true |}.

Definition el (i : nat) (tag : string) (attrs : list (string * string))
    (classes : list string) : Element :=
  {| node_id := i; localName := tag; attributes := list_to_map attrs;
     classList := list_to_set classes; textContent := EmptyString |}.

(** A page with a trigger button and two dialogs.  The first dialog holds a
    close button, a link, a block with [tabindex="-2"], a disabled input and
    a plain button. *)
Definition trigger : Node :=
  mkNode (el 1 "button" [("data_image_open", EmptyString)] []) [].

Definition odd_block : Node :=
  mkNode (el 5 "div" [("tabindex", "-2")] []) [].

Definition image_modal : Node :=
  mkNode (el 2 "div" [("data_modal", "image"); ("aria-hidden", "true")]
             ["modal"])
    [ mkNode (el 3 "button" [("data_modal_close", EmptyString)] []) [];
      mkNode (el 4 "a" [("href", "#")] []) [];
      odd_block;
      mkNode (el 6 "input" [("disabled", EmptyString)] []) [];
      mkNode (el 7 "button" [] []) [] ].

Definition project_modal : Node :=
  mkNode (el 8 "div" [("data_modal", "project"); ("aria-hidden", "true")]
             ["modal"])
    [ mkNode (el 9 "button" [("data_modal_close", EmptyString)] []) [] ].

Definition body : Node :=
  mkNode (el 0 "body" [] []) [trigger; image_modal; project_modal].

Definition page0 : Page :=
  {| document := mkNode (el 10 "#document" [] []) [body];
     body_overflow := EmptyString; activeElement := Some 1; lastFocus := None |}.

(** A host in which every element is laid out, every reference has a
    [focus] method and every call of it takes effect. *)
Definition laid_out : Page → nat → option nat := λ _ _, Some 0.
Definition has_focus : nat → bool := λ _, true.
Definition focus_works : Page → nat → bool := λ _ _, true.

End Examples.

(** ** [apply], run after run

    [Projects.apply] is one run on the cards as that run reads them.  Between
    two runs the cards are not fixed records: [card.textContent] is read
    from the document each time, and [grid.appendChild] has moved the shown
    cards.  Here the subtree of the grid is kept with its text nodes, and
    [cards] holds references into it, as the array made once by
    [qsa("[data_project_card]", grid)] does. *)

Module LiveGrid.
Import JS Dom Projects.

(** A node below the grid: a text node, or an element with its child nodes.
    The field [textContent] of [el] is not read: the text of an element is
    that of its subtree. *)
#[warnings="-register-all"] Inductive DomNode : Type :=
  | TextNode (data : string)
  | ElementNode (el : Element) (childNodes : list DomNode).

(** [node.textContent]: the text nodes below it, joined in document order. *)
Fixpoint text (n : DomNode) : string :=
  match n with
  | TextNode s => s
  | ElementNode _ kids =>
      (fix go (l : list DomNode) : string :=
         match l with
         | [] => EmptyString
         | k :: l' => text k +:+ go l'
         end) kids
  end.

Definition text_in (ns : list DomNode) : string :=
  foldr (λ k s, text k +:+ s) EmptyString ns.

(** The elements of a subtree in document order, each with its child
    nodes. *)
Fixpoint elements_of (n : DomNode) : list (Element * list DomNode) :=
  match n with
  | TextNode _ => []
  | ElementNode el kids =>
      (el, kids)
      :: (fix go (l : list DomNode) : list (Element * list DomNode) :=
            match l with
            | [] => []
            | k :: l' => elements_of k ++ go l'
            end) kids
  end.

Definition elements_in (ns : list DomNode) : list (Element * list DomNode) :=
  ns ≫= elements_of.

Definition ref_of (e : Element * list DomNode) : nat := node_id e.1.

Definition ids (ns : list DomNode) : list nat := ref_of <$> elements_in ns.

(** The references of an element and of all that lies below it. *)
Definition subtree_ids (e : Element * list DomNode) : list nat :=
  ref_of e :: ids e.2.

(** The element that a reference denotes below the grid. *)
Definition find (i : nat) (ns : list DomNode)
    : option (Element * list DomNode) :=
  head (filter (λ e, ref_of e = i) (elements_in ns)).

(** What the script sees of a card when it reads it now. *)
Definition set_text (s : string) (el : Element) : Element :=
  {| node_id := node_id el; localName := localName el;
     attributes := attributes el; classList := classList el;
     textContent := s |}.

Definition card_at (ns : list DomNode) (i : nat) : option Element :=
  (λ e, set_text (text_in e.2) e.1) <$> find i ns.

(** A subtree without the element [i] and what lies below it. *)
Fixpoint remove (i : nat) (n : DomNode) : list DomNode :=
  match n with
  | TextNode s => [TextNode s]
  | ElementNode el kids =>
      if decide (node_id el = i) then []
      else [ ElementNode el
               ((fix go (l : list DomNode) : list DomNode :=
                   match l with
                   | [] => []
                   | k :: l' => remove i k ++ go l'
                   end) kids) ]
  end.

Definition remove_in (i : nat) (ns : list DomNode) : list DomNode :=
  ns ≫= remove i.

(** An element as it is when [i] is taken away below it. *)
Definition without (i : nat) (e : Element * list DomNode)
    : Element * list DomNode :=
  (e.1, remove_in i e.2).

(** [grid.appendChild(card)] on the child nodes of the grid: the card leaves
    the place it has, with all that lies below it, and becomes the last
    child. *)
Definition appendChild (ns : list DomNode) (card : nat) : list DomNode :=
  match find card ns with
  | Some e => remove_in card ns ++ [ElementNode e.1 e.2]
  | None => ns
  end.

(** The child nodes of the grid, and what the first model keeps of the
    page. *)
Record Page : Type := {
  nodes : list DomNode;
  grid : Grid
}.

(** [qsa("[data_project_card]", grid)], as references. *)
Definition project_cards (ns : list DomNode) : list nat :=
  ref_of
  <$> filter (λ e, matches [ [HasAttr "data_project_card"] ] e.1 = true)
             (elements_in ns).

Section WithNumber.
Variable Number : string → num.

(** One run of [apply] on the page as it is: the cards are read, the run
    of the first model computes the result and the writes to the styles
    and to the message, and the shown cards are moved in the document. *)
Definition apply (env : Controls) (cards : list nat) (p : Page)
    : Page * Recompute :=
  let now := omap (card_at (nodes p)) cards in
  let run := Projects.apply Number env now (grid p) in
  ({| nodes := foldl appendChild (nodes p)
                 (node_id <$> visibleItemsInOrder run.2);
      grid := run.1 |},
   run.2).
End WithNumber.

(** No card lies inside another card. *)
Definition no_card_in_a_card (cards : list nat) (ns : list DomNode) : bool :=
  forallb
    (λ c, match find c ns with
          | Some e => forallb (λ c', bool_decide (c' ∉ ids e.2)) cards
          | None => true
          end)
    cards.

End LiveGrid.

(** A grid with one card inside another, and a grid with two cards side by
    side, one of them in a wrapper. *)
Module LiveExamples.
Import JS Dom Projects LiveGrid.

Definition card (i : nat) (kids : list DomNode) : DomNode :=
  ElementNode (Examples.el i "article" [("data_project_card", EmptyString)] []) kids.

Definition nested : Page :=
  {| nodes := [ card 1 [ TextNode "alpha "; card 2 [ TextNode "beta" ] ] ];
     grid := {| children := [1]; display := ∅; emptyMsg := Some true |} |}.

Definition flat : Page :=
  {| nodes := [ card 1 [ TextNode "alpha" ];
                ElementNode (Examples.el 3 "div" [] [])
                  [ TextNode "in a wrapper: ";
                    card 2 [ TextNode "beta" ] ] ];
     grid := {| children := [1; 3]; display := ∅; emptyMsg := Some true |} |}.

End LiveExamples.

(** * The rest of the script

    The other widgets of [main.js]: the helper [clamp], the theme and motion
    preferences with the reveal-on-scroll observer, the mobile navigation,
    the scroll spy, the gallery chips, the skill chips of the project
    filters, and the remaining listeners of the modals. *)

(** ** More of the DOM *)

Module DomMore.
Import JS Dom.

(** The element that a reference denotes in a document, and reads of its
    class list and attributes. *)
Definition node_at (doc : Node) (i : nat) : option Node :=
  head (filter (λ n, ref n = i) (all_nodes doc)).

Definition element_at (doc : Node) (i : nat) : option Element :=
  node_el <$> node_at doc i.

Definition has_class (doc : Node) (i : nat) (c : string) : bool :=
  from_option (λ el, bool_decide (c ∈ classList el)) false (element_at doc i).

Definition attribute_at (doc : Node) (i : nat) (a : string) : option string :=
  element_at doc i ≫= λ el, getAttribute el a.

(** [a.contains(t)]: [t] is [a] or lies below it. *)
Definition contains (doc : Node) (a t : nat) : bool :=
  from_option (λ n, bool_decide (t ∈ ref <$> all_nodes n)) false
              (node_at doc a).

(** [el.removeAttribute(a)] and [el.classList.toggle(c, force)]. *)
Definition remove_attr (a : string) (el : Element) : Element :=
  {| node_id := node_id el; localName := localName el;
     attributes := delete a (attributes el); classList := classList el;
     textContent := textContent el |}.

Definition toggle_class (c : string) (force : bool) (el : Element) : Element :=
  if force then add_class c el else remove_class c el.

(** The first result that is not empty. *)
Definition first_nonempty {A B} (f : A → list B) : list A → list B :=
  fix go (l : list A) : list B :=
    match l with
    | [] => []
    | k :: l' => match f k with [] => go l' | p => p end
    end.

(** The chain from an element up to the root of the document: the element
    first, the root last; empty when the document has no such element. *)
Fixpoint path_to (i : nat) (n : Node) : list Node :=
  let '(mkNode el kids) := n in
  if decide (node_id el = i) then [n]
  else
    match first_nonempty (path_to i) kids with
    | [] => []
    | p => p ++ [n]
    end.

(** [el.closest(sel)]: the nearest element on the chain that matches; the
    root of the document, which is the document node, is no element. *)
Definition closest (sel : selector) (doc : Node) (i : nat) : option Node :=
  head (filter (λ n, matches sel (node_el n) = true)
               (removelast (path_to i doc))).

End DomMore.

(** ** [clamp] *)

Module JSMath.
Import JS.

(** The order of two numbers that are not [NaN] (the sign of a zero is not
    kept by [num]). *)
Definition compare (a b : num) : comparison :=
  match a, b with
  | Fin x, Fin y => (x ?= y)%Q
  | Inf true, Inf true | Inf false, Inf false => Eq
  | Inf true, _ | _, Inf false => Lt
  | _, _ => Gt
  end.

Definition is_NaN (n : num) : bool :=
  match n with NaN => true | _ => false end.

(** [Math.max(a, b)] and [Math.min(a, b)]: [NaN] when an argument is. *)
Definition Math_max (a b : num) : num :=
  if is_NaN a || is_NaN b then NaN
  else match compare a b with Lt => b | _ => a end.

Definition Math_min (a b : num) : num :=
  if is_NaN a || is_NaN b then NaN
  else match compare a b with Gt => b | _ => a end.

Definition clamp (n min max : num) : num := Math_min max (Math_max min n).

(** [a <= b] on numbers. *)
Definition le (a b : num) : Prop :=
  is_NaN a = false ∧ is_NaN b = false ∧ compare a b ≠ Gt.

End JSMath.

(** ** Theme and motion preferences, and the reveal on scroll *)

Module Site.
Import JS Dom DomMore.

Definition THEME_KEY : string := "site_theme".
Definition MOTION_KEY : string := "site_motion".

(** The cells these widgets read and write: the local storage, the
    attributes of the root element, what the two media queries report, the
    text of the two toggle buttons (where a button exists), the elements
    with [data_animate], and the elements the reveal observer still
    watches. *)
Record State : Type := {
  localStorage : gmap string string;
  root : gmap string string;
  prefersDark : bool;
  prefersReducedMotion : bool;
  themeBtn : option string;
  motionBtn : option string;
  animated : list Element;
  observed : gset nat
}.

Definition setItem (k v : string) (s : State) : State :=
  {| localStorage := <[k := v]> (localStorage s); root := root s;
     prefersDark := prefersDark s;
     prefersReducedMotion := prefersReducedMotion s;
     themeBtn := themeBtn s; motionBtn := motionBtn s;
     animated := animated s; observed := observed s |}.

Definition set_root (a v : string) (s : State) : State :=
  {| localStorage := localStorage s; root := <[a := v]> (root s);
     prefersDark := prefersDark s;
     prefersReducedMotion := prefersReducedMotion s;
     themeBtn := themeBtn s; motionBtn := motionBtn s;
     animated := animated s; observed := observed s |}.

Definition set_media (dark reduce : bool) (s : State) : State :=
  {| localStorage := localStorage s; root := root s;
     prefersDark := dark; prefersReducedMotion := reduce;
     themeBtn := themeBtn s; motionBtn := motionBtn s;
     animated := animated s; observed := observed s |}.

Definition set_labels (t m : option string) (s : State) : State :=
  {| localStorage := localStorage s; root := root s;
     prefersDark := prefersDark s;
     prefersReducedMotion := prefersReducedMotion s;
     themeBtn := t; motionBtn := m;
     animated := animated s; observed := observed s |}.

Definition set_animated (els : list Element) (obs : gset nat) (s : State)
    : State :=
  {| localStorage := localStorage s; root := root s;
     prefersDark := prefersDark s;
     prefersReducedMotion := prefersReducedMotion s;
     themeBtn := themeBtn s; motionBtn := motionBtn s;
     animated := els; observed := obs |}.

(** [localStorage.getItem(k) || "system"]. *)
Definition saved (k : string) (s : State) : string :=
  or_else (localStorage s !! k) "system".

Definition applyTheme (theme : string) (s : State) : State :=
  if bool_decide (theme = "light") || bool_decide (theme = "dark")
  then set_root "data_theme" theme s
  else set_root "data_theme" (if prefersDark s then "dark" else "light") s.

Definition applyMotion (motion : string) (s : State) : State :=
  if bool_decide (motion = "reduced") then set_root "data_motion" "reduced" s
  else if bool_decide (motion = "full") then set_root "data_motion" "full" s
  else set_root "data_motion"
         (if prefersReducedMotion s then "reduced" else "full") s.

Definition initThemeAndMotion (s : State) : State :=
  let savedTheme := saved THEME_KEY s in
  let savedMotion := saved MOTION_KEY s in
  applyMotion savedMotion (applyTheme savedTheme s).

(** The listeners of the two media queries; the host has already updated
    what the query reports. *)
Definition onThemeQueryChange (s : State) : State :=
  let current := saved THEME_KEY s in
  if bool_decide (current = "system") then applyTheme "system" s else s.

Definition onMotionQueryChange (s : State) : State :=
  let current := saved MOTION_KEY s in
  if bool_decide (current = "system") then applyMotion "system" s else s.

Definition themeLabel (theme : string) : string :=
  if bool_decide (theme = "system") then "Theme: System"
  else if bool_decide (theme = "dark") then "Theme: Dark"
  else "Theme: Light".

Definition motionLabel (motion : string) : string :=
  if bool_decide (motion = "system") then "Motion: System"
  else if bool_decide (motion = "reduced") then "Motion: Reduced"
  else "Motion: Full".

Definition updateToggleLabels (s : State) : State :=
  let theme := saved THEME_KEY s in
  let motion := saved MOTION_KEY s in
  set_labels ((λ _, themeLabel theme) <$> themeBtn s)
             ((λ _, motionLabel motion) <$> motionBtn s) s.

(** The order in which a click walks through the three choices. *)
Definition nextTheme (current : string) : string :=
  if bool_decide (current = "system") then "dark"
  else if bool_decide (current = "dark") then "light"
  else "system".

Definition nextMotion (current : string) : string :=
  if bool_decide (current = "system") then "reduced"
  else if bool_decide (current = "reduced") then "full"
  else "system".

(** The click listener of the theme toggle. *)
Definition themeClick (s : State) : State :=
  let current := saved THEME_KEY s in
  let next := nextTheme current in
  updateToggleLabels (applyTheme next (setItem THEME_KEY next s)).

(** [qsa("[data_animate]").forEach((el) => el.classList.add("in_view"))]. *)
Definition revealAll (s : State) : State :=
  set_animated (add_class "in_view" <$> animated s) (observed s) s.

(** The click listener of the motion toggle. *)
Definition motionClick (s : State) : State :=
  let current := saved MOTION_KEY s in
  let next := nextMotion current in
  let s := updateToggleLabels (applyMotion next (setItem MOTION_KEY next s)) in
  if bool_decide (root s !! "data_motion" = Some "reduced") then revealAll s
  else s.

(** [initScrollAnimations]: under reduced motion everything is revealed at
    once, otherwise every element is handed to the observer. *)
Definition initScrollAnimations (s : State) : State :=
  match animated s with
  | [] => s
  | _ =>
      if bool_decide (root s !! "data_motion" = Some "reduced") then revealAll s
      else set_animated (animated s)
             (foldl (λ obs el, {[node_id el]} ∪ obs) ∅ (animated s)) s
  end.

(** One entry that the observer reports. *)
Record Entry : Type := {
  target : nat;
  isIntersecting : bool
}.

(** The callback of the reveal observer. *)
Definition onIntersect (entries : list Entry) (s : State) : State :=
  foldl
    (λ s entry,
       if isIntersecting entry
       then set_animated
              ((λ el, if decide (node_id el = target entry)
                      then add_class "in_view" el else el) <$> animated s)
              (observed s ∖ {[target entry]}) s
       else s)
    s entries.

(** What happens on the page before the listeners run: the part of [init]
    that concerns these widgets, in its order. *)
Definition init (s : State) : State :=
  initScrollAnimations (updateToggleLabels (initThemeAndMotion s)).

(** The events after [init]. *)
Inductive Event : Type :=
  | ThemeClick
  | MotionClick
  | ThemeQueryChange (dark : bool)
  | MotionQueryChange (reduce : bool)
  | Intersect (entries : list Entry).

Definition step (s : State) (e : Event) : State :=
  match e with
  | ThemeClick => themeClick s
  | MotionClick => motionClick s
  | ThemeQueryChange dark =>
      onThemeQueryChange (set_media dark (prefersReducedMotion s) s)
  | MotionQueryChange reduce =>
      onMotionQueryChange (set_media (prefersDark s) reduce s)
  | Intersect entries => onIntersect entries s
  end.

Definition run (s : State) (events : list Event) : State :=
  foldl step s events.

(** The theme and the motion that a stored choice stands for. *)
Definition resolveTheme (choice : string) (dark : bool) : string :=
  if bool_decide (choice = "light") || bool_decide (choice = "dark")
  then choice else if dark then "dark" else "light".

Definition resolveMotion (choice : string) (reduce : bool) : string :=
  if bool_decide (choice = "reduced") || bool_decide (choice = "full")
  then choice else if reduce then "reduced" else "full".

(** The choices a click can store. *)
Definition theme_choice (t : string) : Prop :=
  t = "system" ∨ t = "dark" ∨ t = "light".

Definition motion_choice (t : string) : Prop :=
  t = "system" ∨ t = "reduced" ∨ t = "full".

(** The page shows what is stored: the stored choices are among the three,
    the root element carries the theme and the motion they stand for under
    what the media queries report now, and the buttons name the stored
    choices. *)
Definition settled (s : State) : Prop :=
  theme_choice (saved THEME_KEY s)
  ∧ motion_choice (saved MOTION_KEY s)
  ∧ root s !! "data_theme"
    = Some (resolveTheme (saved THEME_KEY s) (prefersDark s))
  ∧ root s !! "data_motion"
    = Some (resolveMotion (saved MOTION_KEY s) (prefersReducedMotion s))
  ∧ (∀ l, themeBtn s = Some l → l = themeLabel (saved THEME_KEY s))
  ∧ (∀ l, motionBtn s = Some l → l = motionLabel (saved MOTION_KEY s)).

(** [b] is [a] as it was, or [a] with the class [in_view] added. *)
Definition at_most_revealed (a b : Element) : Prop :=
  b = a ∨ b = add_class "in_view" a.

(** Every animated element is revealed or still watched. *)
Definition none_lost (s : State) : Prop :=
  ∀ el, el ∈ animated s →
        "in_view" ∈ classList el ∨ node_id el ∈ observed s.

End Site.

(** ** [initNav] *)

Module Nav.
Import JS Dom DomMore.

(** The two elements that [initNav] found: the toggle button and the list of
    links. *)
Record Refs : Type := {
  toggle : nat;
  links : nat
}.

Definition setAriaExpanded (btn : option nat) (val : bool) (doc : Node)
    : Node :=
  match btn with
  | None => doc
  | Some b =>
      update_node b (set_attr "aria-expanded" (if val then "true" else "false"))
                  doc
  end.

Definition closeNav (r : Refs) (doc : Node) : Node :=
  setAriaExpanded (Some (toggle r)) false
    (update_node (links r) (remove_class "is_open") doc).

(** The click listener of the toggle. *)
Definition toggleClick (r : Refs) (doc : Node) : Node :=
  let open := negb (has_class doc (links r) "is_open") in
  setAriaExpanded (Some (toggle r)) open
    (update_node (links r) (toggle_class "is_open" open) doc).

(** The click listener of the document, for a click on [target]. *)
Definition documentClick (r : Refs) (target : nat) (doc : Node) : Node :=
  let clickedInside :=
    contains doc (links r) target || contains doc (toggle r) target in
  if negb clickedInside then closeNav r doc else doc.

(** The [keydown] listener of the document. *)
Definition keydown (r : Refs) (key : string) (doc : Node) : Node :=
  if bool_decide (key = "Escape") then closeNav r doc else doc.

(** The menu is shown, and the toggle says so. *)
Definition menu_open (r : Refs) (doc : Node) : bool :=
  has_class doc (links r) "is_open".

Definition in_sync (r : Refs) (doc : Node) : Prop :=
  attribute_at doc (toggle r) "aria-expanded"
  = Some (if menu_open r doc then "true" else "false").

End Nav.

(** ** [initGalleryFilters] *)

Module Gallery.
Import JS Dom DomMore.

(** The chips with their class lists, and the inline [display] of the
    items. *)
Record Strip : Type := {
  chips : list Element;
  display : gmap nat string
}.

Definition setActive (active : string) (chips : list Element) : list Element :=
  (λ c, toggle_class "is_active"
          (bool_decide (getAttribute c "data_gallery_filter" = Some active)) c)
  <$> chips.

Definition shows (filter : string) (btn : Element) : bool :=
  let t := or_else (getAttribute btn "data_image_type") "all" in
  if bool_decide (filter = "all") then true else bool_decide (t = filter).

Definition apply (items : list Element) (filter : string)
    (d : gmap nat string) : gmap nat string :=
  foldl (λ d btn, <[node_id btn := if shows filter btn then EmptyString else "none"]> d)
        d items.

(** The click listener of a chip. *)
Definition chipClick (items : list Element) (c : Element) (s : Strip) : Strip :=
  let f := or_else (getAttribute c "data_gallery_filter") "all" in
  {| chips := setActive f (chips s); display := apply items f (display s) |}.

Definition initGalleryFilters (items : list Element) (s : Strip) : Strip :=
  match chips s, items with
  | [], _ | _, [] => s
  | _, _ =>
      {| chips := setActive "all" (chips s);
         display := apply items "all" (display s) |}
  end.

End Gallery.

(** ** [initScrollSpy] *)

Module ScrollSpy.
Import JS Dom DomMore.

(** A [Map] from sections to links, both given by reference, in insertion
    order. *)
Definition LinkMap : Type := list (nat * nat).

Fixpoint map_set (k v : nat) (m : LinkMap) : LinkMap :=
  match m with
  | [] => [(k, v)]
  | (k', v') :: m' =>
      if decide (k' = k) then (k, v) :: m' else (k', v') :: map_set k v m'
  end.

Fixpoint map_get (k : nat) (m : LinkMap) : option nat :=
  match m with
  | [] => None
  | (k', v') :: m' => if decide (k' = k) then Some v' else map_get k m'
  end.

(** [href.startsWith("#") && href.length > 1], and [href.slice(1)]. *)
Definition is_fragment (href : string) : bool :=
  match href with
  | String c (String _ _) => bool_decide (c = "#"%char)
  | _ => false
  end.

Definition slice1 (s : string) : string :=
  match s with
  | EmptyString => EmptyString
  | String _ r => r
  end.

(** The selector [#id], once the identifier is escaped: the elements whose
    [id] attribute is that string. *)
Definition by_id (id : string) : selector := [ [AttrIs "id" id] ].

(** One round of the loop that fills the map. *)
Definition register (doc : Node) (m : LinkMap) (a : Node) : LinkMap :=
  let href := or_else (getAttribute (node_el a) "href") EmptyString in
  if is_fragment href then
    match qs (by_id (slice1 href)) doc with
    | Some section => map_set (ref section) (ref a) m
    | None => m
    end
  else m.

(** The section that a link points at: the first element whose [id] is the
    fragment of the link's [href]. *)
Definition section_of (doc : Node) (a : Node) : option nat :=
  let href := or_else (getAttribute (node_el a) "href") EmptyString in
  if is_fragment href then ref <$> qs (by_id (slice1 href)) doc else None.

Definition spyLinks (doc : Node) : list Node :=
  qsa [ [HasAttr "data_scrollspy"] ] doc.

Definition linkMap (doc : Node) : LinkMap :=
  foldl (register doc) [] (spyLinks doc).

Definition setCurrent (m : LinkMap) (activeSection : nat) (doc : Node) : Node :=
  let doc :=
    foldl (λ d kv, update_node kv.2 (remove_attr "aria-current") d) doc m in
  match map_get activeSection m with
  | Some activeLink => update_node activeLink (set_attr "aria-current" "true") doc
  | None => doc
  end.

Record Entry : Type := {
  target : nat;
  isIntersecting : bool;
  intersectionRatio : num
}.

(** The comparator of the observer's callback. *)
Definition by_ratio (a b : Entry) : num :=
  sub (intersectionRatio b) (intersectionRatio a).

(** The ratio of an entry as a rational. *)
Definition ratio (e : Entry) : Q := value (intersectionRatio e).

(** The entry the callback picks. *)
Definition mostVisible (entries : list Entry) : option Entry :=
  head (sort by_ratio (filter (λ e, isIntersecting e = true) entries)).

(** The callback of the observer. *)
Definition onIntersect (m : LinkMap) (entries : list Entry) (doc : Node)
    : Node :=
  match mostVisible entries with
  | Some visible => setCurrent m (target visible) doc
  | None => doc
  end.

End ScrollSpy.

(** ** Strings of ASCII characters *)

Module JSAscii.

(** The strings on which the string model is exact: every code unit is
    below 128.  On them [toLowerCase] and [trim] are the language's
    functions; beyond them [String.prototype.toLowerCase] maps more letters,
    some of them by their context, and [trim] strips more white space. *)
Definition is_ascii_char (c : ascii) : bool :=
  let '(Ascii _ _ _ _ _ _ _ b7) := c in negb b7.

Fixpoint is_ascii (s : string) : bool :=
  match s with
  | EmptyString => true
  | String c r => is_ascii_char c && is_ascii r
  end.

End JSAscii.

(** ** The skill chips of the project filters *)

Module SkillChips.
Import JS Dom DomMore Projects.

(** A change of the sort control. *)
Definition set_sort (v : option string) (env : Controls) : Controls :=
  {| searchInput := searchInput env; categorySelect := categorySelect env;
     yearSelect := yearSelect env; sortSelect := v;
     selectedSkills := selectedSkills env |}.

Definition set_skills (sel : gset string) (env : Controls) : Controls :=
  {| searchInput := searchInput env; categorySelect := categorySelect env;
     yearSelect := yearSelect env; sortSelect := sortSelect env;
     selectedSkills := sel |}.

(** The skill a chip stands for. *)
Definition chipSkill (chip : Element) : string :=
  trim (toLowerCase (or_else (getAttribute chip "data_skill") EmptyString)).

(** The click listener of a chip: the chip with its new class list, the
    controls with the new selection, and the grid after [apply]. *)
Definition chipClick (Number : string → num) (cards : list Element)
    (chip : Element) (env : Controls) (g : Grid)
    : Element * Controls * Grid :=
  let skill := chipSkill chip in
  if negb (truthy skill) then (chip, env, g)
  else if bool_decide (skill ∈ selectedSkills env) then
    let env' := set_skills (selectedSkills env ∖ {[skill]}) env in
    (remove_class "is_active" chip, env', (apply Number env' cards g).1)
  else
    let env' := set_skills ({[skill]} ∪ selectedSkills env) env in
    (add_class "is_active" chip, env', (apply Number env' cards g).1).

End SkillChips.

(** ** The other listeners of the modals *)

Module ModalsMore.
Import JS Dom DomMore Modals.

(** [".modal"]. *)
Definition modal_class : selector := [ [Class "modal"] ].

Section WithHost.
Variable offsetParent : Page → nat → option nat.
Variable focus_is_function : nat → bool.
Variable takes_focus : Page → nat → bool.

(** The click listener of a close control [el]. *)
Definition closeControlClick (el : nat) (p : Page) : Page :=
  let modal := closest modal_class (document p) el in
  closeModal focus_is_function takes_focus (ref <$> modal) p.

(** [window.__siteCloseModal]. *)
Definition siteCloseModal (p : Page) : Page :=
  match qs open_modal (document p) with
  | Some open => closeModal focus_is_function takes_focus (Some (ref open)) p
  | None => p
  end.
End WithHost.

(** The modals that are open, in document order. *)
Definition open_modals (p : Page) : list nat :=
  ref <$> qsa open_modal (document p).

End ModalsMore.

(** ** More examples *)

Module MoreExamples.
Import JS Dom DomMore Examples.

Definition site0 : Site.State :=
  {| Site.localStorage := ∅; Site.root := ∅;
     Site.prefersDark := true; Site.prefersReducedMotion := false;
     Site.themeBtn := Some "Theme"; Site.motionBtn := Some "Motion";
     Site.animated := [el 20 "section" [("data_animate", EmptyString)] [];
                       el 21 "section" [("data_animate", EmptyString)] ["in_view"]];
     Site.observed := ∅ |}.

(** A header with a toggle button and a list of two links, and a main
    part. *)
Definition nav_page : Node :=
  mkNode (el 10 "#document" [] [])
    [ mkNode (el 0 "body" [] [])
        [ mkNode (el 1 "button" [("data_nav_toggle", EmptyString)] [])
            [ mkNode (el 2 "span" [] []) [] ];
          mkNode (el 3 "ul" [("id", "nav_links")] ["is_open"])
            [ mkNode (el 4 "a" [("href", "#work"); ("data_scrollspy", EmptyString)]
                         ["nav_link"]) [];
              mkNode (el 5 "a" [("href", "#about"); ("data_scrollspy", EmptyString)]
                         ["nav_link"]) [];
              mkNode (el 8 "a" [("href", "#work"); ("data_scrollspy", EmptyString);
                                ("aria-current", "page")]
                         ["nav_link"]) [] ];
          mkNode (el 6 "section" [("id", "work")] []) [];
          mkNode (el 7 "section" [("id", "about")] []) [] ] ].

Definition nav_refs : Nav.Refs := {| Nav.toggle := 1; Nav.links := 3 |}.

(** Three reports of the scroll spy's observer: one section that does not
    intersect, and two that intersect equally. *)
Definition spy_entries : list ScrollSpy.Entry :=
  [ {| ScrollSpy.target := 9; ScrollSpy.isIntersecting := false;
       ScrollSpy.intersectionRatio := Fin (9 # 10) |};
    {| ScrollSpy.target := 7; ScrollSpy.isIntersecting := true;
       ScrollSpy.intersectionRatio := Fin (1 # 2) |};
    {| ScrollSpy.target := 6; ScrollSpy.isIntersecting := true;
       ScrollSpy.intersectionRatio := Fin (2 # 4) |} ].

Definition gallery_items : list Element :=
  [ el 30 "button" [("data_image_open", EmptyString); ("data_image_type", "cad")] [];
    el 31 "button" [("data_image_open", EmptyString); ("data_image_type", "photo")] [];
    el 32 "button" [("data_image_open", EmptyString); ("data_image_type", EmptyString)] [] ].

Definition gallery_chips : list Element :=
  [ el 40 "button" [("data_gallery_filter", "all")] ["is_active"];
    el 41 "button" [("data_gallery_filter", "cad")] [];
    el 42 "button" [("data_gallery_filter", EmptyString)] [] ].

End MoreExamples.

(** ** Facts about the JavaScript operations *)

Module JSFacts.
Import JS.

Lemma toLowerCase_empty_iff s : toLowerCase s = EmptyString ↔ s = EmptyString.
Proof. destruct s; simpl; split; congruence. Qed.

Lemma truthy_toLowerCase s : truthy (toLowerCase s) = truthy s.
Proof.
  unfold truthy. f_equal. apply bool_decide_ext, toLowerCase_empty_iff.
Qed.

Lemma truthy_false_iff s : truthy s = false ↔ s = EmptyString.
Proof.
  unfold truthy. rewrite negb_false_iff, bool_decide_eq_true. done.
Qed.

Lemma trimStart_all_space s : all_space s = true → trimStart s = EmptyString.
Proof.
  induction s as [|c s IH]; simpl; [done|].
  intros [Hc Hs]%andb_true_iff. rewrite Hc. auto.
Qed.

Lemma trimStart_app_space w s : all_space w = true → trimStart (w +:+ s) = trimStart s.
Proof.
  induction w as [|c w IH]; simpl; [done|].
  intros [Hc Hw]%andb_true_iff. rewrite Hc. auto.
Qed.

Lemma trimEnd_all_space s : all_space s = true → trimEnd s = EmptyString.
Proof.
  induction s as [|c s IH]; simpl; [done|].
  intros [Hc Hs]%andb_true_iff. rewrite (IH Hs), Hc. done.
Qed.

Lemma trimEnd_app_space s w : all_space w = true → trimEnd (s +:+ w) = trimEnd s.
Proof.
  intros Hw. induction s as [|c s IH]; simpl.
  - by apply trimEnd_all_space.
  - by rewrite IH.
Qed.

Lemma trim_app_space w1 s w2 :
  all_space w1 = true → all_space w2 = true →
  trim (w1 +:+ s +:+ w2) = trim s.
Proof.
  intros H1 H2. unfold trim. rewrite (trimStart_app_space _ _ H1).
  induction s as [|c s IH].
  - change (EmptyString +:+ w2) with w2. by rewrite (trimStart_all_space _ H2).
  - change (String c s +:+ w2) with (String c (s +:+ w2)). simpl.
    destruct (Ascii.is_space c); [done|].
    simpl. by rewrite (trimEnd_app_space _ _ H2).
Qed.

Lemma trim_all_space s : all_space s = true → trim s = EmptyString.
Proof.
  intros Hs. unfold trim. by rewrite (trimStart_all_space _ Hs).
Qed.

(** A trimmed string neither starts nor ends with white space, so trimming
    it again changes nothing. *)
Lemma trimStart_head s c r : trimStart s = String c r → Ascii.is_space c = false.
Proof.
  induction s as [|d s IH]; simpl; [done|].
  destruct (Ascii.is_space d) eqn:Hd; [done|]. by intros [= <- <-].
Qed.

Lemma trimEnd_idemp s : trimEnd (trimEnd s) = trimEnd s.
Proof.
  induction s as [|c s IH]; simpl; [done|].
  destruct (trimEnd s) as [|d t] eqn:Ht.
  - destruct (Ascii.is_space c) eqn:Hc; simpl; [done|]. by rewrite Hc.
  - simpl in *. by rewrite IH.
Qed.

Lemma trimStart_trimEnd s c r :
  s = String c r → Ascii.is_space c = false → trimStart (trimEnd s) = trimEnd s.
Proof.
  intros -> Hc. simpl. destruct (trimEnd r); rewrite ?Hc; simpl; by rewrite Hc.
Qed.

Lemma trim_idemp s : trim (trim s) = trim s.
Proof.
  unfold trim. destruct (trimStart s) as [|c r] eqn:Hs; [done|].
  rewrite (trimStart_trimEnd _ c r eq_refl (trimStart_head _ _ _ Hs)).
  apply trimEnd_idemp.
Qed.

(** [includes] is the substring relation. *)
Lemma prefix_app_iff q h : String.prefix q h = true ↔ ∃ post, h = q +:+ post.
Proof.
  revert h. induction q as [|c q IH]; intros h.
  - split; [by exists h | by destruct h].
  - destruct h as [|d h]; [split; [done | by intros [? [=]]]|].
    simpl. destruct (Ascii.ascii_dec c d) as [->|Hne].
    + rewrite IH. split; intros [post Hp]; exists post.
      * by rewrite Hp.
      * change (String d q +:+ post) with (String d (q +:+ post)) in Hp.
        congruence.
    + split; [done|]. intros [post Hp].
      change (String c q +:+ post) with (String c (q +:+ post)) in Hp.
      congruence.
Qed.

Lemma includes_nil q : includes EmptyString q = String.prefix q EmptyString.
Proof. apply orb_false_r. Qed.

Lemma includes_cons c h q :
  includes (String c h) q = String.prefix q (String c h) || includes h q.
Proof. reflexivity. Qed.

Lemma includes_iff h q :
  includes h q = true ↔ ∃ pre post, h = pre +:+ q +:+ post.
Proof.
  induction h as [|c h IH].
  - rewrite includes_nil, prefix_app_iff. split.
    + intros [post ->]. by exists EmptyString, post.
    + intros [[|??] [post Hp]]; [by exists post | done].
  - rewrite includes_cons, orb_true_iff, IH, prefix_app_iff. split.
    + intros [[post ->]|(pre & post & ->)]; [by exists EmptyString, post|].
      by exists (String c pre), post.
    + intros [[|d pre] [post Hp]]; [left; by exists post|].
      right. change (String d pre +:+ q +:+ post)
        with (String d (pre +:+ q +:+ post)) in Hp.
      injection Hp as -> ->. by exists pre, post.
Qed.

End JSFacts.

(** ** Facts about [Array.prototype.sort] *)

Module SortFacts.
Import JS.

Section Sort.
Context {A : Type} (cmp : A → A → num).

Lemma sort_insert_perm x l : sort_insert cmp x l ≡ₚ x :: l.
Proof.
  induction l as [|y l IH]; simpl; [done|].
  destruct (sign (cmp x y)); try done.
  rewrite IH. apply Permutation_swap.
Qed.

Lemma sort_perm l : sort cmp l ≡ₚ l.
Proof.
  induction l as [|x l IH]; simpl; [done|].
  by rewrite sort_insert_perm, IH.
Qed.

(** Elements that the comparator never moves behind one another keep
    their relative order: this is what stability means. *)
Lemma sort_insert_filter (P : A → Prop) `{!∀ x, Decision (P x)} x l :
  (∀ y, y ∈ l → P x → P y → in_order cmp x y) →
  filter P (sort_insert cmp x l) = filter P (x :: l).
Proof.
  induction l as [|y l IH]; intros Hxy; simpl; [done|].
  destruct (sign (cmp x y)) eqn:Hs; try done.
  rewrite filter_cons, IH by (intros; apply Hxy; [by right|done..]).
  rewrite !filter_cons.
  destruct (decide (P y)) as [Hy|Hy]; [|done].
  destruct (decide (P x)) as [Hx|Hx]; [|done].
  destruct (Hxy y) as []; [by left|done..].
Qed.

Lemma sort_stable (P : A → Prop) `{!∀ x, Decision (P x)} l :
  (∀ x y, P x → P y → in_order cmp x y) →
  filter P (sort cmp l) = filter P l.
Proof.
  intros HP. induction l as [|x l IH]; simpl; [done|].
  rewrite sort_insert_filter by auto.
  by rewrite !filter_cons, IH.
Qed.

(** For a comparator that is a consistent ordering the result is
    sorted. *)
Context (Hanti : ∀ x y, ¬ in_order cmp x y → in_order cmp y x).
Context (Htrans : Transitive (in_order cmp)).

Lemma sort_insert_sorted x l :
  StronglySorted (in_order cmp) l →
  StronglySorted (in_order cmp) (sort_insert cmp x l).
Proof using Hanti Htrans.
  induction l as [|y l IH]; intros Hl; simpl.
  { repeat constructor. }
  apply StronglySorted_cons in Hl as [Hy Hl].
  destruct (sign (cmp x y)) eqn:Hs.
  - apply StronglySorted_cons. split; [|by apply StronglySorted_cons].
    assert (in_order cmp x y) by (unfold in_order; congruence).
    constructor; [done|]. eapply Forall_impl; [done|]. intros z. by etrans.
  - apply StronglySorted_cons. split; [|by apply StronglySorted_cons].
    assert (in_order cmp x y) by (unfold in_order; congruence).
    constructor; [done|]. eapply Forall_impl; [done|]. intros z. by etrans.
  - apply StronglySorted_cons. split; [|auto].
    rewrite sort_insert_perm. constructor; [|done].
    apply Hanti. unfold in_order. by rewrite Hs; intros [].
Qed.

Lemma sort_sorted l : StronglySorted (in_order cmp) (sort cmp l).
Proof using Hanti Htrans.
  induction l as [|x l IH]; simpl; [constructor|].
  by apply sort_insert_sorted.
Qed.

Lemma in_order_refl x : in_order cmp x x.
Proof using Hanti.
  destruct (decide (in_order cmp x x)) as [|Hn]; [done|]. by apply Hanti.
Qed.

Lemma sort_sorted_stably l : sorted_stably cmp l (sort cmp l).
Proof using Hanti Htrans.
  split; [apply sort_perm|]. split; [apply sort_sorted|].
  intros x. apply sort_stable. intros y z [_ Hyx] [Hxz _]. by etrans.
Qed.

Lemma sorted_stably_eq l1 l2 :
  StronglySorted (in_order cmp) l1 → StronglySorted (in_order cmp) l2 →
  l1 ≡ₚ l2 →
  (∀ x, filter (tied cmp x) l1 = filter (tied cmp x) l2) →
  l1 = l2.
Proof using Hanti.
  revert l2. induction l1 as [|a t1 IH]; intros l2 H1 H2 Hp Hf.
  { by apply Permutation_nil in Hp. }
  destruct l2 as [|b t2];
    [symmetry in Hp; by apply Permutation_nil_cons in Hp|].
  apply StronglySorted_cons in H1 as [Ha H1].
  apply StronglySorted_cons in H2 as [Hb H2].
  assert (in_order cmp a b) as Hab.
  { assert (b ∈ a :: t1) as [->|Hin]%elem_of_cons
      by (rewrite Hp; left).
    - apply in_order_refl.
    - by apply (proj1 (Forall_forall _ _) Ha). }
  assert (in_order cmp b a) as Hba.
  { assert (a ∈ b :: t2) as [->|Hin]%elem_of_cons
      by (rewrite <- Hp; left).
    - apply in_order_refl.
    - by apply (proj1 (Forall_forall _ _) Hb). }
  assert (a = b) as <-.
  { specialize (Hf a).
    rewrite (filter_cons_True _ a), (filter_cons_True _ b) in Hf;
      [congruence|by split|split; apply in_order_refl]. }
  f_equal. apply IH; [done|done|by apply Permutation_cons_inv in Hp|].
  intros x. specialize (Hf x). rewrite !filter_cons in Hf.
  destruct (decide (tied cmp x a)); congruence.
Qed.

(** Whatever algorithm the engine uses, a result that meets the
    language's requirement is the list that [sort] builds. *)
Lemma sort_unique l out : sorted_stably cmp l out → out = sort cmp l.
Proof using Hanti Htrans.
  intros (Hp & Hs & Hf).
  destruct (sort_sorted_stably l) as (Hp' & Hs' & Hf').
  apply sorted_stably_eq; [done|done|by rewrite Hp, Hp'|].
  intros x. by rewrite Hf, Hf'.
Qed.
End Sort.

Lemma StronglySorted_weaken {A} (R S : A → A → Prop) l :
  (∀ x y, R x y → S x y) → StronglySorted R l → StronglySorted S l.
Proof.
  intros HRS. induction 1 as [|x l Hl IH Hx]; constructor; [done|].
  eapply Forall_impl; [done|]. auto.
Qed.

Lemma filter_none {A} (P : A → Prop) `{!∀ x, Decision (P x)} l :
  Forall (λ x, ¬ P x) l → filter P l = [].
Proof.
  induction 1 as [|x l Hx Hl IH]; [done|]. by rewrite filter_cons_False.
Qed.

Lemma filter_all {A} (P : A → Prop) `{!∀ x, Decision (P x)} l :
  Forall P l → filter P l = l.
Proof.
  induction 1 as [|x l Hx Hl IH]; [done|].
  by rewrite filter_cons_True, IH.
Qed.

(** A list sorted so that nothing outside [P] stands in front of something
    inside [P] is its [P] part followed by the rest. *)
Lemma StronglySorted_partition {A} (R : A → A → Prop) (P : A → Prop)
    `{!∀ x, Decision (P x)} l :
  (∀ x y, R x y → P y → P x) →
  StronglySorted R l →
  l = filter P l ++ filter (λ x, ¬ P x) l.
Proof.
  intros HR. induction 1 as [|x l Hl IH Hx]; [done|].
  rewrite !filter_cons. destruct (decide (P x)) as [Hp|Hp].
  - rewrite decide_False by tauto. simpl. by f_equal.
  - rewrite decide_True by done.
    assert (filter P l = []) as Hnil.
    { apply filter_none. eapply Forall_impl; [done|]. naive_solver. }
    rewrite Hnil in *. simpl in *. by f_equal.
Qed.

Lemma Qcompare_minus_0 (a b : Q) : (a - b ?= 0)%Q = (a ?= b)%Q.
Proof.
  destruct (a ?= b)%Q eqn:Hab.
  - apply Qeq_alt in Hab. apply Qeq_alt. lra.
  - apply Qlt_alt in Hab. apply (proj1 (Qlt_alt _ _)). lra.
  - apply Qgt_alt in Hab. apply (proj1 (Qgt_alt _ _)). lra.
Qed.

(** Comparators of the form [(a, b) => key(b) - key(a)] on finite keys. *)
Section Descending.
Context {A : Type} (key : A → num).
Context (Hfin : ∀ x, isFinite (key x) = true).

Let cmp (a b : A) : num := sub (key b) (key a).

Lemma descending_sign a b :
  sign (sub (key b) (key a)) = (value (key b) ?= value (key a))%Q.
Proof using Hfin.
  pose proof (Hfin a). pose proof (Hfin b).
  destruct (key a), (key b); try done. simpl. apply Qcompare_minus_0.
Qed.

Lemma descending_in_order a b :
  in_order cmp a b ↔ (value (key b) <= value (key a))%Q.
Proof using Hfin.
  unfold in_order, cmp. rewrite descending_sign. by rewrite Qle_alt.
Qed.

Lemma descending_anti x y : ¬ in_order cmp x y → in_order cmp y x.
Proof using Hfin. rewrite !descending_in_order. lra. Qed.

Lemma descending_trans : Transitive (in_order cmp).
Proof using Hfin. intros x y z. rewrite !descending_in_order. lra. Qed.

Lemma descending_sorted l :
  StronglySorted (λ a b, (value (key b) <= value (key a))%Q) (sort cmp l).
Proof using Hfin.
  eapply StronglySorted_weaken; [intros x y; apply descending_in_order|].
  apply sort_sorted; [apply descending_anti|apply descending_trans].
Qed.

Lemma descending_stable (v : Q) l :
  filter (λ a, Qeq_bool (value (key a)) v = true) (sort cmp l)
  = filter (λ a, Qeq_bool (value (key a)) v = true) l.
Proof using Hfin.
  apply sort_stable. intros x y Hx%Qeq_bool_iff Hy%Qeq_bool_iff.
  apply descending_in_order. lra.
Qed.
End Descending.

End SortFacts.

(** ** The filter engine *)

Module ProjectsFacts.
Import JS Dom Projects FilterSpec JSFacts SortFacts.

(** *** What [apply] computes *)

Lemma apply_card_visible env acc cards :
  (foldl (apply_card env) acc cards).2
  = acc.2 ++ filter (λ c, matchesFilters env c = true) cards.
Proof.
  revert acc. induction cards as [|c cards IH]; intros acc.
  - simpl. by rewrite app_nil_r.
  - change (foldl (apply_card env) acc (c :: cards))
      with (foldl (apply_card env) (apply_card env acc c) cards).
    rewrite IH. unfold apply_card.
    destruct (matchesFilters env c) eqn:E.
    + rewrite filter_cons_True by done. simpl. by rewrite <- app_assoc.
    + rewrite filter_cons_False by congruence. done.
Qed.

Lemma apply_result Number env cards g :
  (apply Number env cards g).2
  = {| visibleItemsInOrder := sort_visible Number env (visible env cards);
       isEmpty := length (visible env cards) =? 0 |}.
Proof.
  unfold apply.
  pose proof (apply_card_visible env (g, []) cards) as Hv.
  destruct (foldl (apply_card env) (g, []) cards) as [g1 visible].
  simpl in *. by subst.
Qed.

Lemma sort_visible_perm Number env l : sort_visible Number env l ≡ₚ l.
Proof.
  unfold sort_visible. repeat case_bool_decide; apply sort_perm.
Qed.

(** *** [matchesFilters] is the conjunction of the four predicates, the text
    predicate being taken on the trimmed query *)

Lemma skills_loop (sel : gset string) (l : list string) :
  forallb (λ s, bool_decide (s ∈ l)) (elements sel) = true
  ↔ set_Forall (λ s, s ∈ l) sel.
Proof.
  rewrite forallb_forall. unfold set_Forall. split.
  - intros H s Hs. eapply bool_decide_eq_true_1, H.
    apply list_elem_of_In. by apply elem_of_elements.
  - intros H s Hs. apply bool_decide_eq_true_2, H.
    by apply elem_of_elements, list_elem_of_In.
Qed.

Lemma matchesFilters_spec env card :
  matchesFilters env card
  = all_pass (predicates_trimmed (filter_state env)) card.
Proof.
  unfold matchesFilters, all_pass, predicates_trimmed, filter_state. simpl.
  assert (match searchInput env with
          | Some v => if truthy v then v else EmptyString
          | None => EmptyString
          end = default EmptyString (searchInput env)) as ->.
  { destruct (searchInput env) as [v|]; [|done]. simpl.
    destruct (truthy v) eqn:Hv; [done|]. by apply truthy_false_iff in Hv. }
  set (q := trim (default EmptyString (searchInput env))).
  unfold text_passes, category_passes, year_passes, skills_pass, searchableText.
  rewrite truthy_toLowerCase. unfold truthy.
  destruct (bool_decide (q = EmptyString)); simpl;
    [|destruct (includes (readCardText card) (toLowerCase q)); simpl; [|done]].
  all: destruct (bool_decide (default "all" (categorySelect env) = "all"));
    simpl; [|destruct (bool_decide (getCardCategory card = _)); simpl; [|done]].
  all: destruct (bool_decide (default "all" (yearSelect env) = "all"));
    simpl; [|destruct (bool_decide (getCardYear card = _)); simpl; [|done]].
  all: rewrite andb_true_r.
  all: destruct (decide (selectedSkills env = ∅)) as [He|Hne];
    [rewrite He, size_empty; simpl; by rewrite bool_decide_true by done|].
  all: assert ((size (selectedSkills env) =? 0) = false) as ->
    by (apply Nat.eqb_neq; by intros ?%size_empty_inv%leibniz_equiv).
  all: rewrite (bool_decide_false _ Hne); simpl.
  all: destruct (forallb _ _) eqn:Hl; simpl; symmetry.
  all: try (apply bool_decide_eq_true; by apply skills_loop).
  all: apply bool_decide_eq_false; rewrite <- skills_loop; congruence.
Qed.

Lemma all_pass_perm ps ps' item :
  ps ≡ₚ ps' → all_pass ps item = all_pass ps' item.
Proof.
  unfold all_pass. induction 1 as [|p ps ps' _ IH|p p' ps|??? _ IH1 _ IH2];
    simpl; [done|by rewrite IH| |congruence].
  destruct (p item), (p' item); done.
Qed.

Lemma visible_elem_of env cards c :
  c ∈ visible env cards ↔ c ∈ cards ∧ matchesFilters env c = true.
Proof. unfold visible. rewrite list_elem_of_filter. tauto. Qed.

(** *** The visible items *)

(** C1, as the specification words it, fails: with the query ["rotor "] in
    the search box the card "Brake rotor" is shown, although ["rotor "] with
    its trailing blank does not occur in the card's text. *)
Lemma C1_counterexample :
  let env := Examples.controls (Some "rotor ") None None None ∅ in
  let item := Examples.card 1 [("data_category", "y"); ("data_year", "2023");
                               ("data_impact", "95"); ("data_skills", "cad")]
                            "Brake rotor" in
  item ∈ Examples.catalog
  ∧ item ∈ visibleItemsInOrder
             (apply Number_int env Examples.catalog Examples.grid0).2
  ∧ text_passes (query (filter_state env)) item = false
  ∧ all_pass (predicates (filter_state env)) item = false.
Proof.
  intros env item. split; [|split; [|split]].
  - unfold Examples.catalog. right. left.
  - rewrite apply_result. simpl.
    rewrite sort_visible_perm. apply visible_elem_of. split.
    + unfold Examples.catalog. right. left.
    + vm_compute. reflexivity.
  - vm_compute. reflexivity.
  - vm_compute. reflexivity.
Qed.

(** C1, amended: the items that [apply] shows are exactly the cards that
    pass the four predicates, the text predicate being taken on the query
    with its surrounding white space removed; the order in which the four
    predicates are evaluated does not matter. *)
Theorem C1_visible_items Number env cards g :
  let out := visibleItemsInOrder (apply Number env cards g).2 in
  let fs := filter_state env in
  out ≡ₚ filter (λ c, all_pass (predicates_trimmed fs) c = true) cards
  ∧ (∀ c, c ∈ out ↔
          c ∈ cards
          ∧ text_passes (trim (query fs)) c = true
          ∧ category_passes (category fs) c = true
          ∧ year_passes (year fs) c = true
          ∧ skills_pass (skills fs) c = true)
  ∧ (∀ ps, ps ≡ₚ predicates_trimmed fs →
           out ≡ₚ filter (λ c, all_pass ps c = true) cards).
Proof.
  intros out fs.
  assert (out ≡ₚ filter (λ c, all_pass (predicates_trimmed fs) c = true) cards)
    as Hout.
  { unfold out. rewrite apply_result. simpl. rewrite sort_visible_perm.
    unfold visible. erewrite list_filter_iff; [done|].
    intros c. by rewrite matchesFilters_spec. }
  split; [done|split].
  - intros c. rewrite Hout, list_elem_of_filter.
    unfold all_pass, predicates_trimmed. simpl.
    rewrite !andb_true_iff. tauto.
  - intros ps Hps. rewrite Hout. erewrite list_filter_iff; [done|].
    intros c. simpl. by rewrite (all_pass_perm _ _ c Hps).
Qed.

(** *** The year predicate *)

(** C7: the year predicate compares strings.  A selected year other than
    ["all"] rejects every card whose year attribute is a different string,
    whatever the two strings would convert to; a selected year that is
    ["all"] or the card's own string filters nothing. *)
Theorem C7_year_is_compared_as_string env card y :
  yearSelect env = Some y →
  (y ≠ "all" → getCardYear card ≠ y → matchesFilters env card = false)
  ∧ (y = "all" ∨ getCardYear card = y →
     matchesFilters env card = matchesFilters (set_year None env) card).
Proof.
  intros Hy. rewrite !matchesFilters_spec.
  unfold all_pass, predicates_trimmed, filter_state, year_passes. simpl.
  rewrite Hy. simpl. split.
  - intros H1 H2. rewrite !bool_decide_false by done. simpl.
    by rewrite !andb_false_r.
  - intros [->| <-]; [done|]. rewrite (bool_decide_true (_ = getCardYear _)) by done.
    by rewrite orb_true_r.
Qed.

(** The selected year ["2024"] against a card whose year is written
    ["02024"]: the two convert to the same number, and the card is
    rejected. *)
Lemma C7_year_is_compared_as_string_witness :
  let env := Examples.controls None None (Some "2024") None ∅ in
  let card := Examples.card 9 [("data_year", "02024")] "Leading zero" in
  Number_int (getCardYear card) = Number_int "2024"
  ∧ matchesFilters env card = false
  ∧ matchesFilters (set_year (Some "all") env) card
    = matchesFilters (set_year None env) card.
Proof.
  intros env card. split; [reflexivity|]. split.
  - apply (proj1 (C7_year_is_compared_as_string env card "2024" eq_refl));
      [discriminate|vm_compute; discriminate].
  - apply (proj2 (C7_year_is_compared_as_string
                    (set_year (Some "all") env) card "all" eq_refl)).
    by left.
Defined.

(** *** The query is trimmed *)

(** C10: the text predicate works on the trimmed query.  The verdict of
    [matchesFilters] is the conjunction of the text predicate on the trimmed
    query with the category, year and skill predicates; so a query gives the
    same verdict as its trimmed form, white space around a query changes
    nothing, and under a query of white space only every card passes the
    text predicate: the verdict is that of the other three predicates alone,
    as under the empty query. *)
Theorem C10_query_is_trimmed env card :
  (∀ q, matchesFilters (set_search (Some q) env) card
        = text_passes (trim q) card
          && (category_passes (default "all" (categorySelect env)) card
              && (year_passes (default "all" (yearSelect env)) card
                  && skills_pass (selectedSkills env) card)))
  ∧ (∀ q, matchesFilters (set_search (Some q) env) card
          = matchesFilters (set_search (Some (trim q)) env) card)
  ∧ (∀ ws1 core ws2, all_space ws1 = true → all_space ws2 = true →
       matchesFilters (set_search (Some (ws1 +:+ core +:+ ws2)) env) card
       = matchesFilters (set_search (Some core) env) card)
  ∧ (∀ q, all_space q = true →
       text_passes (trim q) card = true
       ∧ matchesFilters (set_search (Some q) env) card
         = (category_passes (default "all" (categorySelect env)) card
            && (year_passes (default "all" (yearSelect env)) card
                && skills_pass (selectedSkills env) card))
       ∧ matchesFilters (set_search (Some q) env) card
         = matchesFilters (set_search (Some EmptyString) env) card).
Proof.
  assert (∀ q, matchesFilters (set_search (Some q) env) card
               = text_passes (trim q) card
                 && (category_passes (default "all" (categorySelect env)) card
                     && (year_passes (default "all" (yearSelect env)) card
                         && skills_pass (selectedSkills env) card))) as Hcode.
  { intros q. rewrite matchesFilters_spec.
    unfold all_pass, predicates_trimmed, filter_state. simpl.
    by rewrite andb_true_r. }
  assert (∀ q q', trim q = trim q' →
    matchesFilters (set_search (Some q) env) card
    = matchesFilters (set_search (Some q') env) card) as Htrim.
  { intros q q' Hq. by rewrite !Hcode, Hq. }
  split; [exact Hcode|]. split; [|split].
  - intros q. apply Htrim. by rewrite trim_idemp.
  - intros ws1 core ws2 H1 H2. apply Htrim. by apply trim_app_space.
  - intros q Hq.
    assert (text_passes (trim q) card = true) as Ht
      by (unfold text_passes; by rewrite trim_all_space).
    split; [exact Ht|]. split.
    + by rewrite Hcode, Ht.
    + apply Htrim. by rewrite trim_all_space.
Qed.

(** The queries ["  rotor "] and ["rotor"], and a query of three blanks. *)
Lemma C10_query_is_trimmed_witness :
  let env := Examples.controls None (Some "y") None None ∅ in
  let card := Examples.card 1 [("data_category", "y")] "Brake rotor" in
  matchesFilters (set_search (Some "  rotor ") env) card
  = matchesFilters (set_search (Some "rotor") env) card
  ∧ matchesFilters (set_search (Some "   ") env) card = true.
Proof.
  intros env card.
  destruct (C10_query_is_trimmed env card) as (_ & _ & H3 & H4). split.
  - apply (H3 "  " "rotor" " "); reflexivity.
  - destruct (H4 "   ") as (_ & -> & _); reflexivity.
Defined.

(** *** The sort orders *)

Lemma score_finite Number attr card : isFinite (score Number attr card) = true.
Proof.
  unfold score. destruct (getAttribute card attr) as [raw|]; [|done].
  destruct (truthy raw); [|done]. by destruct (Number raw).
Qed.

Lemma sort_by_score Number attr l :
  stable_descending (score Number attr) l
    (sort (λ a b, sub (score Number attr b) (score Number attr a)) l).
Proof.
  split; [apply sort_perm|split].
  - apply (descending_sorted _ (score_finite Number attr)).
  - intros v. apply (descending_stable _ (score_finite Number attr)).
Qed.

(** C6: with the sort control on ["impact"] the shown items are the matching
    cards in descending order of [scoreImpact], and among cards of equal
    score the order is the one of the catalog; likewise for ["technical"] and
    [scoreTechnical].  The scores are always finite. *)
Theorem C6_score_orders_are_stable Number env cards g :
  let out := visibleItemsInOrder (apply Number env cards g).2 in
  (sortSelect env = Some "impact" →
     stable_descending (scoreImpact Number) (visible env cards) out)
  ∧ (sortSelect env = Some "technical" →
     stable_descending (scoreTechnical Number) (visible env cards) out)
  ∧ (∀ c, isFinite (scoreImpact Number c) = true
          ∧ isFinite (scoreTechnical Number c) = true).
Proof.
  intros out. unfold out. rewrite apply_result. simpl.
  unfold sort_visible. split; [|split].
  - intros ->. simpl. apply sort_by_score.
  - intros ->. simpl. apply sort_by_score.
  - intros c. split; apply score_finite.
Qed.

(** The example catalog under category ["x"] and the impact order: the two
    cards of impact 80 stay in catalog order. *)
Lemma C6_score_orders_are_stable_witness :
  let env := Examples.controls None (Some "x") None (Some "impact") ∅ in
  let out :=
    visibleItemsInOrder
      (apply Number_int env Examples.catalog Examples.grid0).2 in
  node_id <$> out = [0; 3; 2]
  ∧ stable_descending (scoreImpact Number_int)
                      (visible env Examples.catalog) out.
Proof.
  intros env out. split; [vm_compute; reflexivity|].
  apply (proj1 (C6_score_orders_are_stable Number_int env Examples.catalog
                  Examples.grid0)).
  reflexivity.
Defined.

Section Recent.
Variable Number : string → num.

Lemma recent_in_order a b :
  in_order (by_recent Number) a b
  ↔ (numeric_year Number b = true →
     numeric_year Number a = true
     ∧ (year_value Number b <= year_value Number a)%Q).
Proof.
  unfold in_order, by_recent, numeric_year, year_value.
  destruct (Number (getCardYear a)) as [|sa|qa],
           (Number (getCardYear b)) as [|sb|qb]; simpl;
    try (split; [done|]; intros _; by compute);
    try (split; [intros []; by compute|]; intros H; by destruct H).
  rewrite Qcompare_minus_0, <- Qle_alt. tauto.
Qed.

Lemma recent_anti x y :
  ¬ in_order (by_recent Number) x y → in_order (by_recent Number) y x.
Proof.
  rewrite !recent_in_order.
  destruct (numeric_year Number x), (numeric_year Number y);
    intros H ?; try done; [|exfalso; apply H; done].
  split; [done|].
  destruct (Qlt_le_dec (year_value Number y) (year_value Number x))
    as [Hlt|Hle]; [|done].
  exfalso. apply H. intros _. split; [done|lra].
Qed.

Lemma recent_trans : Transitive (in_order (by_recent Number)).
Proof.
  intros x y z. rewrite !recent_in_order. intros Hxy Hyz Hz.
  destruct (Hyz Hz) as [Hy ?]. destruct (Hxy Hy) as [Hx ?].
  split; [done|lra].
Qed.

Lemma recent_sorted l :
  StronglySorted
    (λ a b, numeric_year Number b = true →
            numeric_year Number a = true
            ∧ (year_value Number b <= year_value Number a)%Q)
    (sort (by_recent Number) l).
Proof.
  eapply StronglySorted_weaken; [intros x y; apply recent_in_order|].
  apply sort_sorted; [apply recent_anti|apply recent_trans].
Qed.

Lemma recent_split l :
  sort (by_recent Number) l
  = filter (λ c, numeric_year Number c = true) (sort (by_recent Number) l)
    ++ filter (λ c, numeric_year Number c = false)
              (sort (by_recent Number) l).
Proof.
  rewrite (list_filter_iff (λ c, numeric_year Number c = false)
                           (λ c, ¬ numeric_year Number c = true))
    by (intros c; by destruct (numeric_year Number c)).
  eapply StronglySorted_partition; [|apply recent_sorted].
  intros a b Hab Hb. by apply Hab.
Qed.

Lemma recent_stable l :
  filter (λ c, numeric_year Number c = false) (sort (by_recent Number) l)
  = filter (λ c, numeric_year Number c = false) l.
Proof.
  apply sort_stable. intros x y _ Hy. apply recent_in_order. congruence.
Qed.

Lemma recent_equal a b :
  numeric_year Number a = false → numeric_year Number b = false →
  by_recent Number a b = Fin 0.
Proof.
  unfold numeric_year, by_recent. by intros -> ->.
Qed.
End Recent.

(** The three comparators are consistent orderings, so the list that
    [apply] appends does not depend on the engine's sorting algorithm. *)
Lemma sort_visible_eq Number env l :
  sort_visible Number env l = sort (comparator Number env) l.
Proof. unfold sort_visible, comparator. by repeat case_bool_decide. Qed.

Lemma comparator_consistent Number env :
  (∀ x y, ¬ in_order (comparator Number env) x y →
          in_order (comparator Number env) y x)
  ∧ Transitive (in_order (comparator Number env)).
Proof.
  unfold comparator. repeat case_bool_decide.
  - split; [apply (descending_anti _ (score_finite Number _))
           |apply (descending_trans _ (score_finite Number _))].
  - split; [apply (descending_anti _ (score_finite Number _))
           |apply (descending_trans _ (score_finite Number _))].
  - split; [apply recent_anti|apply recent_trans].
Qed.

Lemma sort_visible_unique Number env l out :
  sorted_stably (comparator Number env) l out →
  out = sort_visible Number env l.
Proof.
  destruct (comparator_consistent Number env) as [Hanti Htrans].
  rewrite sort_visible_eq. by apply sort_unique.
Qed.

(** C5: under the recent order (the sort control absent, or on any value
    other than ["impact"] and ["technical"]) the shown items are the matching
    cards arranged so that whenever an item with a numeric year comes later,
    the earlier item has a numeric year as well, and not a smaller one; the
    items without a numeric year (a card without the attribute is one of
    them, since ["all"] is not a number) keep the order they had; on two such
    items the comparator returns zero. *)
Theorem C5_recent_order Number env cards g :
  isFinite (Number "all") = false →
  default "recent" (sortSelect env) ≠ "impact" →
  default "recent" (sortSelect env) ≠ "technical" →
  let out := visibleItemsInOrder (apply Number env cards g).2 in
  out ≡ₚ visible env cards
  ∧ out = filter (λ c, numeric_year Number c = true) out
          ++ filter (λ c, numeric_year Number c = false) out
  ∧ StronglySorted
      (λ a b, numeric_year Number b = true →
              numeric_year Number a = true
              ∧ (year_value Number b <= year_value Number a)%Q) out
  ∧ filter (λ c, numeric_year Number c = false) out
    = filter (λ c, numeric_year Number c = false) (visible env cards)
  ∧ (∀ a b, numeric_year Number a = false → numeric_year Number b = false →
            by_recent Number a b = Fin 0)
  ∧ (∀ c, getAttribute c "data_year" = None → numeric_year Number c = false).
Proof.
  intros Hall H1 H2 out. unfold out. rewrite apply_result. simpl.
  unfold sort_visible. rewrite !bool_decide_false by done.
  split; [apply sort_perm|]. split; [apply recent_split|].
  split; [apply recent_sorted|].
  split; [apply recent_stable|]. split; [apply recent_equal|].
  intros c Hc. unfold numeric_year, getCardYear. by rewrite Hc.
Qed.

(** The example catalog with two more undated cards in front, under the
    default order. *)
Lemma C5_recent_order_witness :
  let env := Examples.controls None None None None ∅ in
  let cards := Examples.card 7 [("data_year", "n/a")] "No date"
               :: Examples.card 8 [] "Loose page"
               :: Examples.catalog in
  let out :=
    visibleItemsInOrder (apply Number_int env cards Examples.grid0).2 in
  node_id <$> out = [0; 2; 1; 7; 8; 3]
  ∧ filter (λ c, numeric_year Number_int c = false) out
    = filter (λ c, numeric_year Number_int c = false) (visible env cards).
Proof.
  intros env cards out. split; [vm_compute; reflexivity|].
  apply (C5_recent_order Number_int env cards Examples.grid0);
    [reflexivity|discriminate|discriminate].
Defined.

(** *** Running [apply] again *)

Lemma Grid_eq (g1 g2 : Grid) :
  children g1 = children g2 → display g1 = display g2 →
  emptyMsg g1 = emptyMsg g2 → g1 = g2.
Proof. destruct g1, g2; simpl; congruence. Qed.

Lemma apply_card_grid env acc cards :
  children (foldl (apply_card env) acc cards).1 = children acc.1
  ∧ display (foldl (apply_card env) acc cards).1
    = foldl (shown env) (display acc.1) cards
  ∧ emptyMsg (foldl (apply_card env) acc cards).1 = emptyMsg acc.1.
Proof.
  revert acc. induction cards as [|c cards IH]; intros acc; [done|].
  change (foldl (apply_card env) acc (c :: cards))
    with (foldl (apply_card env) (apply_card env acc c) cards).
  destruct (IH (apply_card env acc c)) as (-> & -> & ->). done.
Qed.

Lemma shown_union env d cards :
  foldl (shown env) d cards = foldl (shown env) ∅ cards ∪ d.
Proof.
  revert d. induction cards as [|c cards IH]; intros d; simpl.
  - by rewrite (left_id_L ∅ (∪)).
  - rewrite IH, (IH (shown env ∅ c)). unfold shown.
    rewrite insert_union_singleton_l, insert_empty.
    by rewrite (assoc_L (∪)).
Qed.

Lemma shown_idemp env d cards :
  foldl (shown env) (foldl (shown env) d cards) cards
  = foldl (shown env) d cards.
Proof.
  rewrite (shown_union env (foldl _ _ _)), (shown_union env d).
  by rewrite (assoc_L (∪)), (idemp_L (∪)).
Qed.

Lemma appendChild_grid g l :
  children (foldl appendChild g l) = foldl moved (children g) l
  ∧ display (foldl appendChild g l) = display g
  ∧ emptyMsg (foldl appendChild g l) = emptyMsg g.
Proof.
  revert g. induction l as [|c l IH]; intros g; [done|].
  simpl. destruct (IH (appendChild g c)) as (-> & -> & ->). done.
Qed.

Lemma moved_split ch l :
  foldl moved ch l
  = filter (λ n, n ∉ node_id <$> l) ch ++ foldl moved [] l.
Proof.
  revert ch. induction l as [|c l IH]; intros ch; simpl.
  - rewrite app_nil_r. symmetry. apply filter_all, Forall_forall.
    intros n _. apply not_elem_of_nil.
  - rewrite IH, (IH (moved [] c)). unfold moved. simpl.
    rewrite filter_app, list_filter_filter, <- app_assoc. f_equal.
    apply list_filter_iff. intros n. rewrite ?fmap_cons, not_elem_of_cons. tauto.
Qed.

Lemma moved_within l n : n ∈ foldl moved [] l → n ∈ node_id <$> l.
Proof.
  assert (∀ ch, n ∈ foldl moved ch l → n ∈ ch ∨ n ∈ node_id <$> l) as H.
  { induction l as [|c l IH]; intros ch; simpl; [tauto|].
    rewrite ?fmap_cons. intros [Hn|Hn]%IH; [|right; by right].
    unfold moved in Hn. apply elem_of_app in Hn as [Hn|Hn].
    - apply list_elem_of_filter in Hn as [_ Hn]. by left.
    - apply list_elem_of_singleton in Hn as ->. right. left. }
  intros [Hn|Hn]%H; [by apply elem_of_nil in Hn|done].
Qed.

Lemma moved_idemp ch l : foldl moved (foldl moved ch l) l = foldl moved ch l.
Proof.
  rewrite (moved_split (foldl _ _ _)), (moved_split ch).
  rewrite filter_app, list_filter_filter. f_equal.
  rewrite (filter_none _ (foldl moved [] l)), app_nil_r.
  - apply list_filter_iff. tauto.
  - apply Forall_forall. intros n Hn%moved_within. tauto.
Qed.

Lemma apply_grid Number env cards g :
  let g' := (apply Number env cards g).1 in
  let out := visibleItemsInOrder (apply Number env cards g).2 in
  children g' = foldl moved (children g) out
  ∧ display g' = foldl (shown env) (display g) cards
  ∧ emptyMsg g' = (λ _, negb (length (visible env cards) =? 0)) <$> emptyMsg g.
Proof.
  intros g' out. unfold g', out. rewrite apply_result. unfold apply.
  pose proof (apply_card_visible env (g, []) cards) as Hv.
  pose proof (apply_card_grid env (g, []) cards) as (Hc & Hd & He).
  destruct (foldl (apply_card env) (g, []) cards) as [g1 vis].
  simpl in *. subst vis.
  destruct (appendChild_grid g1 (sort_visible Number env (visible env cards)))
    as (Hc' & Hd' & He').
  unfold set_hidden. simpl. fold (visible env cards).
  rewrite Hc', Hd', He', Hc, Hd, He. by destruct (emptyMsg g).
Qed.

(** On cards that read the same, a second run of [apply] leaves what the
    first run wrote and computes the same result. *)
Lemma apply_same_cards Number env cards g :
  apply Number env cards (apply Number env cards g).1
  = apply Number env cards g.
Proof.
  set (g1 := (apply Number env cards g).1).
  assert ((apply Number env cards g1).2 = (apply Number env cards g).2) as H2
    by by rewrite !apply_result.
  destruct (apply_grid Number env cards g1) as (Hc1 & Hd1 & He1).
  destruct (apply_grid Number env cards g) as (Hc & Hd & He).
  fold g1 in Hc, Hd, He.
  destruct (apply Number env cards g1) as [g2 r2] eqn:E2.
  destruct (apply Number env cards g) as [g1' r1] eqn:E1.
  simpl in *. subst g1 r2. f_equal.
  apply Grid_eq.
  - rewrite Hc1, Hc. apply moved_idemp.
  - rewrite Hd1, Hd. apply shown_idemp.
  - rewrite He1, He. by destruct (emptyMsg g).
Qed.

End ProjectsFacts.

(** ** Facts about documents *)

Module DomFacts.
Import JS Dom.

(** Induction on a document, with the hypothesis for every child. *)
Lemma Node_induction (P : Node → Prop) :
  (∀ el kids, Forall P kids → P (mkNode el kids)) → ∀ n, P n.
Proof.
  intros H. fix IH 1. intros [el kids]. apply H.
  induction kids as [|k kids IHk]; constructor; [apply IH|apply IHk].
Qed.

Lemma descendants_eq el kids :
  descendants (mkNode el kids) = kids ≫= all_nodes.
Proof.
  simpl. induction kids as [|k kids IH]; [done|].
  rewrite bind_cons. unfold all_nodes at 1. simpl. by rewrite IH.
Qed.

Lemma all_nodes_eq el kids :
  all_nodes (mkNode el kids) = mkNode el kids :: (kids ≫= all_nodes).
Proof. unfold all_nodes at 1. by rewrite descendants_eq. Qed.

Lemma map_fixed {A} (f : A → A) l : map f l = l ↔ Forall (λ x, f x = x) l.
Proof.
  induction l as [|x l IH]; simpl; [by split; [constructor|]|].
  rewrite Forall_cons, <- IH. split; [by intros [= -> ->]|].
  by intros [-> ->].
Qed.

(** A write through a reference leaves the document as it is exactly when
    it changes none of the elements the reference denotes. *)
Lemma update_node_fixed m f doc :
  update_node m f doc = doc
  ↔ ∀ n, n ∈ all_nodes doc → ref n = m → f (node_el n) = node_el n.
Proof.
  induction doc as [el kids IH] using Node_induction.
  rewrite all_nodes_eq. simpl. split.
  - intros [= Hel Hkids] n Hn Hm.
    apply elem_of_cons in Hn as [->|Hn].
    + unfold ref in Hm. simpl in *. by rewrite decide_True in Hel.
    + apply list_elem_of_bind in Hn as (k & Hn & Hk).
      apply (map_fixed (update_node m f)) in Hkids.
      rewrite Forall_forall in IH, Hkids.
      by apply (proj1 (IH k Hk) (Hkids k Hk)).
  - intros H. f_equal.
    + destruct (decide (node_id el = m)) as [Hm|]; [|done].
      apply (H (mkNode el kids)); [left|done].
    + apply (map_fixed (update_node m f)).
      rewrite Forall_forall in IH |- *. intros k Hk. apply IH; [done|].
      intros n Hn. apply H. right. apply list_elem_of_bind. eauto.
Qed.

Lemma update_node_compose m f g doc :
  (∀ el, node_id (f el) = node_id el) →
  update_node m g (update_node m f doc) = update_node m (g ∘ f) doc.
Proof.
  intros Hf. induction doc as [el kids IH] using Node_induction.
  simpl. f_equal.
  - destruct (decide (node_id el = m)) as [Hm|Hm].
    + by rewrite decide_True by by rewrite Hf.
    + by rewrite decide_False.
  - rewrite map_map. apply map_ext_in.
    rewrite Forall_forall in IH. intros k Hk. apply IH.
    by apply list_elem_of_In.
Qed.

(** With distinct identifiers a reference denotes one node. *)
Lemma head_filter_Some {A} (P : A → Prop) `{!∀ x, Decision (P x)} l x :
  head (filter P l) = Some x → x ∈ l ∧ P x.
Proof.
  intros Hhd. assert (x ∈ filter P l) as Hx.
  { destruct (filter P l); simplify_eq/=. left. }
  apply list_elem_of_filter in Hx. tauto.
Qed.

Lemma NoDup_fmap_eq {A B} (f : A → B) l x y :
  NoDup (f <$> l) → x ∈ l → y ∈ l → f x = f y → x = y.
Proof.
  induction l as [|z l IH]; simpl; [by intros _ ?%elem_of_nil|].
  intros [Hz Hl]%NoDup_cons [->|Hx]%elem_of_cons [->|Hy]%elem_of_cons Hf;
    [done| | |by apply IH].
  - destruct Hz. rewrite Hf. by apply list_elem_of_fmap_2.
  - destruct Hz. rewrite <- Hf. by apply list_elem_of_fmap_2.
Qed.

Lemma unique_referent doc m n0 :
  unique_ids doc →
  head (filter (λ n, ref n = m) (all_nodes doc)) = Some n0 →
  ∀ n, n ∈ all_nodes doc → ref n = m → n = n0.
Proof.
  intros Hu [H0 Hm0]%head_filter_Some n Hn Hm.
  apply (NoDup_fmap_eq ref (all_nodes doc)); [done..|congruence].
Qed.

End DomFacts.

(** ** The modal manager *)

Module ModalsFacts.
Import JS Dom Modals FocusSpec DomFacts.

Lemma Page_eq (p q : Page) :
  document p = document q → body_overflow p = body_overflow q →
  activeElement p = activeElement q → lastFocus p = lastFocus q → p = q.
Proof. destruct p, q; simpl; congruence. Qed.

Lemma remove_absent_class c el :
  c ∉ classList el → remove_class c el = el.
Proof.
  intros Hc. destruct el as [i tag attrs cls txt]. unfold remove_class.
  simpl in *. f_equal. by apply difference_disjoint_L, disjoint_singleton_r.
Qed.

Lemma set_attr_fixed a v el :
  set_attr a v el = el ↔ getAttribute el a = Some v.
Proof.
  destruct el as [i tag attrs cls txt]. unfold set_attr, getAttribute.
  simpl. split.
  - intros [= H]. rewrite <- H. apply lookup_insert_eq.
  - intros H. f_equal. by apply insert_id.
Qed.

Lemma unmark_twice c a v el :
  set_attr a v (remove_class c (set_attr a v (remove_class c el)))
  = set_attr a v (remove_class c el).
Proof.
  destruct el as [i tag attrs cls txt]. unfold set_attr, remove_class.
  simpl. f_equal; [apply insert_insert_eq|].
  apply difference_twice_L.
Qed.

Lemma update_node_idemp m f doc :
  (∀ el, node_id (f el) = node_id el) → (∀ el, f (f el) = f el) →
  update_node m f (update_node m f doc) = update_node m f doc.
Proof.
  intros Hid Hf. rewrite update_node_compose by done.
  induction doc as [el kids IH] using Node_induction.
  simpl. f_equal.
  - destruct (decide (node_id el = m)); [|done]. apply Hf.
  - apply map_ext_in. rewrite Forall_forall in IH. intros k Hk.
    by apply IH, list_elem_of_In.
Qed.

(** The selector list of [getFocusable] selects the links with a
    destination, the controls without a [disabled] attribute, and the
    elements whose [tabindex] attribute is not the string ["-1"]. *)
Lemma control_tag (t : string) :
  bool_decide (t ∈ ["button"; "input"; "select"; "textarea"])
  = bool_decide (t = "button") || bool_decide (t = "input")
    || bool_decide (t = "select") || bool_decide (t = "textarea").
Proof.
  apply eq_true_iff_eq.
  rewrite !orb_true_iff, !bool_decide_eq_true, !elem_of_cons, elem_of_nil.
  tauto.
Qed.

Lemma matches_selectors el : matches selectors el = selected_kind el.
Proof.
  unfold selected_kind, link_with_destination, enabled_control,
    tabindex_other_than_minus_one.
  rewrite control_tag. unfold matches, selectors. simpl.
  repeat match goal with
         | |- context [bool_decide ?P] => generalize (bool_decide P); intros []
         end; reflexivity.
Qed.

Section WithHost.
Variable offsetParent : Page → nat → option nat.
Variable focus_is_function : nat → bool.
Variable takes_focus : Page → nat → bool.

Abbreviation getFocusable := (getFocusable offsetParent).
Abbreviation focus := (focus takes_focus).
Abbreviation openModal := (openModal offsetParent takes_focus).
Abbreviation closeModal := (closeModal focus_is_function takes_focus).
Abbreviation focusTrap := (focusTrap offsetParent takes_focus).

(** [focus] touches the active element only. *)
Lemma focus_fields el p :
  document (focus el p) = document p
  ∧ body_overflow (focus el p) = body_overflow p
  ∧ lastFocus (focus el p) = lastFocus p.
Proof. unfold Modals.focus. by destruct (takes_focus p el). Qed.

Lemma focus_active el p :
  takes_focus p el = true → activeElement (focus el p) = Some el.
Proof. unfold Modals.focus. by intros ->. Qed.

(** *** Opening and closing *)

Lemma openModal_lastFocus m p :
  lastFocus (openModal (Some m) p) = activeElement p.
Proof.
  unfold Modals.openModal.
  match goal with |- context [from_option ?f ?d ?o] =>
    destruct (from_option f d o) as [|first ?] end; [done|].
  by rewrite (proj2 (proj2 (focus_fields _ _))).
Qed.

Lemma closeModal_eq m p :
  closeModal (Some m) p
  = set_lastFocus None
      (match lastFocus p with
       | Some t => if focus_is_function t then focus t (unmarked m p)
                   else unmarked m p
       | None => unmarked m p
       end).
Proof. reflexivity. Qed.

Lemma closeModal_lastFocus modal p :
  modal ≠ None → lastFocus (closeModal modal p) = None.
Proof. by destruct modal. Qed.

Lemma closeModal_fields m p :
  document (closeModal (Some m) p) = document (unmarked m p)
  ∧ body_overflow (closeModal (Some m) p) = EmptyString.
Proof.
  rewrite closeModal_eq. simpl. destruct (lastFocus p) as [t|]; [|done].
  destruct (focus_is_function t); [|done].
  destruct (focus_fields t (unmarked m p)) as (-> & -> & _). done.
Qed.

Lemma closeModal_no_trigger modal p :
  lastFocus p = None → activeElement (closeModal modal p) = activeElement p.
Proof.
  intros Hl. destruct modal as [m|]; [|done].
  rewrite closeModal_eq, Hl. done.
Qed.

(** C3: a modal opened while the focus is on [T] and then closed leaves
    the focus on [T], provided [T] has a [focus] method and the host lets
    [T] take the focus at that moment; the recorded trigger is then
    discarded, and a later close, wherever the focus has gone in between,
    does not move it. *)
Theorem C3_focus_returns_to_trigger m p T :
  activeElement p = Some T →
  focus_is_function T = true →
  takes_focus (unmarked m (openModal (Some m) p)) T = true →
  let p' := closeModal (Some m) (openModal (Some m) p) in
  activeElement p' = Some T
  ∧ lastFocus p' = None
  ∧ ∀ modal a,
      activeElement (closeModal modal (set_activeElement a p')) = a.
Proof.
  intros HT Hfn Htakes p'. assert (lastFocus p' = None) as Hnone by done.
  split; [|split; [done|]].
  - unfold p'. rewrite closeModal_eq, openModal_lastFocus, HT, Hfn.
    simpl. by apply focus_active.
  - intros modal a. by rewrite closeModal_no_trigger.
Qed.

(** *** Closing a modal that is closed *)

Lemma unmarked_document m p :
  document (unmarked m p)
  = update_node m (set_attr "aria-hidden" "true" ∘ remove_class "is_open")
                (document p).
Proof. simpl. by apply update_node_compose. Qed.

(** C9, amended: closing a modal that is closed is a no-op exactly when
    its [aria-hidden] is already ["true"], the body's overflow is already
    empty and no trigger is recorded.  After a close all three hold: a
    second close in a row changes nothing. *)
Theorem C9_close_when_closed m p :
  unique_ids (document p) →
  is_Some (deref p m) →
  is_open p m = false →
  (closeModal (Some m) p = p
   ↔ aria_hidden p m = Some "true"
     ∧ body_overflow p = EmptyString ∧ lastFocus p = None)
  ∧ closeModal (Some m) (closeModal (Some m) p) = closeModal (Some m) p.
Proof.
  intros Hu [n0 Hn0] Hclosed.
  unfold is_open in Hclosed. rewrite Hn0 in Hclosed. simpl in Hclosed.
  apply bool_decide_eq_false in Hclosed.
  assert (aria_hidden p m = getAttribute (node_el n0) "aria-hidden") as ->
    by (unfold aria_hidden; by rewrite Hn0).
  pose proof (unique_referent _ _ _ Hu Hn0) as Hone.
  split.
  - split.
    + intros Heq.
      assert (lastFocus p = None) as Hl by by rewrite <- Heq.
      rewrite closeModal_eq, Hl in Heq.
      assert (body_overflow p = EmptyString) as Ho by by rewrite <- Heq.
      split; [|done].
      assert (document (unmarked m p) = document p) as Hd
        by by rewrite <- Heq at 2.
      rewrite unmarked_document in Hd.
      apply head_filter_Some in Hn0 as [Hin Hm].
      pose proof (proj1 (update_node_fixed _ _ _) Hd n0 Hin Hm) as Hfix.
      simpl in Hfix. rewrite remove_absent_class in Hfix by done.
      by apply set_attr_fixed.
    + intros (Ha & Ho & Hl). rewrite closeModal_eq, Hl.
      apply Page_eq; try done. simpl.
      change (document (unmarked m p) = document p).
      rewrite unmarked_document. apply update_node_fixed.
      intros n Hn Hm. rewrite (Hone n Hn Hm). simpl.
      rewrite remove_absent_class by done. by apply set_attr_fixed.
  - rewrite (closeModal_eq m (closeModal _ _)).
    rewrite closeModal_lastFocus by done.
    destruct (closeModal_fields m p) as [Hd Ho].
    apply Page_eq; [|by rewrite Ho|done|done].
    change (document (unmarked m (closeModal (Some m) p))
            = document (closeModal (Some m) p)).
    rewrite unmarked_document, Hd, unmarked_document.
    apply update_node_idemp; [done|]. intros el. apply unmark_twice.
Qed.

(** *** The focus trap *)

(** C2: while a modal is open and its focusable sequence is [A :: rest]
    with last element [Z], Tab on [Z] calls [A.focus()] and Shift+Tab on
    [A] calls [Z.focus()], the default action being prevented; the focus is
    then on that element as soon as the host lets it take the focus.  On
    every other key event, among them Tab on an interior element, the
    listener changes nothing and prevents nothing. *)
Theorem C2_focus_cycle e p modal A rest :
  qs open_modal (document p) = Some modal →
  getFocusable p modal = A :: rest →
  let Z := List.last (A :: rest) A in
  (key e = "Tab" → shiftKey e = false → activeElement p = Some (ref Z) →
     focusTrap e p = (focus (ref A) p, true)
     ∧ (takes_focus p (ref A) = true →
        activeElement (focusTrap e p).1 = Some (ref A)))
  ∧ (key e = "Tab" → shiftKey e = true → activeElement p = Some (ref A) →
     focusTrap e p = (focus (ref Z) p, true)
     ∧ (takes_focus p (ref Z) = true →
        activeElement (focusTrap e p).1 = Some (ref Z)))
  ∧ (¬ (key e = "Tab" ∧ shiftKey e = false
        ∧ activeElement p = Some (ref Z)) →
     ¬ (key e = "Tab" ∧ shiftKey e = true
        ∧ activeElement p = Some (ref A)) →
     focusTrap e p = (p, false)).
Proof.
  intros Hopen Hfoc Z. unfold Modals.focusTrap. rewrite Hopen, Hfoc.
  fold Z. split; [|split].
  - intros Hk Hs Ha. rewrite Hk, Hs, Ha. simpl.
    rewrite bool_decide_true by done. simpl.
    split; [done|]. apply focus_active.
  - intros Hk Hs Ha. rewrite Hk, Hs, Ha. simpl.
    rewrite bool_decide_true by done. simpl.
    split; [done|]. apply focus_active.
  - intros H1 H2. case_bool_decide as Hk; simpl; [|done].
    destruct (shiftKey e); simpl.
    + rewrite bool_decide_false; [done|]. intros Ha. by apply H2.
    + rewrite bool_decide_false; [done|]. intros Ha. by apply H1.
Qed.

(** *** The focusable set *)

(** C4, amended: [getFocusable] returns, in document order, exactly the
    elements below the container that are links with a destination,
    controls without a [disabled] attribute, or elements with a [tabindex]
    attribute other than the string ["-1"], and whose [offsetParent] is not
    null.  An element with [tabindex="-1"] is returned only when it is
    such a link or control. *)
Theorem C4_focusable_set p root :
  getFocusable p root
  = filter (λ n, selected_kind (node_el n) = true
                 ∧ offsetParent p (ref n) ≠ None)
           (descendants root)
  ∧ (∀ n, n ∈ getFocusable p root ↔
          n ∈ descendants root
          ∧ (link_with_destination (node_el n) = true
             ∨ enabled_control (node_el n) = true
             ∨ tabindex_other_than_minus_one (node_el n) = true)
          ∧ offsetParent p (ref n) ≠ None)
  ∧ (∀ n, n ∈ getFocusable p root →
          getAttribute (node_el n) "tabindex" = Some "-1" →
          link_with_destination (node_el n) = true
          ∨ enabled_control (node_el n) = true).
Proof.
  clear focus_is_function takes_focus.
  assert (getFocusable p root
          = filter (λ n, selected_kind (node_el n) = true
                         ∧ offsetParent p (ref n) ≠ None)
                   (descendants root)) as Heq.
  { unfold Modals.getFocusable, qsa. rewrite list_filter_filter.
    apply list_filter_iff. intros n. rewrite matches_selectors. tauto. }
  assert (∀ n, n ∈ getFocusable p root ↔
               n ∈ descendants root
               ∧ (link_with_destination (node_el n) = true
                  ∨ enabled_control (node_el n) = true
                  ∨ tabindex_other_than_minus_one (node_el n) = true)
               ∧ offsetParent p (ref n) ≠ None) as Hin.
  { intros n. rewrite Heq, list_elem_of_filter. unfold selected_kind.
    rewrite !orb_true_iff. tauto. }
  split; [done|split; [done|]].
  intros n (_ & [Hl|[Hc|Ht]] & _)%Hin Hm1; [by left|by right|].
  unfold tabindex_other_than_minus_one in Ht. rewrite Hm1 in Ht.
  rewrite (bool_decide_true (Some _ = Some _)) in Ht by done.
  by rewrite andb_false_r in Ht.
Qed.
End WithHost.

Import Examples.

(** The first dialog of the example page, opened: its focusable sequence
    runs from the close button 3 to the plain button 7. *)
Lemma C2_focus_cycle_witness :
  let p := openModal laid_out focus_works (Some 2) page0 in
  let tab := {| key := "Tab"; shiftKey := false |} in
  let back := {| key := "Tab"; shiftKey := true |} in
  activeElement (focusTrap laid_out focus_works tab
                   (set_activeElement (Some 7) p)).1 = Some 3
  ∧ activeElement (focusTrap laid_out focus_works back p).1 = Some 7
  ∧ focusTrap laid_out focus_works tab (set_activeElement (Some 4) p)
    = (set_activeElement (Some 4) p, false).
Proof.
  intros p tab back.
  assert (∃ modal rest, ∀ a,
    qs open_modal (document (set_activeElement a p)) = Some modal
    ∧ getFocusable laid_out (set_activeElement a p) modal
      = mkNode (el 3 "button" [("data_modal_close", EmptyString)] []) [] :: rest
    ∧ ref (List.last
             (mkNode (el 3 "button" [("data_modal_close", EmptyString)] []) [] :: rest)
             (mkNode (el 3 "button" [("data_modal_close", EmptyString)] []) [])) = 7)
    as (modal & rest & H).
  { eexists _, _. intros a. split; [|split]; vm_compute; reflexivity. }
  split; [|split].
  - destruct (H (Some 7)) as (Hq & Hf & Hz).
    apply (proj1 (C2_focus_cycle laid_out focus_works tab _ _ _ _ Hq Hf));
      try reflexivity. by rewrite Hz.
  - destruct (H (Some 3)) as (Hq & Hf & Hz). rewrite <- Hz.
    apply (proj1 (proj2 (C2_focus_cycle laid_out focus_works back _ _ _ _
                           Hq Hf))); reflexivity.
  - destruct (H (Some 4)) as (Hq & Hf & Hz).
    apply (proj2 (proj2 (C2_focus_cycle laid_out focus_works tab _ _ _ _
                           Hq Hf))).
    + rewrite Hz. intros (_ & _ & [=]).
    + intros (_ & [=] & _).
Defined.

(** Opening the first dialog from the trigger 1 and closing it. *)
Lemma C3_focus_returns_to_trigger_witness :
  let p' := closeModal has_focus focus_works (Some 2)
              (openModal laid_out focus_works (Some 2) page0) in
  activeElement (openModal laid_out focus_works (Some 2) page0) = Some 3
  ∧ activeElement p' = Some 1
  ∧ lastFocus p' = None.
Proof.
  intros p'. split; [vm_compute; reflexivity|].
  destruct (C3_focus_returns_to_trigger laid_out has_focus focus_works
              2 page0 1 eq_refl eq_refl eq_refl) as (H1 & H2 & _).
  by split.
Defined.

(** C4, as the specification words it, fails: the block with
    [tabindex="-2"] has a negative tab priority and is none of the three
    kinds of the specification, yet [getFocusable] returns it. *)
Lemma C4_counterexample :
  getFocusable laid_out page0 image_modal !! 2 = Some odd_block
  ∧ odd_block ∈ descendants image_modal
  ∧ tab_priority (node_el odd_block) = Some (-2)%Z
  ∧ negative_tab_priority (node_el odd_block) = true
  ∧ focusable_kind (node_el odd_block) = false.
Proof.
  split; [vm_compute; reflexivity|].
  split; [|repeat split; vm_compute; reflexivity].
  apply (list_elem_of_lookup_2 _ 2). vm_compute. reflexivity.
Qed.

(** C9, as the specification words it, fails: with the first dialog open,
    closing the second one, which is closed, lifts the scroll suspension and
    moves the focus to the trigger. *)
Lemma C9_counterexample :
  let p := openModal laid_out focus_works (Some 2) page0 in
  let p' := closeModal has_focus focus_works (Some 8) p in
  is_open p 8 = false ∧ is_open p 2 = true
  ∧ body_overflow p = "hidden" ∧ body_overflow p' = EmptyString
  ∧ activeElement p = Some 3 ∧ activeElement p' = Some 1
  ∧ observable p' ≠ observable p.
Proof.
  intros p p'.
  assert (body_overflow p = "hidden") as H1 by (vm_compute; reflexivity).
  assert (body_overflow p' = EmptyString) as H2 by (vm_compute; reflexivity).
  split; [vm_compute; reflexivity|]. split; [vm_compute; reflexivity|].
  split; [done|]. split; [done|].
  split; [vm_compute; reflexivity|]. split; [vm_compute; reflexivity|].
  intros Ho. apply (f_equal (λ o, o.1.2)) in Ho.
  change (body_overflow p' = body_overflow p) in Ho.
  rewrite H1, H2 in Ho. discriminate.
Qed.

(** Closing the second dialog of the example page, which is closed, and
    closing it twice in a row after it was open. *)
Lemma C9_close_when_closed_witness :
  closeModal has_focus focus_works (Some 8) page0 = page0
  ∧ closeModal has_focus focus_works (Some 8)
      (closeModal has_focus focus_works (Some 8)
         (openModal laid_out focus_works (Some 8) page0))
    = closeModal has_focus focus_works (Some 8)
        (openModal laid_out focus_works (Some 8) page0).
Proof.
  assert (unique_ids (document page0)) as Hu.
  { apply (bool_decide_unpack _). vm_compute. exact I. }
  assert (is_Some (deref page0 8)) as Hs.
  { eexists. vm_compute. reflexivity. }
  split.
  - apply (proj1 (C9_close_when_closed has_focus focus_works 8 page0
                    Hu Hs eq_refl)).
    repeat split; vm_compute; reflexivity.
  - set (p := closeModal has_focus focus_works (Some 8)
                (openModal laid_out focus_works (Some 8) page0)).
    assert (unique_ids (document p)) as Hu'.
    { apply (bool_decide_unpack _). vm_compute. exact I. }
    assert (is_Some (deref p 8)) as Hs'.
    { eexists. vm_compute. reflexivity. }
    apply (proj1 (C9_close_when_closed has_focus focus_works 8 p
                    Hu' Hs' eq_refl)).
    repeat split; vm_compute; reflexivity.
Defined.

End ModalsFacts.

(** ** Reads after writes in a document *)

Module DomMoreFacts.
Import JS Dom DomMore DomFacts.

Lemma ref_update m f n :
  (∀ el, node_id (f el) = node_id el) → ref (update_node m f n) = ref n.
Proof.
  intros Hf. destruct n as [el kids]. unfold ref. simpl.
  by destruct (decide (node_id el = m)).
Qed.

Lemma node_el_update m f n :
  node_el (update_node m f n)
  = if decide (ref n = m) then f (node_el n) else node_el n.
Proof. by destruct n. Qed.

Lemma all_nodes_update m f doc :
  all_nodes (update_node m f doc) = update_node m f <$> all_nodes doc.
Proof.
  induction doc as [el kids IH] using Node_induction.
  change (update_node m f (mkNode el kids))
    with (mkNode (if decide (node_id el = m) then f el else el)
                 (map (update_node m f) kids)) at 1.
  rewrite !all_nodes_eq, fmap_cons. f_equal.
  induction kids as [|k kids IHk]; [done|].
  apply Forall_cons in IH as [Hk IH].
  change (map (update_node m f) (k :: kids))
    with (update_node m f k :: map (update_node m f) kids).
  rewrite !bind_cons, fmap_app, Hk. f_equal. by apply IHk.
Qed.

Lemma refs_update m f doc :
  (∀ el, node_id (f el) = node_id el) →
  ref <$> all_nodes (update_node m f doc) = ref <$> all_nodes doc.
Proof.
  intros Hf. rewrite all_nodes_update, <- list_fmap_compose.
  apply list_fmap_ext. intros _ n _. by apply ref_update.
Qed.

Lemma head_filter_fmap {A B} (P : B → Prop) `{!∀ x, Decision (P x)}
    (Q : A → Prop) `{!∀ x, Decision (Q x)} (g : A → B) l :
  (∀ x, P (g x) ↔ Q x) →
  head (filter P (g <$> l)) = g <$> head (filter Q l).
Proof.
  intros HPQ. induction l as [|x l IH]; [done|].
  rewrite fmap_cons, !filter_cons.
  destruct (decide (Q x)) as [Hq|Hq].
  - by rewrite decide_True by by apply HPQ.
  - by rewrite decide_False by by rewrite HPQ.
Qed.

Lemma node_at_update m f doc i :
  (∀ el, node_id (f el) = node_id el) →
  node_at (update_node m f doc) i = update_node m f <$> node_at doc i.
Proof.
  intros Hf. unfold node_at. rewrite all_nodes_update.
  apply head_filter_fmap. intros n. by rewrite ref_update.
Qed.

Lemma node_at_ref doc i n : node_at doc i = Some n → ref n = i ∧ n ∈ all_nodes doc.
Proof. intros [? ?]%head_filter_Some. done. Qed.

Lemma node_at_is_Some doc n : n ∈ all_nodes doc → is_Some (node_at doc (ref n)).
Proof.
  intros Hn. unfold node_at.
  destruct (filter (λ x, ref x = ref n) (all_nodes doc)) as [|x l] eqn:E.
  - assert (n ∈ filter (λ x, ref x = ref n) (all_nodes doc)) as Hin
      by by apply list_elem_of_filter.
    rewrite E in Hin. by apply elem_of_nil in Hin.
  - by eexists.
Qed.

(** A write through [m] is seen by a read through [i] exactly when [i] is
    [m]. *)
Lemma element_at_update m f doc i :
  (∀ el, node_id (f el) = node_id el) →
  element_at (update_node m f doc) i
  = (λ el, if decide (i = m) then f el else el) <$> element_at doc i.
Proof.
  intros Hf. unfold element_at. rewrite node_at_update by done.
  destruct (node_at doc i) as [n|] eqn:Hn; [|done]. simpl. f_equal.
  apply node_at_ref in Hn as [<- _]. apply node_el_update.
Qed.

Lemma contains_update m f doc a t :
  (∀ el, node_id (f el) = node_id el) →
  contains (update_node m f doc) a t = contains doc a t.
Proof.
  intros Hf. unfold contains. rewrite node_at_update by done.
  destruct (node_at doc a) as [n|]; [|done].
  change (bool_decide (t ∈ ref <$> all_nodes (update_node m f n))
          = bool_decide (t ∈ ref <$> all_nodes n)).
  by rewrite refs_update.
Qed.

Lemma descendants_update m f doc :
  descendants (update_node m f doc) = update_node m f <$> descendants doc.
Proof.
  pose proof (all_nodes_update m f doc) as H. unfold all_nodes in H.
  rewrite fmap_cons in H. by injection H.
Qed.

(** The chain to an element consists of elements of the document that
    contain it. *)
Lemma path_to_eq i el kids :
  path_to i (mkNode el kids)
  = if decide (node_id el = i) then [mkNode el kids]
    else match first_nonempty (path_to i) kids with
         | [] => []
         | p => p ++ [mkNode el kids]
         end.
Proof. reflexivity. Qed.

Lemma path_to_spec i doc :
  (∀ n, n ∈ path_to i doc → n ∈ all_nodes doc ∧ i ∈ ref <$> all_nodes n)
  ∧ (path_to i doc ≠ [] → i ∈ ref <$> all_nodes doc).
Proof.
  induction doc as [el kids IH] using Node_induction.
  assert (ref (mkNode el kids) = node_id el) as Href by done.
  rewrite path_to_eq. destruct (decide (node_id el = i)) as [Hi|Hi].
  { split.
    - intros n ->%list_elem_of_singleton. split; [left|].
      rewrite all_nodes_eq, fmap_cons, Href, Hi. left.
    - intros _. rewrite all_nodes_eq, fmap_cons, Href, Hi. left. }
  assert ((∀ n, n ∈ first_nonempty (path_to i) kids →
                n ∈ (kids ≫= all_nodes) ∧ i ∈ ref <$> all_nodes n)
          ∧ (first_nonempty (path_to i) kids ≠ [] →
             i ∈ ref <$> (kids ≫= all_nodes))) as [H1 H2].
  { clear Hi Href. induction kids as [|k kids IHk].
    - split; [by intros n ?%elem_of_nil|done].
    - apply Forall_cons in IH as [[Hk1 Hk2] IH].
      destruct (IHk IH) as [Hr1 Hr2]. rewrite bind_cons.
      change (first_nonempty (path_to i) (k :: kids))
        with (match path_to i k with
              | [] => first_nonempty (path_to i) kids
              | p => p
              end).
      destruct (path_to i k) as [|x p] eqn:Ep.
      + split.
        * intros n [? ?]%Hr1. split; [|done]. apply elem_of_app. by right.
        * intros ?%Hr2. rewrite fmap_app. apply elem_of_app. by right.
      + split.
        * intros n [? ?]%Hk1. split; [|done]. apply elem_of_app. by left.
        * intros _. rewrite fmap_app. apply elem_of_app. left. by apply Hk2. }
  destruct (first_nonempty (path_to i) kids) as [|x p] eqn:Eg.
  - split; [by intros n ?%elem_of_nil|done].
  - assert (i ∈ ref <$> all_nodes (mkNode el kids)) as Hroot.
    { rewrite all_nodes_eq, fmap_cons. right. by apply H2. }
    split; [|done]. intros n [Hn| ->%list_elem_of_singleton]%elem_of_app.
    + destruct (H1 n Hn) as [? ?]. split; [|done].
      rewrite all_nodes_eq. by right.
    + split; [left|done].
Qed.

End DomMoreFacts.

(** ** More on the modals *)

Module ModalsMoreFacts.
Import JS Dom DomMore Modals ModalsMore DomFacts DomMoreFacts ModalsFacts.

Lemma is_open_has_class p m : is_open p m = has_class (document p) m "is_open".
Proof.
  unfold is_open, has_class, element_at, deref, node_at.
  by destruct (head _).
Qed.

Lemma aria_hidden_attribute_at p m :
  aria_hidden p m = attribute_at (document p) m "aria-hidden".
Proof.
  unfold aria_hidden, attribute_at, element_at, deref, node_at.
  by destruct (head _).
Qed.

Lemma marked_id el :
  node_id ((set_attr "aria-hidden" "false" ∘ add_class "is_open") el)
  = node_id el.
Proof. done. Qed.

Lemma unmarked_id el :
  node_id ((set_attr "aria-hidden" "true" ∘ remove_class "is_open") el)
  = node_id el.
Proof. done. Qed.

(** A modal that was unmarked no longer matches [".modal.is_open"]. *)
Lemma unmarked_not_open el :
  matches open_modal
    ((set_attr "aria-hidden" "true" ∘ remove_class "is_open") el) = false.
Proof.
  unfold matches, open_modal. simpl.
  rewrite (bool_decide_false ("is_open" ∈ _)).
  - by rewrite andb_false_r.
  - apply not_elem_of_difference. right. by apply elem_of_singleton.
Qed.

Lemma open_refs_update m (l : list Node) :
  ref <$> filter (λ n, matches open_modal (node_el n) = true)
            (update_node m
               (set_attr "aria-hidden" "true" ∘ remove_class "is_open")
             <$> l)
  = filter (λ i, i ≠ m)
      (ref <$> filter (λ n, matches open_modal (node_el n) = true) l).
Proof.
  induction l as [|n l IH]; [done|].
  rewrite fmap_cons, !filter_cons, node_el_update.
  destruct (decide (ref n = m)) as [Hm|Hm].
  - rewrite unmarked_not_open.
    rewrite decide_False by done.
    destruct (decide (matches open_modal (node_el n) = true)); [|done].
    rewrite fmap_cons, filter_cons_False by (simpl; tauto). done.
  - destruct (decide (matches open_modal (node_el n) = true)); [|done].
    rewrite !fmap_cons, filter_cons_True, ref_update by done.
    by rewrite IH.
Qed.

Lemma elem_of_removelast {A} (l : list A) x : x ∈ removelast l → x ∈ l.
Proof.
  induction l as [|y l IH]; [done|]. destruct l as [|z l].
  - by intros ?%elem_of_nil.
  - change (removelast (y :: z :: l)) with (y :: removelast (z :: l)).
    intros [->|?]%elem_of_cons; [left|right; by apply IH].
Qed.

Lemma unique_open_modals p : unique_ids (document p) → NoDup (open_modals p).
Proof.
  unfold unique_ids, all_nodes, open_modals, qsa. rewrite fmap_cons.
  intros [_ Hd]%NoDup_cons. eapply sublist_NoDup; [done|].
  apply fmap_sublist, sublist_filter.
Qed.

Section WithHost.
Variable offsetParent : Page → nat → option nat.
Variable focus_is_function : nat → bool.
Variable takes_focus : Page → nat → bool.

Abbreviation getFocusable := (getFocusable offsetParent).
Abbreviation focus := (focus takes_focus).
Abbreviation openModal := (openModal offsetParent takes_focus).
Abbreviation closeModal := (closeModal focus_is_function takes_focus).
Abbreviation onEscape := (onEscape focus_is_function takes_focus).
Abbreviation siteCloseModal := (siteCloseModal focus_is_function takes_focus).
Abbreviation closeControlClick :=
  (closeControlClick focus_is_function takes_focus).

Lemma openModal_fields m p :
  document (openModal (Some m) p)
  = update_node m (set_attr "aria-hidden" "false" ∘ add_class "is_open")
                (document p)
  ∧ body_overflow (openModal (Some m) p) = "hidden"
  ∧ lastFocus (openModal (Some m) p) = activeElement p.
Proof.
  unfold Modals.openModal.
  match goal with |- context [from_option ?f ?d ?o] =>
    destruct (from_option f d o) as [|first ?] end.
  - split; [|done]. simpl. by apply update_node_compose.
  - destruct (focus_fields takes_focus (ref first)
      (set_body_overflow "hidden"
         (setAttribute m "aria-hidden" "false"
            (classList_add m "is_open"
               (set_lastFocus (activeElement p) p))))) as (-> & -> & ->).
    split; [|done]. simpl. by apply update_node_compose.
Qed.

Lemma closeModal_document m p :
  document (closeModal (Some m) p)
  = update_node m (set_attr "aria-hidden" "true" ∘ remove_class "is_open")
                (document p)
  ∧ body_overflow (closeModal (Some m) p) = EmptyString.
Proof.
  destruct (closeModal_fields focus_is_function takes_focus m p) as [-> ->].
  split; [|done]. apply unmarked_document.
Qed.

Lemma element_at_open m p i :
  element_at (document (openModal (Some m) p)) i
  = (λ el, if decide (i = m)
           then (set_attr "aria-hidden" "false" ∘ add_class "is_open") el
           else el) <$> element_at (document p) i.
Proof.
  destruct (openModal_fields m p) as (-> & _ & _).
  by apply element_at_update.
Qed.

Lemma element_at_close m p i :
  element_at (document (closeModal (Some m) p)) i
  = (λ el, if decide (i = m)
           then (set_attr "aria-hidden" "true" ∘ remove_class "is_open") el
           else el) <$> element_at (document p) i.
Proof.
  destruct (closeModal_document m p) as (-> & _).
  by apply element_at_update.
Qed.

(** X1: opening a modal of the document marks it open, visible to
    assistive technology, and suspends the scroll; closing it undoes the
    three; neither touches the marks of any other modal. *)
Theorem X1_open_and_close_mark_one_modal m p :
  is_Some (deref p m) →
  (is_open (openModal (Some m) p) m = true
   ∧ aria_hidden (openModal (Some m) p) m = Some "false"
   ∧ body_overflow (openModal (Some m) p) = "hidden")
  ∧ (is_open (closeModal (Some m) p) m = false
     ∧ aria_hidden (closeModal (Some m) p) m = Some "true"
     ∧ body_overflow (closeModal (Some m) p) = EmptyString)
  ∧ ∀ m', m' ≠ m →
      is_open (openModal (Some m) p) m' = is_open p m'
      ∧ aria_hidden (openModal (Some m) p) m' = aria_hidden p m'
      ∧ is_open (closeModal (Some m) p) m' = is_open p m'
      ∧ aria_hidden (closeModal (Some m) p) m' = aria_hidden p m'.
Proof.
  intros [n Hn].
  destruct (openModal_fields m p) as (Hdo & Hoo & _).
  destruct (closeModal_document m p) as (Hdc & Hoc).
  assert (element_at (document p) m = Some (node_el n)) as Hel
    by (unfold element_at;
        change (node_at (document p) m) with (deref p m); by rewrite Hn).
  rewrite !is_open_has_class, !aria_hidden_attribute_at.
  unfold has_class, attribute_at. rewrite Hdo, Hdc.
  rewrite !element_at_update by done. split; [|split].
  - rewrite Hel. simpl. rewrite decide_True by done. simpl.
    split; [|split; [|done]].
    + apply bool_decide_eq_true. apply elem_of_union. left.
      by apply elem_of_singleton.
    + unfold getAttribute. simpl. apply lookup_insert_eq.
  - rewrite Hel. simpl. rewrite decide_True by done. simpl.
    split; [|split; [|done]].
    + apply bool_decide_eq_false, not_elem_of_difference. right.
      by apply elem_of_singleton.
    + unfold getAttribute. simpl. apply lookup_insert_eq.
  - intros m' Hm'. rewrite !is_open_has_class, !aria_hidden_attribute_at.
    unfold has_class, attribute_at. rewrite Hdo, Hdc.
    rewrite !element_at_update by done.
    destruct (element_at (document p) m') as [el'|]; [|done]. simpl.
    by rewrite !decide_False by done.
Qed.

(** X2: opening a closed modal and closing it again gives back the page
    as it was: the document, the scroll, the focus on the trigger and the
    empty record of the trigger. *)
Theorem X2_open_then_close_restores_the_page m p T :
  unique_ids (document p) →
  is_Some (deref p m) →
  is_open p m = false →
  aria_hidden p m = Some "true" →
  body_overflow p = EmptyString →
  lastFocus p = None →
  activeElement p = Some T →
  focus_is_function T = true →
  takes_focus (unmarked m (openModal (Some m) p)) T = true →
  closeModal (Some m) (openModal (Some m) p) = p.
Proof.
  intros Hu [n0 Hn0] Hclosed Haria Ho Hl HT Hfn Htakes.
  destruct (openModal_fields m p) as (Hdo & _ & _).
  destruct (closeModal_document m (openModal (Some m) p)) as (Hdc & Hoc).
  apply Page_eq.
  - rewrite Hdc, Hdo, update_node_compose by done.
    apply update_node_fixed. intros n Hn Hm.
    rewrite (unique_referent _ _ _ Hu Hn0 n Hn Hm).
    unfold is_open in Hclosed. unfold aria_hidden in Haria.
    rewrite Hn0 in Hclosed, Haria. simpl in Hclosed, Haria.
    apply bool_decide_eq_false in Hclosed.
    destruct (node_el n0) as [i tag attrs cls txt].
    unfold getAttribute in Haria. simpl in *.
    unfold set_attr, remove_class, add_class. simpl. f_equal.
    + rewrite insert_insert_eq. by apply insert_id.
    + apply leibniz_equiv. intros x.
      rewrite elem_of_difference, elem_of_union, !elem_of_singleton.
      split; [intros [[->|?] ?]; done|]. intros Hx. split; [by right|].
      by intros ->.
  - by rewrite Hoc, Ho.
  - rewrite closeModal_eq, openModal_lastFocus, HT, Hfn. simpl.
    by apply focus_active.
  - by rewrite Hl.
Qed.

(** X3: Escape closes the first open modal in document order and leaves
    every other open modal open; another key, or Escape with no modal
    open, changes nothing.  [window.__siteCloseModal] does what Escape
    does. *)
Theorem X3_escape_closes_the_first_open_modal e p :
  unique_ids (document p) →
  (key e ≠ "Escape" → onEscape e p = p)
  ∧ (open_modals p = [] → onEscape e p = p ∧ siteCloseModal p = p)
  ∧ (∀ m rest, key e = "Escape" → open_modals p = m :: rest →
       onEscape e p = closeModal (Some m) p
       ∧ siteCloseModal p = closeModal (Some m) p
       ∧ open_modals (onEscape e p) = rest).
Proof.
  clear offsetParent.
  intros Hu. unfold Modals.onEscape, ModalsMore.siteCloseModal, qs.
  split; [|split].
  - intros Hk. by rewrite bool_decide_false.
  - unfold open_modals. intros Hnil%fmap_nil_inv. rewrite Hnil. simpl.
    split; [|done]. by destruct (negb _).
  - intros m rest Hk Hopen. pose proof (unique_open_modals p Hu) as Hnd.
    rewrite Hopen in Hnd. apply NoDup_cons in Hnd as [Hm _].
    assert (open_modals (closeModal (Some m) p) = rest) as Hrest.
    { unfold open_modals, qsa in *.
      destruct (closeModal_document m p) as (-> & _).
      rewrite descendants_update, open_refs_update, Hopen.
      rewrite filter_cons_False by tauto.
      apply SortFacts.filter_all, Forall_forall. intros x Hx ->. done. }
    unfold open_modals in Hopen.
    destruct (qsa open_modal (document p)) as [|first l] eqn:Eq; [done|].
    rewrite fmap_cons in Hopen. injection Hopen as Hf Hr.
    rewrite bool_decide_true by done. simpl. by rewrite Hf.
Qed.

(** X4: only one trigger is remembered.  When a second modal is opened
    while a first one is open and both are closed again, closing the
    second lifts the scroll suspension although the first is still open,
    and gives the focus back to the element that had it when the second
    was opened; closing the first then moves no focus, so the trigger of
    the first modal does not get the focus back. *)
Theorem X4_second_modal_overwrites_the_trigger a b p x :
  a ≠ b →
  is_Some (deref p a) →
  let p1 := openModal (Some a) p in
  let p2 := openModal (Some b) p1 in
  let p3 := closeModal (Some b) p2 in
  let p4 := closeModal (Some a) p3 in
  lastFocus p2 = activeElement p1
  ∧ is_open p3 a = true ∧ body_overflow p3 = EmptyString
  ∧ activeElement p4 = activeElement p3
  ∧ (activeElement p1 = Some x → focus_is_function x = true →
     takes_focus (unmarked b p2) x = true → activeElement p4 = Some x).
Proof.
  intros Hab Ha p1 p2 p3 p4.
  assert (lastFocus p2 = activeElement p1) as H2
    by apply openModal_lastFocus.
  assert (activeElement p4 = activeElement p3) as H4
    by (apply closeModal_no_trigger; by apply closeModal_lastFocus).
  split; [done|]. split; [|split; [|split; [done|]]].
  - rewrite is_open_has_class. unfold has_class, p3, p2, p1.
    rewrite element_at_close, !element_at_open.
    destruct Ha as [n Hn]. unfold element_at.
    change (node_at (document p) a) with (deref p a). rewrite Hn. simpl.
    rewrite !(decide_False (P := a = b)) by done.
    rewrite (decide_True (P := a = a)) by done. simpl.
    apply bool_decide_eq_true, elem_of_union. left.
    by apply elem_of_singleton.
  - apply closeModal_document.
  - intros Hx Hfn Htakes. rewrite H4. unfold p3.
    rewrite closeModal_eq, H2, Hx, Hfn. simpl. by apply focus_active.
Qed.

(** X5: a click on a close control closes the nearest element around it
    that has the class [modal], which is an element of the document that
    contains the control; a control with no such element around it changes
    nothing. *)
Theorem X5_close_control_closes_the_modal_around_it el p :
  (closest modal_class (document p) el = None → closeControlClick el p = p)
  ∧ (∀ n, closest modal_class (document p) el = Some n →
       n ∈ all_nodes (document p)
       ∧ "modal" ∈ classList (node_el n)
       ∧ el ∈ ref <$> all_nodes n
       ∧ closeControlClick el p = closeModal (Some (ref n)) p
       ∧ is_open (closeControlClick el p) (ref n) = false
       ∧ body_overflow (closeControlClick el p) = EmptyString).
Proof.
  unfold ModalsMore.closeControlClick. split; [by intros ->|].
  intros n Hn. rewrite Hn. change (ref <$> Some n) with (Some (ref n)).
  apply head_filter_Some in Hn as [Hin Hmatch].
  assert (n ∈ path_to el (document p)) as Hpath.
  { by apply elem_of_removelast. }
  destruct (proj1 (path_to_spec el (document p)) n Hpath) as [Hdoc Hcont].
  split; [done|]. split.
  { unfold matches, modal_class in Hmatch. simpl in Hmatch.
    rewrite orb_false_r, andb_true_r in Hmatch.
    by apply bool_decide_eq_true in Hmatch. }
  split; [done|]. split; [done|]. split; [|apply closeModal_document].
  rewrite is_open_has_class. unfold has_class.
  rewrite element_at_close.
  destruct (node_at_is_Some _ _ Hdoc) as [n' Hn'].
  unfold element_at. rewrite Hn'. simpl. rewrite decide_True by done.
  simpl. apply bool_decide_eq_false, not_elem_of_difference. right.
  by apply elem_of_singleton.
Qed.
End WithHost.

Import Examples.

Lemma page0_unique : unique_ids (document page0).
Proof. apply (bool_decide_unpack _). vm_compute. exact I. Qed.

(** The first dialog of the example page is opened, then closed. *)
Lemma X1_open_and_close_mark_one_modal_witness :
  is_open (openModal laid_out focus_works (Some 2) page0) 2 = true
  ∧ is_open (openModal laid_out focus_works (Some 2) page0) 8 = false
  ∧ is_open (closeModal has_focus focus_works (Some 2) page0) 2 = false.
Proof.
  assert (is_Some (deref page0 2)) as Hs by (eexists; vm_compute; reflexivity).
  destruct (X1_open_and_close_mark_one_modal laid_out has_focus focus_works
              2 page0 Hs) as ((H1 & _) & (H2 & _) & H3).
  split; [done|]. split; [|done].
  destruct (H3 8) as (-> & _); [done|]. vm_compute. reflexivity.
Defined.

Lemma X2_open_then_close_restores_the_page_witness :
  closeModal has_focus focus_works (Some 2)
    (openModal laid_out focus_works (Some 2) page0) = page0.
Proof.
  apply (X2_open_then_close_restores_the_page laid_out has_focus focus_works
           2 page0 1); try reflexivity.
  - apply page0_unique.
  - eexists. vm_compute. reflexivity.
Defined.

(** Escape on the example page with its first dialog open. *)
Lemma X3_escape_closes_the_first_open_modal_witness :
  let p := openModal laid_out focus_works (Some 2) page0 in
  open_modals p = [2]
  ∧ open_modals
      (onEscape has_focus focus_works {| key := "Escape"; shiftKey := false |} p)
    = [].
Proof.
  intros p. split; [vm_compute; reflexivity|].
  assert (unique_ids (document p)) as Hu
    by (apply (bool_decide_unpack _); vm_compute; exact I).
  apply (proj2 (proj2 (X3_escape_closes_the_first_open_modal
                         has_focus focus_works
                         {| key := "Escape"; shiftKey := false |} p Hu))
           2 [] eq_refl).
  vm_compute. reflexivity.
Defined.

(** Both dialogs of the example page, opened one after the other from the
    trigger 1: in the end the focus is on the close button 3 of the first
    dialog. *)
Lemma X4_second_modal_overwrites_the_trigger_witness :
  let p1 := openModal laid_out focus_works (Some 2) page0 in
  let p4 := closeModal has_focus focus_works (Some 2)
              (closeModal has_focus focus_works (Some 8)
                 (openModal laid_out focus_works (Some 8) p1)) in
  activeElement page0 = Some 1 ∧ activeElement p4 = Some 3.
Proof.
  intros p1 p4. split; [reflexivity|].
  assert (is_Some (deref page0 2)) as Hs by (eexists; vm_compute; reflexivity).
  apply (X4_second_modal_overwrites_the_trigger laid_out has_focus focus_works
           2 8 page0 3); [done|done| |reflexivity|reflexivity].
  vm_compute. reflexivity.
Defined.

(** The close button 3 of the first dialog of the example page. *)
Lemma X5_close_control_closes_the_modal_around_it_witness :
  let p := openModal laid_out focus_works (Some 2) page0 in
  is_open p 2 = true
  ∧ is_open (closeControlClick has_focus focus_works 3 p) 2 = false.
Proof.
  intros p. split; [vm_compute; reflexivity|].
  assert (∃ n, closest modal_class (document p) 3 = Some n ∧ ref n = 2)
    as (n & Hn & Hr) by (eexists; split; vm_compute; reflexivity).
  destruct (proj2 (X5_close_control_closes_the_modal_around_it
                     has_focus focus_works 3 p) n Hn)
    as (_ & _ & _ & _ & H & _).
  by rewrite Hr in H.
Defined.

End ModalsMoreFacts.

(** ** [apply], run after run *)

Module LiveGridFacts.
Import JS Dom Projects LiveGrid SortFacts ProjectsFacts DomFacts.
Import DomMoreFacts.

Lemma DomNode_induction (P : DomNode → Prop) :
  (∀ s, P (TextNode s)) →
  (∀ el kids, Forall P kids → P (ElementNode el kids)) →
  ∀ n, P n.
Proof.
  intros Ht He. fix IH 1. intros [s|el kids]; [apply Ht|].
  apply He. induction kids as [|k kids IHk]; constructor; [apply IH|done].
Qed.

(** The equations of the recursive definitions. *)
Lemma elements_in_cons k ns :
  elements_in (k :: ns) = elements_of k ++ elements_in ns.
Proof. apply bind_cons. Qed.

Lemma elements_of_eq el kids :
  elements_of (ElementNode el kids) = (el, kids) :: elements_in kids.
Proof.
  reflexivity.
Qed.

Lemma elements_in_app ns1 ns2 :
  elements_in (ns1 ++ ns2) = elements_in ns1 ++ elements_in ns2.
Proof. apply bind_app. Qed.

Lemma remove_eq i el kids :
  remove i (ElementNode el kids)
  = if decide (node_id el = i) then []
    else [ElementNode el (remove_in i kids)].
Proof.
  reflexivity.
Qed.

Lemma remove_in_cons i k ns :
  remove_in i (k :: ns) = remove i k ++ remove_in i ns.
Proof. apply bind_cons. Qed.

Lemma ids_cons k ns : ids (k :: ns) = ids [k] ++ ids ns.
Proof.
  unfold ids. rewrite !elements_in_cons, !fmap_app.
  unfold elements_in. simpl. by rewrite app_nil_r.
Qed.

Lemma ids_app ns1 ns2 : ids (ns1 ++ ns2) = ids ns1 ++ ids ns2.
Proof. unfold ids. by rewrite elements_in_app, fmap_app. Qed.

Lemma ids_element el kids :
  ids [ElementNode el kids] = node_id el :: ids kids.
Proof.
  unfold ids. rewrite elements_in_cons, elements_of_eq.
  unfold elements_in at 2. simpl. by rewrite app_nil_r.
Qed.

Lemma ids_text s : ids [TextNode s] = [].
Proof. done. Qed.

Lemma elem_of_ids x ns : x ∈ ids ns ↔ ∃ e, e ∈ elements_in ns ∧ ref_of e = x.
Proof.
  unfold ids. rewrite list_elem_of_fmap. split; intros (e & ? & ?); eauto.
Qed.

Lemma elem_of_elements_in e ns :
  e ∈ elements_in ns ↔ ∃ k, k ∈ ns ∧ e ∈ elements_of k.
Proof.
  unfold elements_in. rewrite list_elem_of_bind.
  split; intros (k & ? & ?); eauto.
Qed.

(** What lies below an element of a forest lies in the forest. *)
Lemma elements_below_tree n e m :
  e ∈ elements_of n → m ∈ elements_in e.2 → m ∈ elements_of n.
Proof.
  revert e m. induction n as [s|el kids IH] using DomNode_induction;
    intros e m He Hm.
  { by apply elem_of_nil in He. }
  rewrite elements_of_eq in *. apply elem_of_cons in He as [->|He].
  { by right. }
  right. apply elem_of_elements_in in He as (k & Hk & He).
  apply elem_of_elements_in. exists k. split; [done|].
  rewrite Forall_forall in IH. by apply (IH k Hk e).
Qed.

Lemma elements_below e ns m :
  e ∈ elements_in ns → m ∈ elements_in e.2 → m ∈ elements_in ns.
Proof.
  intros (k & Hk & He)%elem_of_elements_in Hm.
  apply elem_of_elements_in. exists k. split; [done|].
  by apply (elements_below_tree k e).
Qed.

Lemma ids_below e ns x :
  e ∈ elements_in ns → x ∈ subtree_ids e → x ∈ ids ns.
Proof.
  intros He [->|Hx]%elem_of_cons.
  - apply elem_of_ids. by exists e.
  - apply elem_of_ids in Hx as (m & Hm & <-).
    apply elem_of_ids. exists m. split; [|done].
    by apply (elements_below e).
Qed.

(** A reference that is not in a forest: nothing is removed. *)
Lemma remove_absent_tree i n : i ∉ ids [n] → remove i n = [n].
Proof.
  induction n as [s|el kids IH] using DomNode_induction; intros Hi; [done|].
  rewrite ids_element in Hi. apply not_elem_of_cons in Hi as [Hi Hk].
  rewrite remove_eq, decide_False by done. do 2 f_equal.
  induction kids as [|k kids IHk]; [done|].
  apply Forall_cons in IH as [Hk1 IH].
  rewrite ids_cons in Hk. apply not_elem_of_app in Hk as [Hk2 Hk3].
  rewrite remove_in_cons, Hk1, IHk by done. done.
Qed.

Lemma remove_absent i ns : i ∉ ids ns → remove_in i ns = ns.
Proof.
  induction ns as [|k ns IH]; intros Hi; [done|].
  rewrite ids_cons in Hi. apply not_elem_of_app in Hi as [H1 H2].
  by rewrite remove_in_cons, remove_absent_tree, IH.
Qed.

(** With distinct references, the subtree of an element has distinct
    references. *)
Lemma NoDup_ids_member k ns : k ∈ ns → NoDup (ids ns) → NoDup (ids [k]).
Proof.
  induction ns as [|k' ns IH]; intros Hk Hnd.
  { by apply elem_of_nil in Hk. }
  rewrite ids_cons in Hnd. apply NoDup_app in Hnd as (H1 & _ & H2).
  apply elem_of_cons in Hk as [->|Hk]; [done|by apply IH].
Qed.

Lemma NoDup_subtree_tree n e :
  NoDup (ids [n]) → e ∈ elements_of n → NoDup (subtree_ids e).
Proof.
  revert e. induction n as [s|el kids IH] using DomNode_induction;
    intros e Hnd He.
  { by apply elem_of_nil in He. }
  rewrite elements_of_eq in He. rewrite ids_element in Hnd.
  apply elem_of_cons in He as [->|He]; [done|].
  apply elem_of_elements_in in He as (k & Hk & He).
  rewrite Forall_forall in IH. apply (IH k Hk); [|done].
  apply NoDup_cons in Hnd as [_ Hnd]. by apply (NoDup_ids_member k kids).
Qed.

Lemma NoDup_subtree e ns :
  NoDup (ids ns) → e ∈ elements_in ns → NoDup (subtree_ids e).
Proof.
  intros Hnd (k & Hk & He)%elem_of_elements_in.
  apply (NoDup_subtree_tree k); [|done]. by apply (NoDup_ids_member k ns).
Qed.

(** With distinct references, a reference denotes one element. *)
Lemma element_unique ns e m :
  NoDup (ids ns) → e ∈ elements_in ns → m ∈ elements_in ns →
  ref_of e = ref_of m → e = m.
Proof. intros Hnd He Hm. by apply (NoDup_fmap_eq ref_of (elements_in ns)). Qed.

Lemma find_Some i ns e :
  find i ns = Some e → e ∈ elements_in ns ∧ ref_of e = i.
Proof. intros [? ?]%head_filter_Some. done. Qed.

Lemma find_None i ns : find i ns = None ↔ i ∉ ids ns.
Proof.
  unfold find. rewrite head_None. split.
  - intros Hf (e & He & Hi)%elem_of_ids.
    assert (e ∈ filter (λ e, ref_of e = i) (elements_in ns)) as Hin
      by by apply list_elem_of_filter.
    rewrite Hf in Hin. by apply elem_of_nil in Hin.
  - intros Hi. apply filter_none, Forall_forall. intros e He Hr.
    apply Hi, elem_of_ids. by exists e.
Qed.

Lemma find_member i ns e :
  NoDup (ids ns) → e ∈ elements_in ns → ref_of e = i → find i ns = Some e.
Proof.
  intros Hnd He Hi. destruct (find i ns) as [m|] eqn:Hf.
  - apply find_Some in Hf as [Hm Hr]. f_equal.
    apply (element_unique ns); [done..|congruence].
  - apply find_None in Hf. exfalso. apply Hf, elem_of_ids. by exists e.
Qed.

(** *** What is left when an element is taken away *)

Lemma without_absent c m : c ∉ ids m.2 → without c m = m.
Proof.
  intros Hc. unfold without. rewrite remove_absent by done. by destruct m.
Qed.

(** A part of the forest that shares no reference with the subtree that is
    taken away stays as it is. *)
Lemma untouched c (S : list nat) ns :
  c ∈ S → (∀ x, x ∈ ids ns → x ∉ S) →
  remove_in c ns = ns
  ∧ without c <$> filter (λ m, ref_of m ∉ S) (elements_in ns)
    = elements_in ns.
Proof.
  intros Hc Hdis.
  assert (c ∉ ids ns) as Hc' by (intros H; by apply (Hdis c)).
  split; [by apply remove_absent|].
  rewrite filter_all.
  - rewrite <- (list_fmap_id (elements_in ns)) at 2.
    apply Forall_fmap_ext_1, Forall_forall. intros m Hm.
    apply without_absent. intros H. apply Hc'.
    apply (ids_below m); [done|by right].
  - apply Forall_forall. intros m Hm. apply Hdis, elem_of_ids. by exists m.
Qed.

Lemma removed_lift c e ns :
  Forall (λ n, NoDup (ids [n]) → e ∈ elements_of n → ref_of e = c →
               elements_in (remove c n)
               = without c
                 <$> filter (λ m, ref_of m ∉ subtree_ids e) (elements_of n))
         ns →
  NoDup (ids ns) → e ∈ elements_in ns → ref_of e = c →
  elements_in (remove_in c ns)
  = without c <$> filter (λ m, ref_of m ∉ subtree_ids e) (elements_in ns).
Proof.
  intros IH Hnd He Hc.
  assert (c ∈ subtree_ids e) as HcS by (rewrite <- Hc; left).
  revert He Hnd IH. induction ns as [|k ns IHk]; intros He Hnd IH.
  { by apply elem_of_nil in He. }
  apply Forall_cons in IH as [Hk IH].
  rewrite ids_cons in Hnd. apply NoDup_app in Hnd as (Hnd1 & Hdis & Hnd2).
  rewrite remove_in_cons, !elements_in_cons, elements_in_app.
  rewrite filter_app, fmap_app.
  rewrite elements_in_cons in He. apply elem_of_app in He as [He|He].
  - rewrite (Hk Hnd1 He Hc).
    assert (e ∈ elements_in [k]) as He'.
    { apply elem_of_elements_in. exists k. split; [left|done]. }
    assert (∀ x, x ∈ ids ns → x ∉ subtree_ids e) as Hrest.
    { intros x Hx Hs. apply (Hdis x); [|done]. by apply (ids_below e). }
    by destruct (untouched c (subtree_ids e) ns HcS Hrest) as [-> ->].
  - assert (∀ x, x ∈ ids [k] → x ∉ subtree_ids e) as Hk'.
    { intros x Hx Hs. apply (Hdis x); [done|]. by apply (ids_below e). }
    destruct (untouched c (subtree_ids e) [k] HcS Hk') as [Hr Hf].
    unfold remove_in in Hr. simpl in Hr. rewrite app_nil_r in Hr.
    unfold elements_in in Hf. simpl in Hf. rewrite app_nil_r in Hf.
    rewrite Hr, Hf. unfold elements_in at 1. simpl. rewrite app_nil_r.
    f_equal. by apply IHk.
Qed.

Lemma removed_tree c e n :
  NoDup (ids [n]) → e ∈ elements_of n → ref_of e = c →
  elements_in (remove c n)
  = without c <$> filter (λ m, ref_of m ∉ subtree_ids e) (elements_of n).
Proof.
  induction n as [s|el kids IH] using DomNode_induction; intros Hnd He Hc.
  { by apply elem_of_nil in He. }
  rewrite ids_element in Hnd. apply NoDup_cons in Hnd as [Hel Hnd].
  rewrite elements_of_eq in He |- *. rewrite remove_eq.
  destruct (decide (node_id el = c)) as [Hid|Hid].
  - assert (e = (el, kids)) as ->.
    { apply elem_of_cons in He as [->|He]; [done|]. exfalso. apply Hel.
      apply elem_of_ids. exists e. split; [done|congruence]. }
    rewrite filter_none; [done|]. apply Forall_forall. intros m Hm Hkeep.
    apply Hkeep. apply elem_of_cons in Hm as [->|Hm]; [left|right].
    apply elem_of_ids. by exists m.
  - apply elem_of_cons in He as [->|He]; [done|].
    assert (∀ x, x ∈ subtree_ids e → x ∈ ids kids) as Hsub
      by (intros x; by apply ids_below).
    rewrite filter_cons_True by (intros H; by apply Hel, Hsub).
    rewrite fmap_cons, elements_in_cons, elements_of_eq.
    unfold elements_in at 2. simpl. rewrite app_nil_r.
    unfold without at 1. simpl. f_equal. by apply removed_lift.
Qed.

(** The elements of a forest after the element [e] is taken away: those
    outside the subtree of [e], each without [e] below it. *)
Lemma removed c e ns :
  NoDup (ids ns) → e ∈ elements_in ns → ref_of e = c →
  elements_in (remove_in c ns)
  = without c <$> filter (λ m, ref_of m ∉ subtree_ids e) (elements_in ns).
Proof.
  apply removed_lift, Forall_forall. intros n _. apply removed_tree.
Qed.

(** *** [appendChild] *)

Lemma ref_without c m : ref_of (without c m) = ref_of m.
Proof. done. Qed.

Lemma ids_removed c e ns :
  NoDup (ids ns) → e ∈ elements_in ns → ref_of e = c →
  ids (remove_in c ns)
  = ref_of <$> filter (λ m, ref_of m ∉ subtree_ids e) (elements_in ns).
Proof.
  intros Hnd He Hc. unfold ids at 1. rewrite (removed c e) by done.
  by rewrite <- list_fmap_compose.
Qed.

Lemma elements_in_node (e : Element * list DomNode) :
  elements_in [ElementNode e.1 e.2] = e :: elements_in e.2.
Proof.
  rewrite elements_in_cons, elements_of_eq. unfold elements_in at 2.
  simpl. rewrite app_nil_r. by destruct e.
Qed.

(** The references stay distinct. *)
Lemma appendChild_NoDup ns c : NoDup (ids ns) → NoDup (ids (appendChild ns c)).
Proof.
  intros Hnd. unfold appendChild.
  destruct (find c ns) as [e|] eqn:Hf; [|done].
  apply find_Some in Hf as [He Hc].
  rewrite ids_app, (ids_removed c e), ids_element by done.
  change (node_id e.1 :: ids e.2) with (subtree_ids e).
  apply NoDup_app. split; [|split].
  - apply (sublist_NoDup _ (ids ns)); [done|].
    apply fmap_sublist, sublist_filter.
  - intros x (m & -> & Hm)%list_elem_of_fmap.
    by apply list_elem_of_filter in Hm as [Hm _].
  - by apply (NoDup_subtree e ns).
Qed.

(** A reference still denotes the same subtree after a move, unless the
    moved element lay below it. *)
Lemma appendChild_find ns c i :
  NoDup (ids ns) →
  (∀ m, find i ns = Some m → c ∉ ids m.2) →
  find i (appendChild ns c) = find i ns.
Proof.
  intros Hnd Hbelow. unfold appendChild.
  destruct (find c ns) as [e|] eqn:Hf; [|done].
  apply find_Some in Hf as [He Hc].
  unfold find at 1.
  rewrite elements_in_app, (removed c e), elements_in_node by done.
  rewrite filter_app.
  destruct (decide (i ∈ subtree_ids e)) as [Hi|Hi].
  - rewrite filter_none, app_nil_l.
    2:{ apply Forall_forall. intros m' (m & -> & Hm)%list_elem_of_fmap Hr.
        apply list_elem_of_filter in Hm as [Hm _]. apply Hm.
        by rewrite <- Hr in Hi. }
    destruct (head (filter (λ m, ref_of m = i) (e :: elements_in e.2)))
      as [m|] eqn:Hh.
    + apply head_filter_Some in Hh as [Hm Hr]. symmetry.
      apply find_member; [done| |done].
      apply elem_of_cons in Hm as [->|Hm]; [done|].
      by apply (elements_below e).
    + exfalso. apply head_None in Hh.
      assert (∃ m, m ∈ e :: elements_in e.2 ∧ ref_of m = i) as (m & Hm & Hr).
      { apply elem_of_cons in Hi as [->|Hi]; [exists e; split; [left|done]|].
        apply elem_of_ids in Hi as (m & Hm & Hr).
        exists m. split; [by right|done]. }
      assert (m ∈ filter (λ m, ref_of m = i) (e :: elements_in e.2)) as Hin
        by by apply list_elem_of_filter.
      rewrite Hh in Hin. by apply elem_of_nil in Hin.
  - rewrite (filter_none _ (e :: elements_in e.2)), app_nil_r.
    2:{ apply Forall_forall. intros m Hm Hr. apply Hi. rewrite <- Hr.
        apply elem_of_cons in Hm as [->|Hm]; [left|right].
        apply elem_of_ids. by exists m. }
    rewrite (head_filter_fmap _ (λ m, ref_of m = i)) by done.
    rewrite list_filter_filter.
    rewrite (list_filter_iff _ (λ m, ref_of m = i)).
    2:{ intros m. split; [tauto|]. intros Hr. split; [done|].
        by rewrite Hr. }
    fold (find i ns). destruct (find i ns) as [m|] eqn:Hfi; [|done].
    simpl. f_equal. apply without_absent. by apply Hbelow.
Qed.

(** *** Two runs *)

Lemma no_nesting cards ns :
  no_card_in_a_card cards ns = true →
  ∀ c c' e, c ∈ cards → c' ∈ cards → find c ns = Some e → c' ∉ ids e.2.
Proof.
  unfold no_card_in_a_card. rewrite forallb_forall.
  intros H c c' e Hc Hc' Hf.
  specialize (H c (proj1 (list_elem_of_In _ _) Hc)). rewrite Hf in H.
  rewrite forallb_forall in H.
  specialize (H c' (proj1 (list_elem_of_In _ _) Hc')).
  by apply bool_decide_eq_true_1 in H.
Qed.

(** Moving cards changes the subtree of no card, when no card lies inside
    another. *)
Lemma moves_keep cards ns0 ms :
  no_card_in_a_card cards ns0 = true →
  (∀ c, c ∈ ms → c ∈ cards) →
  ∀ ns, NoDup (ids ns) → (∀ c, c ∈ cards → find c ns = find c ns0) →
        ∀ c, c ∈ cards → find c (foldl appendChild ns ms) = find c ns0.
Proof.
  intros Hflat'. pose proof (no_nesting _ _ Hflat') as Hflat. clear Hflat'.
  induction ms as [|m ms IH]; intros Hms ns Hnd Hsame.
  { done. }
  simpl. apply IH.
  - intros c Hc. apply Hms. by right.
  - by apply appendChild_NoDup.
  - intros c Hc. rewrite appendChild_find; [by apply Hsame|done|].
    intros e He. rewrite Hsame in He by done.
    apply (Hflat c m e); [done| |done]. apply Hms. left.
Qed.

Lemma omap_ext_in {A B} (f g : A → option B) (l : list A) :
  (∀ x, x ∈ l → f x = g x) → omap f l = omap g l.
Proof.
  induction l as [|x l IH]; intros H; [done|]. csimpl.
  rewrite (H x) by left. rewrite IH; [done|]. intros y Hy. apply H. by right.
Qed.

Lemma card_at_ref ns i card : card_at ns i = Some card → node_id card = i.
Proof.
  unfold card_at. destruct (find i ns) as [e|] eqn:Hf; [|done].
  intros [= <-]. by apply find_Some in Hf as [_ Hr].
Qed.

Lemma shown_are_cards Number env cards ns c :
  c ∈ node_id
      <$> visibleItemsInOrder
            (Projects.apply Number env (omap (card_at ns) cards)
               {| children := []; display := ∅; emptyMsg := None |}).2 →
  c ∈ cards.
Proof.
  rewrite apply_result. simpl. rewrite sort_visible_perm.
  intros (card & -> & Hcard)%list_elem_of_fmap.
  apply visible_elem_of in Hcard as [Hcard _].
  apply list_elem_of_omap in Hcard as (i & Hi & Hcard).
  by rewrite (card_at_ref ns i card).
Qed.

(** C8, as the specification words it, fails: with a card inside another
    card and the query ["beta"], the first run shows both cards, since the
    text of the outer one contains that of the inner one, and moves the
    inner card out; the second run then shows the inner card only. *)
Lemma C8_counterexample :
  let env := Examples.controls (Some "beta") None None None ∅ in
  let cards := project_cards (nodes LiveExamples.nested) in
  let first := apply Number_int env cards LiveExamples.nested in
  let second := apply Number_int env cards first.1 in
  cards = [1; 2]
  ∧ node_id <$> visibleItemsInOrder first.2 = [1; 2]
  ∧ node_id <$> visibleItemsInOrder second.2 = [2]
  ∧ second.2 ≠ first.2.
Proof.
  intros env cards first second.
  assert (node_id <$> visibleItemsInOrder first.2 = [1; 2]) as H1
    by (vm_compute; reflexivity).
  assert (node_id <$> visibleItemsInOrder second.2 = [2]) as H2
    by (vm_compute; reflexivity).
  split; [vm_compute; reflexivity|]. split; [done|]. split; [done|].
  intros H. rewrite H, H1 in H2. discriminate H2.
Qed.

(** C8, amended: when no card lies inside another card, a second run of
    [apply], with the controls unchanged, computes the same sequence of
    shown items and the same emptiness as the first, and leaves the styles,
    the order of the grid's children and the message as the first run left
    them. *)
Theorem C8_apply_is_idempotent_without_nesting Number env cards p :
  NoDup (ids (nodes p)) →
  no_card_in_a_card cards (nodes p) = true →
  let first := apply Number env cards p in
  let second := apply Number env cards first.1 in
  second.2 = first.2 ∧ grid second.1 = grid first.1.
Proof.
  intros Hnd Hflat first second.
  assert (omap (card_at (nodes first.1)) cards
          = omap (card_at (nodes p)) cards) as Hnow.
  { apply omap_ext_in. intros c Hc. unfold card_at. f_equal.
    unfold first, apply. simpl.
    apply (moves_keep cards (nodes p)); try done.
    intros m Hm. apply (shown_are_cards Number env cards (nodes p)).
    by rewrite apply_result in Hm |- *. }
  unfold second, apply. rewrite Hnow. simpl. split.
  - unfold first, apply. simpl. by rewrite !apply_result.
  - unfold first, apply. simpl. by rewrite apply_same_cards.
Qed.

Lemma C8_apply_is_idempotent_without_nesting_witness :
  let env := Examples.controls (Some "a") None None None ∅ in
  let cards := project_cards (nodes LiveExamples.flat) in
  let first := apply Number_int env cards LiveExamples.flat in
  let second := apply Number_int env cards first.1 in
  second.2 = first.2 ∧ grid second.1 = grid first.1.
Proof.
  apply C8_apply_is_idempotent_without_nesting.
  - apply (bool_decide_unpack (NoDup _)). vm_compute. exact I.
  - vm_compute. reflexivity.
Defined.

End LiveGridFacts.

(** ** More on the project filters *)

Module ProjectsMoreFacts.
Import JS Dom Projects FilterSpec SkillChips JSFacts SortFacts ProjectsFacts.

(** *** What [apply] leaves on the page *)

Lemma moved_fresh ch l :
  NoDup (node_id <$> l) → (∀ n, n ∈ ch → n ∉ node_id <$> l) →
  foldl moved ch l = ch ++ (node_id <$> l).
Proof.
  revert ch. induction l as [|c l IH]; intros ch Hnd Hch.
  - simpl. by rewrite app_nil_r.
  - rewrite fmap_cons in Hnd, Hch. apply NoDup_cons in Hnd as [Hc Hnd].
    change (foldl moved ch (c :: l)) with (foldl moved (moved ch c) l).
    unfold moved. rewrite filter_all.
    + rewrite IH, <- app_assoc; [done|done|].
      intros n [Hn| ->%list_elem_of_singleton]%elem_of_app; [|done].
      intros Hin. apply (Hch n Hn). by right.
    + apply Forall_forall. intros n Hn ->. apply (Hch _ Hn). left.
Qed.

Lemma shown_other env d l k :
  k ∉ node_id <$> l → foldl (shown env) d l !! k = d !! k.
Proof.
  revert d. induction l as [|c l IH]; intros d Hk; [done|].
  rewrite fmap_cons in Hk. apply not_elem_of_cons in Hk as [Hkc Hk].
  simpl. rewrite IH by done. unfold shown. by rewrite lookup_insert_ne.
Qed.

Lemma shown_card env d l c :
  NoDup (node_id <$> l) → c ∈ l →
  foldl (shown env) d l !! node_id c
  = Some (if matchesFilters env c then EmptyString else "none").
Proof.
  revert d. induction l as [|c' l IH]; intros d Hnd Hc.
  { by apply elem_of_nil in Hc. }
  rewrite fmap_cons in Hnd. apply NoDup_cons in Hnd as [Hc' Hnd].
  simpl. apply elem_of_cons in Hc as [->|Hc]; [|by apply IH].
  rewrite shown_other by done. unfold shown. apply lookup_insert_eq.
Qed.

Lemma visible_ids_NoDup Number env cards :
  NoDup (node_id <$> cards) →
  NoDup (node_id <$> sort_visible Number env (visible env cards)).
Proof.
  intros Hnd. rewrite sort_visible_perm. unfold visible.
  eapply sublist_NoDup; [done|]. apply fmap_sublist, sublist_filter.
Qed.

(** X6: after [apply], on a catalog of distinct cards, the grid ends with
    the shown cards in the order of the result, in front of them are the
    children that are not shown, in their old order; a card's [display] is
    empty when it is shown and ["none"] when it is not; nothing else gets a
    [display]; and the empty-state message is hidden exactly when something
    is shown. *)
Theorem X6_page_after_apply Number env cards g :
  NoDup (node_id <$> cards) →
  let g' := (apply Number env cards g).1 in
  let out := visibleItemsInOrder (apply Number env cards g).2 in
  children g'
  = filter (λ n, n ∉ node_id <$> out) (children g) ++ (node_id <$> out)
  ∧ (∀ c, c ∈ cards →
       (c ∈ out → display g' !! node_id c = Some EmptyString)
       ∧ (c ∉ out → display g' !! node_id c = Some "none"))
  ∧ (∀ n, n ∉ node_id <$> cards → display g' !! n = display g !! n)
  ∧ emptyMsg g' = (λ _, bool_decide (out ≠ [])) <$> emptyMsg g
  ∧ (isEmpty (apply Number env cards g).2 = true ↔ out = []).
Proof.
  intros Hnd g' out.
  destruct (apply_grid Number env cards g) as (Hc & Hd & He).
  fold g' in Hc, Hd, He. fold out in Hc.
  assert (out = sort_visible Number env (visible env cards)) as Hout
    by (unfold out; by rewrite apply_result).
  assert (∀ c, c ∈ out ↔ c ∈ cards ∧ matchesFilters env c = true) as Hin.
  { intros c. by rewrite Hout, sort_visible_perm, visible_elem_of. }
  assert ((length (visible env cards) =? 0) = true ↔ out = []) as Hlen.
  { rewrite Nat.eqb_eq, Hout. split.
    - intros Hl%nil_length_inv. apply Permutation_nil.
      by rewrite sort_visible_perm, Hl.
    - intros Ho. pose proof (sort_visible_perm Number env (visible env cards))
        as Hp. rewrite Ho in Hp. apply Permutation_nil in Hp. by rewrite Hp. }
  split; [|split; [|split; [|split]]].
  - rewrite Hc, moved_split. f_equal. apply moved_fresh; [|by intros n ?%elem_of_nil].
    rewrite Hout. by apply visible_ids_NoDup.
  - intros c Hc'. rewrite Hd, shown_card by done. split.
    + intros [_ ->]%Hin. done.
    + intros Hn. destruct (matchesFilters env c) eqn:E; [|done].
      destruct Hn. by apply Hin.
  - intros n Hn. rewrite Hd. by apply shown_other.
  - rewrite He. destruct (emptyMsg g); [|done]. simpl. f_equal.
    destruct (length (visible env cards) =? 0) eqn:E; simpl.
    + symmetry. apply bool_decide_eq_false. intros Hne. by apply Hne, Hlen.
    + symmetry. apply bool_decide_eq_true. intros Ho%Hlen. congruence.
  - rewrite apply_result. simpl. apply Hlen.
Qed.

Lemma X6_page_after_apply_witness :
  let env := Examples.controls None (Some "x") None (Some "impact") ∅ in
  let g' := (apply Number_int env Examples.catalog Examples.grid0).1 in
  children g' = [1; 0; 3; 2] ∧ display g' !! 1 = Some "none".
Proof.
  intros env g'.
  assert (NoDup (node_id <$> Examples.catalog)) as Hnd
    by (apply (bool_decide_unpack _); vm_compute; exact I).
  destruct (X6_page_after_apply Number_int env Examples.catalog
              Examples.grid0 Hnd) as (Hc & Hd & _).
  split.
  - fold g' in Hc. rewrite Hc. vm_compute. reflexivity.
  - apply (Hd (Examples.card 1 [("data_category", "y"); ("data_year", "2023");
                                ("data_impact", "95"); ("data_skills", "cad")]
                             "Brake rotor")).
    + right. left.
    + rewrite apply_result. simpl. rewrite sort_visible_perm, visible_elem_of.
      intros [_ Hm]. vm_compute in Hm. discriminate.
Defined.

(** *** What the controls can and cannot do *)

Lemma set_sort_matches v env card :
  matchesFilters (set_sort v env) card = matchesFilters env card.
Proof. reflexivity. Qed.

(** X7: the sort control changes the order of the shown cards and nothing
    else: the same cards are shown, with the same [display] on every card
    and the same state of the empty-state message. *)
Theorem X7_sorting_only_reorders Number env cards g v :
  let before := apply Number env cards g in
  let after := apply Number (set_sort v env) cards g in
  visibleItemsInOrder after.2 ≡ₚ visibleItemsInOrder before.2
  ∧ isEmpty after.2 = isEmpty before.2
  ∧ display after.1 = display before.1
  ∧ emptyMsg after.1 = emptyMsg before.1.
Proof.
  intros before after. unfold before, after.
  destruct (apply_grid Number env cards g) as (_ & Hd & He).
  destruct (apply_grid Number (set_sort v env) cards g) as (_ & Hd' & He').
  rewrite Hd, Hd', He, He', !apply_result. simpl.
  assert (visible (set_sort v env) cards = visible env cards) as -> by done.
  rewrite !sort_visible_perm. done.
Qed.

Lemma string_app_assoc (a b c : string) : (a +:+ b) +:+ c = a +:+ b +:+ c.
Proof.
  induction a as [|x a IH]; [done|].
  change ((String x a +:+ b) +:+ c) with (String x ((a +:+ b) +:+ c)).
  by rewrite IH.
Qed.

Lemma string_app_nil (a b : string) : a +:+ b = EmptyString → a = EmptyString ∧ b = EmptyString.
Proof. by destruct a. Qed.

Lemma text_passes_weaken q q' item :
  includes (toLowerCase q') (toLowerCase q) = true →
  text_passes q' item = true → text_passes q item = true.
Proof.
  unfold text_passes. intros Hsub Hq'.
  apply orb_true_iff. destruct (decide (q = EmptyString)) as [->|Hq]; [by left|].
  right. apply includes_iff in Hsub as (pre & post & Hsub).
  apply orb_true_iff in Hq' as [Hq'|Hq'].
  - apply bool_decide_eq_true in Hq'. subst q'. symmetry in Hsub.
    apply string_app_nil in Hsub as [_ [Hl _]%string_app_nil].
    apply (proj1 (toLowerCase_empty_iff q)) in Hl. by destruct Hq.
  - apply includes_iff in Hq' as (pre' & post' & Hq'). apply includes_iff.
    exists (pre' +:+ pre), (post +:+ post'). rewrite Hq', Hsub.
    by rewrite !string_app_assoc.
Qed.

Lemma toLowerCase_app a b :
  toLowerCase (a +:+ b) = toLowerCase a +:+ toLowerCase b.
Proof.
  induction a as [|c a IH]; [done|].
  change (String c a +:+ b) with (String c (a +:+ b)). simpl.
  rewrite IH. done.
Qed.

Lemma trimStart_app_keep q t :
  all_space q = false → trimStart (q +:+ t) = trimStart q +:+ t.
Proof.
  induction q as [|c q IH]; [done|].
  change (String c q +:+ t) with (String c (q +:+ t)). simpl.
  destruct (Ascii.is_space c); [apply IH|done].
Qed.

Lemma trimEnd_app_prefix s t : ∃ r, trimEnd (s +:+ t) = trimEnd s +:+ r.
Proof.
  induction s as [|c s [r IH]]; [by exists (trimEnd t)|].
  change (String c s +:+ t) with (String c (s +:+ t)). simpl. rewrite IH.
  destruct (trimEnd s) as [|d u] eqn:Es.
  - change (EmptyString +:+ r) with r. destruct r as [|d r].
    + exists EmptyString. by destruct (Ascii.is_space c).
    + destruct (Ascii.is_space c); [by exists (String c (String d r))|].
      by exists (String d r).
  - by exists r.
Qed.

Lemma trim_app_prefix q t : ∃ r, trim (q +:+ t) = trim q +:+ r.
Proof.
  destruct (all_space q) eqn:Hq.
  - rewrite (trim_all_space q Hq). by eexists.
  - unfold trim. rewrite trimStart_app_keep by done. apply trimEnd_app_prefix.
Qed.

(** X8: a query whose trimmed, lower-cased form contains that of another
    one shows no card that the other one hides; so, for queries of ASCII
    characters, typing on at the end of the query never brings a card
    back. *)
Theorem X8_longer_query_never_shows_more env card q :
  (∀ q', includes (toLowerCase (trim q')) (toLowerCase (trim q)) = true →
         matchesFilters (set_search (Some q') env) card = true →
         matchesFilters (set_search (Some q) env) card = true)
  ∧ (∀ t, JSAscii.is_ascii q = true → JSAscii.is_ascii t = true →
          matchesFilters (set_search (Some (q +:+ t)) env) card = true →
          matchesFilters (set_search (Some q) env) card = true).
Proof.
  assert (∀ q', includes (toLowerCase (trim q')) (toLowerCase (trim q)) = true →
         matchesFilters (set_search (Some q') env) card = true →
         matchesFilters (set_search (Some q) env) card = true) as H.
  { intros q' Hsub. rewrite !matchesFilters_spec.
    unfold all_pass, predicates_trimmed, filter_state. simpl.
    rewrite !andb_true_iff. intros (Ht & Hrest). split; [|done].
    by eapply text_passes_weaken. }
  split; [done|]. intros t _ _. apply H.
  destruct (trim_app_prefix q t) as [r ->]. rewrite toLowerCase_app.
  apply includes_iff. by exists EmptyString, (toLowerCase r).
Qed.

Lemma X8_longer_query_never_shows_more_witness :
  let env := Examples.controls None None None None ∅ in
  let card := Examples.card 1 [] "Brake rotor" in
  matchesFilters (set_search (Some " ROT") env) card = true.
Proof.
  intros env card.
  apply (proj2 (X8_longer_query_never_shows_more env card " ROT") "or ");
    vm_compute; reflexivity.
Defined.

(** X9: selecting more skills shows no card that was hidden: a card that
    passes with a selection passes with every part of it. *)
Theorem X9_more_skills_never_show_more env card (sel sel' : gset string) :
  sel ⊆ sel' →
  matchesFilters (set_skills sel' env) card = true →
  matchesFilters (set_skills sel env) card = true.
Proof.
  intros Hsub. rewrite !matchesFilters_spec.
  unfold all_pass, predicates_trimmed, filter_state. simpl.
  rewrite !andb_true_iff. intros (Ht & Hc & Hy & Hs & _).
  repeat split; try done. unfold skills_pass in *.
  apply orb_true_iff in Hs as [Hs|Hs].
  - apply bool_decide_eq_true in Hs. subst sel'.
    apply orb_true_iff. left. apply bool_decide_eq_true.
    apply leibniz_equiv. intros x. split; [|by intros ?%elem_of_empty].
    intros Hx. by apply Hsub.
  - apply bool_decide_eq_true in Hs. apply orb_true_iff. right.
    apply bool_decide_eq_true. intros s Hin. by apply Hs, Hsub.
Qed.

Lemma X9_more_skills_never_show_more_witness :
  let env := Examples.controls None None None None ∅ in
  let card := Examples.card 0 [("data_skills", "CAD, Testing")] "Intake" in
  matchesFilters (set_skills {["cad"]} env) card = true.
Proof.
  intros env card.
  apply (X9_more_skills_never_show_more env card {["cad"]}
           ({["cad"]} ∪ {["testing"]})).
  - apply union_subseteq_l.
  - vm_compute. reflexivity.
Defined.

(** X10: with a blank search box, the category and the year on ["all"] (or
    the controls absent) and no skill selected, every card is shown, and the
    result is empty only for an empty catalog. *)
Theorem X10_no_filter_shows_everything Number env cards g :
  all_space (default EmptyString (searchInput env)) = true →
  default "all" (categorySelect env) = "all" →
  default "all" (yearSelect env) = "all" →
  selectedSkills env = ∅ →
  (∀ card, matchesFilters env card = true)
  ∧ visibleItemsInOrder (apply Number env cards g).2 ≡ₚ cards
  ∧ (isEmpty (apply Number env cards g).2 = true ↔ cards = []).
Proof.
  intros Hq Hc Hy Hs.
  assert (∀ card, matchesFilters env card = true) as Hall.
  { intros card. rewrite matchesFilters_spec.
    unfold all_pass, predicates_trimmed, filter_state. simpl.
    unfold text_passes, category_passes, year_passes, skills_pass.
    rewrite (trim_all_space _ Hq), Hc, Hy, Hs. done. }
  assert (visible env cards = cards) as Hv.
  { unfold visible. apply filter_all, Forall_forall. by intros. }
  split; [done|]. rewrite apply_result, Hv. simpl.
  split; [apply sort_visible_perm|].
  rewrite Nat.eqb_eq. split; [apply nil_length_inv|by intros ->].
Qed.

Lemma X10_no_filter_shows_everything_witness :
  let env := Examples.controls (Some "  ") (Some "all") None None ∅ in
  visibleItemsInOrder
    (apply Number_int env Examples.catalog Examples.grid0).2
  ≡ₚ Examples.catalog.
Proof.
  intros env.
  apply (X10_no_filter_shows_everything Number_int env Examples.catalog
           Examples.grid0); reflexivity.
Defined.

(** *** The skill chips *)

(** X11: a click on a skill chip whose skill is blank changes nothing.
    Otherwise it flips that one skill in the selection and leaves the others,
    marks the chip active exactly when its skill is now selected, and runs
    [apply] with the new selection; a second click restores the
    selection. *)
Theorem X11_skill_chip_toggles_its_skill Number cards chip env g :
  let r := chipClick Number cards chip env g in
  (chipSkill chip = EmptyString → r = (chip, env, g))
  ∧ (chipSkill chip ≠ EmptyString →
     (chipSkill chip ∈ selectedSkills r.1.2
      ↔ chipSkill chip ∉ selectedSkills env)
     ∧ (∀ s, s ≠ chipSkill chip →
             s ∈ selectedSkills r.1.2 ↔ s ∈ selectedSkills env)
     ∧ ("is_active" ∈ classList r.1.1
        ↔ chipSkill chip ∈ selectedSkills r.1.2)
     ∧ r.2 = (apply Number r.1.2 cards g).1
     ∧ selectedSkills (chipClick Number cards r.1.1 r.1.2 r.2).1.2
       = selectedSkills env).
Proof.
  intros r. unfold r. clear r.
  assert (∀ c e g0, chipSkill c ≠ EmptyString →
    chipClick Number cards c e g0
    = if bool_decide (chipSkill c ∈ selectedSkills e)
      then (remove_class "is_active" c,
            set_skills (selectedSkills e ∖ {[chipSkill c]}) e,
            (apply Number
               (set_skills (selectedSkills e ∖ {[chipSkill c]}) e)
               cards g0).1)
      else (add_class "is_active" c,
            set_skills ({[chipSkill c]} ∪ selectedSkills e) e,
            (apply Number
               (set_skills ({[chipSkill c]} ∪ selectedSkills e) e)
               cards g0).1)) as Hclick.
  { intros c e g0 Hne. unfold chipClick, truthy.
    by rewrite (bool_decide_false _ Hne). }
  split.
  - intros He. unfold chipClick, truthy. by rewrite (bool_decide_true _ He).
  - intros Hne. rewrite (Hclick chip env g Hne).
    destruct (decide (chipSkill chip ∈ selectedSkills env)) as [Hin|Hin].
    + rewrite (bool_decide_true _ Hin). simpl.
      assert (chipSkill chip ∉ selectedSkills env ∖ {[chipSkill chip]}) as Hout.
      { apply not_elem_of_difference. right. by apply elem_of_singleton. }
      split; [tauto|]. split.
      { intros s Hs. rewrite elem_of_difference, elem_of_singleton. tauto. }
      split.
      { split; [|tauto]. intros Ha. exfalso.
        apply elem_of_difference in Ha as [_ Ha]. apply Ha.
        by apply elem_of_singleton. }
      split; [done|].
      rewrite Hclick by done.
      change (chipSkill (remove_class "is_active" chip)) with (chipSkill chip).
      simpl. rewrite (bool_decide_false _ Hout). simpl.
      apply leibniz_equiv. intros x.
      rewrite elem_of_union, elem_of_difference, !elem_of_singleton.
      destruct (decide (x = chipSkill chip)) as [->|]; intuition congruence.
    + rewrite (bool_decide_false _ Hin). simpl.
      assert (chipSkill chip ∈ {[chipSkill chip]} ∪ selectedSkills env) as Hnow.
      { apply elem_of_union. left. by apply elem_of_singleton. }
      split; [tauto|]. split.
      { intros s Hs. rewrite elem_of_union, elem_of_singleton. tauto. }
      split.
      { split; [tauto|]. intros _. apply elem_of_union. left.
        by apply elem_of_singleton. }
      split; [done|].
      rewrite Hclick by done.
      change (chipSkill (add_class "is_active" chip)) with (chipSkill chip).
      simpl. rewrite (bool_decide_true _ Hnow). simpl.
      apply leibniz_equiv. intros x.
      rewrite elem_of_difference, elem_of_union, !elem_of_singleton.
      destruct (decide (x = chipSkill chip)) as [->|]; intuition congruence.
Qed.

Lemma X11_skill_chip_toggles_its_skill_witness :
  let env := Examples.controls None None None None ∅ in
  let chip := Examples.el 50 "button" [("data_skill", " CAD ")] [] in
  let r := chipClick Number_int Examples.catalog chip env Examples.grid0 in
  chipSkill chip = "cad"
  ∧ "cad" ∈ selectedSkills r.1.2
  ∧ "is_active" ∈ classList r.1.1.
Proof.
  intros env chip r. split; [reflexivity|].
  assert (chipSkill chip ≠ EmptyString) as Hne by discriminate.
  destruct (proj2 (X11_skill_chip_toggles_its_skill Number_int
                     Examples.catalog chip env Examples.grid0) Hne)
    as (H1 & _ & H3 & _).
  assert (chipSkill chip ∈ selectedSkills r.1.2) as Hin.
  { apply H1. intros ?%elem_of_empty. done. }
  split; [done|]. by apply H3.
Defined.

End ProjectsMoreFacts.

(** ** Theme, motion and the reveal on scroll *)

Module SiteFacts.
Import JS Dom DomMore Site.

Lemma applyTheme_eq t s :
  applyTheme t s = set_root "data_theme" (resolveTheme t (prefersDark s)) s.
Proof.
  unfold applyTheme, resolveTheme.
  by destruct (bool_decide (t = "light") || bool_decide (t = "dark")).
Qed.

Lemma applyMotion_eq t s :
  applyMotion t s
  = set_root "data_motion" (resolveMotion t (prefersReducedMotion s)) s.
Proof.
  unfold applyMotion, resolveMotion.
  destruct (decide (t = "reduced")) as [->|Hr]; [done|].
  rewrite (bool_decide_false (t = "reduced")) by done.
  destruct (decide (t = "full")) as [->|Hf]; [done|].
  by rewrite (bool_decide_false (t = "full")) by done.
Qed.

Lemma nextTheme_choice t : theme_choice (nextTheme t).
Proof.
  unfold nextTheme, theme_choice. repeat case_bool_decide; tauto.
Qed.

Lemma nextMotion_choice t : motion_choice (nextMotion t).
Proof.
  unfold nextMotion, motion_choice. repeat case_bool_decide; tauto.
Qed.

Lemma saved_insert (k v : string) (st : gmap string string) :
  v ≠ EmptyString → or_else (<[k := v]> st !! k) "system" = v.
Proof.
  intros Hv. rewrite lookup_insert_eq. simpl. by rewrite decide_False.
Qed.

Lemma theme_choice_nonempty t : theme_choice t → t ≠ EmptyString.
Proof. by intros [->|[->| ->]]. Qed.

Lemma motion_choice_nonempty t : motion_choice t → t ≠ EmptyString.
Proof. by intros [->|[->| ->]]. Qed.

Lemma themeClick_saved s :
  saved THEME_KEY (themeClick s) = nextTheme (saved THEME_KEY s)
  ∧ saved MOTION_KEY (themeClick s) = saved MOTION_KEY s.
Proof.
  unfold themeClick. rewrite applyTheme_eq. unfold saved. simpl. split.
  - apply saved_insert, theme_choice_nonempty, nextTheme_choice.
  - by rewrite lookup_insert_ne.
Qed.

Lemma motionClick_saved s :
  saved MOTION_KEY (motionClick s) = nextMotion (saved MOTION_KEY s)
  ∧ saved THEME_KEY (motionClick s) = saved THEME_KEY s.
Proof.
  unfold motionClick. rewrite applyMotion_eq. unfold saved.
  case_bool_decide; simpl; (split;
    [apply saved_insert, motion_choice_nonempty, nextMotion_choice
    |by rewrite lookup_insert_ne]).
Qed.

(** X12: a click on the theme toggle stores the next of the three choices
    and leaves the stored motion alone; whatever was stored before, the new
    value is one of the three; from one of the three, three clicks come back
    to it and one or two do not.  The motion toggle does the same on its own
    three choices. *)
Theorem X12_toggles_cycle_through_three_choices s :
  (saved THEME_KEY (themeClick s) = nextTheme (saved THEME_KEY s)
   ∧ saved MOTION_KEY (themeClick s) = saved MOTION_KEY s
   ∧ theme_choice (saved THEME_KEY (themeClick s))
   ∧ (theme_choice (saved THEME_KEY s) →
      saved THEME_KEY (themeClick (themeClick (themeClick s)))
      = saved THEME_KEY s
      ∧ saved THEME_KEY (themeClick s) ≠ saved THEME_KEY s
      ∧ saved THEME_KEY (themeClick (themeClick s)) ≠ saved THEME_KEY s))
  ∧ (saved MOTION_KEY (motionClick s) = nextMotion (saved MOTION_KEY s)
     ∧ saved THEME_KEY (motionClick s) = saved THEME_KEY s
     ∧ motion_choice (saved MOTION_KEY (motionClick s))
     ∧ (motion_choice (saved MOTION_KEY s) →
        saved MOTION_KEY (motionClick (motionClick (motionClick s)))
        = saved MOTION_KEY s
        ∧ saved MOTION_KEY (motionClick s) ≠ saved MOTION_KEY s
        ∧ saved MOTION_KEY (motionClick (motionClick s)) ≠ saved MOTION_KEY s)).
Proof.
  split.
  - rewrite !(proj1 (themeClick_saved _)).
    split; [done|]. split; [apply themeClick_saved|].
    split; [apply nextTheme_choice|].
    by intros [->|[->| ->]].
  - rewrite !(proj1 (motionClick_saved _)).
    split; [done|]. split; [apply motionClick_saved|].
    split; [apply nextMotion_choice|].
    by intros [->|[->| ->]].
Qed.

Lemma X12_toggles_cycle_through_three_choices_witness :
  saved THEME_KEY
    (themeClick (themeClick (themeClick MoreExamples.site0))) = "system"
  ∧ saved THEME_KEY (themeClick MoreExamples.site0) = "dark".
Proof.
  destruct (proj1 (X12_toggles_cycle_through_three_choices MoreExamples.site0))
    as (H1 & _ & _ & H3).
  split; [|done]. apply H3. by left.
Defined.

(** [settled] reads the preferences only, not the animated elements. *)
Lemma settled_ext s s' :
  localStorage s' = localStorage s → root s' = root s →
  prefersDark s' = prefersDark s →
  prefersReducedMotion s' = prefersReducedMotion s →
  themeBtn s' = themeBtn s → motionBtn s' = motionBtn s →
  settled s → settled s'.
Proof.
  unfold settled, saved. by intros -> -> -> -> -> ->.
Qed.

Lemma revealAll_settled s : settled s → settled (revealAll s).
Proof. by apply settled_ext. Qed.

Lemma onIntersect_prefs entries s :
  localStorage (onIntersect entries s) = localStorage s
  ∧ root (onIntersect entries s) = root s
  ∧ prefersDark (onIntersect entries s) = prefersDark s
  ∧ prefersReducedMotion (onIntersect entries s) = prefersReducedMotion s
  ∧ themeBtn (onIntersect entries s) = themeBtn s
  ∧ motionBtn (onIntersect entries s) = motionBtn s.
Proof.
  unfold onIntersect. revert s.
  induction entries as [|e entries IH]; intros s; [done|].
  simpl. destruct (isIntersecting e); [|apply IH].
  destruct (IH (set_animated
    ((λ el, if decide (node_id el = target e)
            then add_class "in_view" el else el) <$> animated s)
    (observed s ∖ {[target e]}) s)) as (-> & -> & -> & -> & -> & ->).
  done.
Qed.

Lemma resolveTheme_stored t d d' :
  t = "dark" ∨ t = "light" → resolveTheme t d = resolveTheme t d'.
Proof. by intros [-> | ->]. Qed.

Lemma resolveMotion_stored t r r' :
  t = "reduced" ∨ t = "full" → resolveMotion t r = resolveMotion t r'.
Proof. by intros [-> | ->]. Qed.

Lemma label_fmap (o : option string) (v l : string) :
  (λ _, v) <$> o = Some l → l = v.
Proof. destruct o; simpl; congruence. Qed.

Lemma themeClick_settled s : settled s → settled (themeClick s).
Proof.
  intros (Ht & Hm & Hrt & Hrm & Hlt & Hlm).
  destruct (themeClick_saved s) as [Est Esm].
  unfold settled. rewrite Est, Esm.
  split; [apply nextTheme_choice|]. split; [done|].
  unfold themeClick in *. rewrite applyTheme_eq in *.
  unfold updateToggleLabels. simpl.
  split; [by rewrite lookup_insert_eq|].
  split; [by rewrite lookup_insert_ne|].
  split; intros l Hl; apply label_fmap in Hl; subst l; f_equal.
  - exact Est.
  - exact Esm.
Qed.

Lemma motionClick_settled s : settled s → settled (motionClick s).
Proof.
  intros (Ht & Hm & Hrt & Hrm & Hlt & Hlm).
  destruct (motionClick_saved s) as [Esm Est].
  unfold motionClick in *. rewrite applyMotion_eq in *.
  set (s1 := updateToggleLabels _) in *.
  assert (settled s1) as H1.
  { assert (saved MOTION_KEY s1 = nextMotion (saved MOTION_KEY s)
            ∧ saved THEME_KEY s1 = saved THEME_KEY s) as [Esm1 Est1].
    { unfold saved, s1. simpl. split.
      - apply saved_insert, motion_choice_nonempty, nextMotion_choice.
      - by rewrite lookup_insert_ne. }
    unfold settled. rewrite Esm1, Est1.
    split; [done|]. split; [apply nextMotion_choice|].
    unfold s1, updateToggleLabels. simpl.
    split; [by rewrite lookup_insert_ne|].
    split; [by rewrite lookup_insert_eq|].
    split; intros l Hl; apply label_fmap in Hl; subst l; f_equal.
    - exact Est1.
    - exact Esm1. }
  case_bool_decide; [by apply revealAll_settled|done].
Qed.

Lemma step_settled s e : settled s → settled (step s e).
Proof.
  intros Hs. destruct e as [| |dark|reduce|entries]; simpl.
  - by apply themeClick_settled.
  - by apply motionClick_settled.
  - destruct Hs as (Ht & Hm & Hrt & Hrm & Hlt & Hlm).
    unfold onThemeQueryChange.
    change (saved THEME_KEY (set_media dark (prefersReducedMotion s) s))
      with (saved THEME_KEY s).
    case_bool_decide as Hc.
    + rewrite applyTheme_eq. unfold settled, saved in *. simpl.
      split; [done|]. split; [done|].
      split; [by rewrite lookup_insert_eq, Hc|].
      split; [by rewrite lookup_insert_ne|].
      done.
    + unfold settled, saved in *. simpl.
      split; [done|]. split; [done|].
      split; [|done]. rewrite Hrt. f_equal.
      apply resolveTheme_stored. by destruct Ht as [?|?].
  - destruct Hs as (Ht & Hm & Hrt & Hrm & Hlt & Hlm).
    unfold onMotionQueryChange.
    change (saved MOTION_KEY (set_media (prefersDark s) reduce s))
      with (saved MOTION_KEY s).
    case_bool_decide as Hc.
    + rewrite applyMotion_eq. unfold settled, saved in *. simpl.
      split; [done|]. split; [done|].
      split; [by rewrite lookup_insert_ne|].
      split; [by rewrite lookup_insert_eq, Hc|].
      done.
    + unfold settled, saved in *. simpl.
      split; [done|]. split; [done|]. split; [done|].
      split; [|done]. rewrite Hrm. f_equal.
      apply resolveMotion_stored. by destruct Hm as [?|?].
  - destruct (onIntersect_prefs entries s) as (? & ? & ? & ? & ? & ?).
    by apply (settled_ext s).
Qed.

Lemma initScrollAnimations_settled s :
  settled s → settled (initScrollAnimations s).
Proof.
  intros Hs. unfold initScrollAnimations.
  destruct (animated s); [done|].
  case_bool_decide; by apply (settled_ext s).
Qed.

Lemma init_settled s :
  theme_choice (saved THEME_KEY s) → motion_choice (saved MOTION_KEY s) →
  settled (init s).
Proof.
  intros Ht Hm. unfold init. apply initScrollAnimations_settled.
  unfold initThemeAndMotion. rewrite applyTheme_eq, applyMotion_eq.
  unfold settled, updateToggleLabels, saved in *. simpl.
  split; [done|]. split; [done|].
  split; [by rewrite lookup_insert_ne, lookup_insert_eq|].
  split; [by rewrite lookup_insert_eq|].
  split; intros l Hl; by apply label_fmap in Hl.
Qed.

Lemma run_settled s events : settled s → settled (run s events).
Proof.
  unfold run. revert s.
  induction events as [|e events IH]; intros s Hs; [done|].
  simpl. by apply IH, step_settled.
Qed.

(** X13: when the storage holds no choice or one of the three for the theme
    and for the motion, then after the start of the page and after any
    sequence of toggle clicks, media query changes and observer reports the
    root element carries the theme and the motion that the stored choices
    stand for under what the media queries report at that moment, and each
    toggle button that exists names the stored choice. *)
Theorem X13_page_shows_the_stored_choice s events :
  theme_choice (saved THEME_KEY s) → motion_choice (saved MOTION_KEY s) →
  let s' := run (init s) events in
  root s' !! "data_theme"
    = Some (resolveTheme (saved THEME_KEY s') (prefersDark s'))
  ∧ root s' !! "data_motion"
    = Some (resolveMotion (saved MOTION_KEY s') (prefersReducedMotion s'))
  ∧ (∀ l, themeBtn s' = Some l → l = themeLabel (saved THEME_KEY s'))
  ∧ (∀ l, motionBtn s' = Some l → l = motionLabel (saved MOTION_KEY s')).
Proof.
  intros Ht Hm s'.
  destruct (run_settled (init s) events (init_settled s Ht Hm))
    as (_ & _ & H). exact H.
Qed.

Lemma X13_page_shows_the_stored_choice_witness :
  let s' := run (init MoreExamples.site0)
              [ThemeClick; ThemeQueryChange false; MotionClick] in
  root s' !! "data_theme" = Some "dark"
  ∧ root s' !! "data_motion" = Some "reduced"
  ∧ themeBtn s' = Some "Theme: Dark".
Proof.
  destruct (X13_page_shows_the_stored_choice MoreExamples.site0
              [ThemeClick; ThemeQueryChange false; MotionClick])
    as (H1 & H2 & H3 & _); [by left|by left|].
  split; [exact H1|]. split; [exact H2|]. reflexivity.
Defined.

(** X14: a stored theme that is none of the three choices (and not empty)
    is shown as the theme of the system, the button is labelled
    [Theme: Light] whatever is shown, a later change of the system's theme
    does not reach the page, and the first click stores [system]. *)
Theorem X14_unknown_stored_theme s t :
  localStorage s !! THEME_KEY = Some t → t ≠ EmptyString → ¬ theme_choice t →
  root (init s) !! "data_theme"
    = Some (if prefersDark s then "dark" else "light")
  ∧ themeBtn (init s) = (λ _, "Theme: Light") <$> themeBtn s
  ∧ (∀ dark, root (step (init s) (ThemeQueryChange dark)) !! "data_theme"
             = root (init s) !! "data_theme")
  ∧ saved THEME_KEY (themeClick (init s)) = "system".
Proof.
  intros Hst Hne Hno.
  assert (saved THEME_KEY s = t) as Hsaved.
  { unfold saved. rewrite Hst. simpl. by rewrite decide_False. }
  assert (t ≠ "system" ∧ t ≠ "dark" ∧ t ≠ "light") as (H1 & H2 & H3).
  { unfold theme_choice in Hno. tauto. }
  assert (∀ s1, localStorage s1 = localStorage s →
            localStorage (initScrollAnimations s1) = localStorage s
            ∧ root (initScrollAnimations s1) = root s1
            ∧ themeBtn (initScrollAnimations s1) = themeBtn s1) as Hisa.
  { intros s1 E. unfold initScrollAnimations.
    destruct (animated s1); [done|]. by case_bool_decide. }
  destruct (Hisa (updateToggleLabels (initThemeAndMotion s))) as (El & Er & Eb).
  { unfold initThemeAndMotion. by rewrite applyTheme_eq, applyMotion_eq. }
  assert (saved THEME_KEY (init s) = t) as Hsaved'.
  { unfold saved, init. rewrite El. exact Hsaved. }
  assert (root (init s) !! "data_theme"
          = Some (if prefersDark s then "dark" else "light")) as Hroot.
  { unfold init. rewrite Er. unfold initThemeAndMotion.
    rewrite applyTheme_eq, applyMotion_eq. simpl.
    rewrite lookup_insert_ne, lookup_insert_eq by done.
    rewrite Hsaved. unfold resolveTheme.
    by rewrite (bool_decide_false (t = "light")),
               (bool_decide_false (t = "dark")) by done. }
  split; [exact Hroot|]. split; [|split].
  - unfold init. rewrite Eb. unfold initThemeAndMotion.
    rewrite applyTheme_eq, applyMotion_eq. simpl.
    change (saved THEME_KEY (set_root _ _ (set_root _ _ s)))
      with (saved THEME_KEY s).
    rewrite Hsaved. unfold themeLabel.
    by rewrite (bool_decide_false (t = "system")),
               (bool_decide_false (t = "dark")) by done.
  - intros dark. simpl. unfold onThemeQueryChange.
    change (saved THEME_KEY
              (set_media dark (prefersReducedMotion (init s)) (init s)))
      with (saved THEME_KEY (init s)).
    rewrite Hsaved'. by rewrite (bool_decide_false (t = "system")) by done.
  - rewrite (proj1 (themeClick_saved _)), Hsaved'. unfold nextTheme.
    by rewrite (bool_decide_false (t = "system")),
               (bool_decide_false (t = "dark")) by done.
Qed.

Lemma X14_unknown_stored_theme_witness :
  let s := setItem THEME_KEY "blue" MoreExamples.site0 in
  root (init s) !! "data_theme" = Some "dark"
  ∧ themeBtn (init s) = Some "Theme: Light"
  ∧ root (step (init s) (ThemeQueryChange false)) !! "data_theme"
    = Some "dark".
Proof.
  destruct (X14_unknown_stored_theme
              (setItem THEME_KEY "blue" MoreExamples.site0) "blue")
    as (H1 & H2 & H3 & _).
  - reflexivity.
  - discriminate.
  - intros [H|[H|H]]; discriminate H.
  - split; [exact H1|]. split; [exact H2|].
    etrans; [apply (H3 false)|exact H1].
Defined.

(** *** The reveal on scroll *)

Lemma at_most_revealed_refl a : at_most_revealed a a.
Proof. by left. Qed.

Lemma add_class_twice c a : add_class c (add_class c a) = add_class c a.
Proof.
  unfold add_class. simpl. f_equal. apply set_eq. intros x.
  rewrite !elem_of_union. tauto.
Qed.

Lemma at_most_revealed_trans a b c :
  at_most_revealed a b → at_most_revealed b c → at_most_revealed a c.
Proof.
  intros [->| ->] [->| ->]; [by left|by right|by right|].
  right. apply add_class_twice.
Qed.

Lemma Forall2_fmap_self {A} (R : A → A → Prop) (f : A → A) (l : list A) :
  (∀ x, R x (f x)) → Forall2 R l (f <$> l).
Proof. intros H. induction l; constructor; auto. Qed.

Lemma Forall2_refl_list {A} (R : A → A → Prop) (l : list A) :
  (∀ x, R x x) → Forall2 R l l.
Proof. intros H. induction l; constructor; auto. Qed.

Lemma Forall2_trans_list {A} (R : A → A → Prop) (l1 l2 l3 : list A) :
  (∀ x y z, R x y → R y z → R x z) →
  Forall2 R l1 l2 → Forall2 R l2 l3 → Forall2 R l1 l3.
Proof.
  intros Ht H12. revert l3.
  induction H12; intros l3 H23; inversion H23; subst; constructor; eauto.
Qed.

Lemma revealAll_grows s :
  Forall2 at_most_revealed (animated s) (animated (revealAll s))
  ∧ observed (revealAll s) = observed s.
Proof.
  split; [|done]. simpl. apply Forall2_fmap_self. intros x. by right.
Qed.

Lemma onIntersect_grows entries s :
  Forall2 at_most_revealed (animated s) (animated (onIntersect entries s))
  ∧ observed (onIntersect entries s) ⊆ observed s.
Proof.
  unfold onIntersect. revert s.
  induction entries as [|e entries IH]; intros s.
  - split; [|done]. apply Forall2_refl_list, at_most_revealed_refl.
  - simpl. destruct (isIntersecting e); [|apply IH].
    destruct (IH (set_animated
      ((λ el, if decide (node_id el = target e)
              then add_class "in_view" el else el) <$> animated s)
      (observed s ∖ {[target e]}) s)) as [Ha Ho].
    split.
    + eapply Forall2_trans_list; [apply at_most_revealed_trans| |exact Ha].
      simpl. apply Forall2_fmap_self. intros x.
      destruct (decide (node_id x = target e)); [by right|by left].
    + intros x Hx. apply Ho in Hx. simpl in Hx.
      by apply elem_of_difference in Hx as [Hx _].
Qed.

Lemma themeClick_animated s :
  animated (themeClick s) = animated s
  ∧ observed (themeClick s) = observed s.
Proof. unfold themeClick. by rewrite applyTheme_eq. Qed.

Lemma motionClick_unfold s :
  let s1 := updateToggleLabels
              (set_root "data_motion"
                 (resolveMotion (nextMotion (saved MOTION_KEY s))
                    (prefersReducedMotion s))
                 (setItem MOTION_KEY (nextMotion (saved MOTION_KEY s)) s)) in
  motionClick s
  = if bool_decide (resolveMotion (nextMotion (saved MOTION_KEY s))
                      (prefersReducedMotion s) = "reduced")
    then revealAll s1 else s1.
Proof.
  unfold motionClick. rewrite applyMotion_eq. simpl.
  rewrite lookup_insert_eq.
  destruct (decide (resolveMotion (nextMotion (saved MOTION_KEY s))
                      (prefersReducedMotion s) = "reduced")) as [E|E].
  - rewrite !bool_decide_true; [done|done|by rewrite E].
  - rewrite !bool_decide_false; [done|done|congruence].
Qed.

Lemma step_grows s e :
  Forall2 at_most_revealed (animated s) (animated (step s e))
  ∧ observed (step s e) ⊆ observed s.
Proof.
  destruct e as [| |dark|reduce|entries]; cbn [step].
  - destruct (themeClick_animated s) as [-> ->].
    split; [|done]. apply Forall2_refl_list, at_most_revealed_refl.
  - rewrite motionClick_unfold. simpl. case_bool_decide.
    + split; [|done]. simpl. apply Forall2_fmap_self. intros x. by right.
    + split; [|done]. apply Forall2_refl_list, at_most_revealed_refl.
  - unfold onThemeQueryChange. case_bool_decide;
      [rewrite applyTheme_eq|];
      (split; [|done]; apply Forall2_refl_list, at_most_revealed_refl).
  - unfold onMotionQueryChange. case_bool_decide;
      [rewrite applyMotion_eq|];
      (split; [|done]; apply Forall2_refl_list, at_most_revealed_refl).
  - apply onIntersect_grows.
Qed.

Lemma run_grows s events :
  Forall2 at_most_revealed (animated s) (animated (run s events))
  ∧ observed (run s events) ⊆ observed s.
Proof.
  unfold run. revert s.
  induction events as [|e events IH]; intros s.
  - split; [|done]. apply Forall2_refl_list, at_most_revealed_refl.
  - simpl. destruct (IH (step s e)) as [Ha Ho].
    destruct (step_grows s e) as [Ha' Ho'].
    split.
    + eapply Forall2_trans_list; [apply at_most_revealed_trans|exact Ha'|].
      exact Ha.
    + intros x Hx. by apply Ho', Ho.
Qed.

Lemma init_grows s :
  Forall2 at_most_revealed (animated s) (animated (init s)).
Proof.
  unfold init.
  assert (animated (updateToggleLabels (initThemeAndMotion s)) = animated s)
    as E.
  { unfold initThemeAndMotion. by rewrite applyTheme_eq, applyMotion_eq. }
  revert E. generalize (updateToggleLabels (initThemeAndMotion s)).
  intros s1 <-. unfold initScrollAnimations.
  destruct (animated s1) as [|a l] eqn:E.
  - rewrite E. constructor.
  - case_bool_decide.
    + rewrite <- E. apply revealAll_grows.
    + simpl. apply Forall2_refl_list, at_most_revealed_refl.
Qed.

(** X15: nothing that happens on the page takes anything from an animated
    element: at the start of the page and after any sequence of clicks,
    media query changes and observer reports the animated elements are the
    same elements in the same order, each one as it was or with the class
    [in_view] added (so a revealed element is never hidden again, also when
    the motion goes back to full), and the observer watches no element that
    it did not watch before. *)
Theorem X15_reveal_is_never_taken_back s events :
  Forall2 at_most_revealed (animated s) (animated (init s))
  ∧ Forall2 at_most_revealed (animated s) (animated (run s events))
  ∧ observed (run s events) ⊆ observed s.
Proof. split; [apply init_grows|apply run_grows]. Qed.

Lemma observe_all (l : list Element) (acc : gset nat) x :
  x ∈ foldl (λ obs el, {[node_id el]} ∪ obs) acc l
  ↔ x ∈ acc ∨ ∃ el, el ∈ l ∧ node_id el = x.
Proof.
  revert acc. induction l as [|a l IH]; intros acc; simpl.
  - split; [by left|]. intros [H|(el & H & _)]; [done|].
    by apply elem_of_nil in H.
  - rewrite IH, elem_of_union, elem_of_singleton. split.
    + intros [[->|H]|(el & H & E)].
      * right. exists a. split; [left|done].
      * by left.
      * right. exists el. split; [by right|done].
    + intros [H|(el & H & E)]; [left; by right|].
      apply elem_of_cons in H as [->|H]; [left; by left|].
      right. by exists el.
Qed.

Lemma revealAll_all s el :
  el ∈ animated (revealAll s) → "in_view" ∈ classList el.
Proof.
  intros Hel. simpl in Hel.
  apply list_elem_of_fmap in Hel as (a & -> & _).
  simpl. apply elem_of_union. left. by apply elem_of_singleton.
Qed.

Lemma revealAll_none_lost s : none_lost (revealAll s).
Proof. intros el Hel. left. by apply (revealAll_all s). Qed.

Lemma none_lost_ext s s' :
  animated s' = animated s → observed s' = observed s →
  none_lost s → none_lost s'.
Proof. unfold none_lost. by intros -> ->. Qed.

Lemma init_none_lost s : none_lost (init s).
Proof.
  unfold init. generalize (updateToggleLabels (initThemeAndMotion s)).
  intros s1. unfold initScrollAnimations.
  destruct (animated s1) as [|a l] eqn:E.
  - intros el Hel. rewrite E in Hel. by apply elem_of_nil in Hel.
  - case_bool_decide; [apply revealAll_none_lost|].
    intros el Hel. right. cbn [observed animated set_animated] in *.
    apply observe_all. right. by exists el.
Qed.

Lemma onIntersect_none_lost entries s :
  none_lost s → none_lost (onIntersect entries s).
Proof.
  unfold onIntersect. revert s.
  induction entries as [|e entries IH]; intros s Hs; [done|].
  simpl. destruct (isIntersecting e); [|by apply IH].
  apply IH. intros el Hel. simpl in *.
  apply list_elem_of_fmap in Hel as (a & -> & Ha).
  destruct (decide (node_id a = target e)) as [E|E].
  - left. simpl. apply elem_of_union. left. by apply elem_of_singleton.
  - destruct (Hs a Ha) as [H|H]; [by left|right].
    apply elem_of_difference. split; [done|].
    by rewrite elem_of_singleton.
Qed.

Lemma step_none_lost s e : none_lost s → none_lost (step s e).
Proof.
  intros Hs. destruct e as [| |dark|reduce|entries]; cbn [step].
  - destruct (themeClick_animated s) as [Ea Eo].
    by apply (none_lost_ext s).
  - rewrite motionClick_unfold. cbn zeta.
    case_bool_decide; [apply revealAll_none_lost|].
    by apply (none_lost_ext s).
  - unfold onThemeQueryChange. case_bool_decide;
      [rewrite applyTheme_eq|]; by apply (none_lost_ext s).
  - unfold onMotionQueryChange. case_bool_decide;
      [rewrite applyMotion_eq|]; by apply (none_lost_ext s).
  - by apply onIntersect_none_lost.
Qed.

(** X16: no animated element is left invisible and unwatched: at the start
    of the page and after any sequence of clicks, media query changes and
    observer reports, every animated element either has the class [in_view]
    or is still watched by the observer. *)
Theorem X16_every_element_is_revealed_or_watched s events :
  none_lost (run (init s) events).
Proof.
  unfold run. generalize (init_none_lost s). generalize (init s).
  induction events as [|e events IH]; intros s1 Hs1; [done|].
  simpl. by apply IH, step_none_lost.
Qed.

(** X17: a click on the motion toggle reveals every animated element when
    the stored choice was [system] (the next one is [reduced]), changes
    none of them when it was [reduced] (the next one is [full]), and from
    any other stored value (the next one is [system]) reveals them exactly
    when the system asks for reduced motion.  The observer keeps watching
    what it watched. *)
Theorem X17_motion_click_reveals_under_reduced_motion s :
  (saved MOTION_KEY s = "system" →
   ∀ el, el ∈ animated (motionClick s) → "in_view" ∈ classList el)
  ∧ (saved MOTION_KEY s = "reduced" →
     animated (motionClick s) = animated s)
  ∧ (saved MOTION_KEY s ≠ "system" → saved MOTION_KEY s ≠ "reduced" →
     animated (motionClick s)
     = if prefersReducedMotion s
       then add_class "in_view" <$> animated s else animated s)
  ∧ observed (motionClick s) = observed s.
Proof.
  rewrite motionClick_unfold. cbn zeta. split; [|split; [|split]].
  - intros ->. rewrite bool_decide_true by done.
    intros el. apply revealAll_all.
  - intros ->. rewrite bool_decide_false; [done|].
    vm_compute. intros H. discriminate H.
  - intros H1 H2. unfold nextMotion.
    rewrite (bool_decide_false (saved MOTION_KEY s = "system")),
            (bool_decide_false (saved MOTION_KEY s = "reduced")) by done.
    by destruct (prefersReducedMotion s).
  - by case_bool_decide.
Qed.

Lemma X17_motion_click_reveals_under_reduced_motion_witness :
  Forall (λ el, "in_view" ∈ classList el)
         (animated (motionClick MoreExamples.site0)).
Proof.
  apply Forall_forall.
  apply (proj1 (X17_motion_click_reveals_under_reduced_motion
                  MoreExamples.site0)).
  reflexivity.
Defined.

End SiteFacts.

(** ** The mobile navigation *)

Module NavFacts.
Import JS Dom DomMore Nav DomFacts DomMoreFacts.

Lemma set_attr_id a v el : node_id (set_attr a v el) = node_id el.
Proof. done. Qed.

Lemma remove_class_id c el : node_id (remove_class c el) = node_id el.
Proof. done. Qed.

Lemma toggle_class_id c b el : node_id (toggle_class c b el) = node_id el.
Proof. by destruct b. Qed.

(** What a read finds after the two writes of [closeNav] and of the click
    on the toggle. *)
Lemma element_at_two_writes a f b g doc i :
  (∀ el, node_id (f el) = node_id el) →
  (∀ el, node_id (g el) = node_id el) →
  element_at (update_node a f (update_node b g doc)) i
  = (if decide (i = a) then f else id)
    <$> ((if decide (i = b) then g else id) <$> element_at doc i).
Proof.
  intros Hf Hg. rewrite !element_at_update by done.
  destruct (element_at doc i); [|done]. simpl.
  by destruct (decide (i = a)), (decide (i = b)).
Qed.

Lemma closeNav_element r doc i :
  element_at (closeNav r doc) i
  = (if decide (i = toggle r) then set_attr "aria-expanded" "false" else id)
    <$> ((if decide (i = links r) then remove_class "is_open" else id)
         <$> element_at doc i).
Proof. by apply element_at_two_writes. Qed.

Lemma toggleClick_element r doc i :
  element_at (toggleClick r doc) i
  = (if decide (i = toggle r)
     then set_attr "aria-expanded"
            (if negb (menu_open r doc) then "true" else "false")
     else id)
    <$> ((if decide (i = links r)
          then toggle_class "is_open" (negb (menu_open r doc)) else id)
         <$> element_at doc i).
Proof.
  apply element_at_two_writes; [done|]. intros el. apply toggle_class_id.
Qed.

Lemma update_node_swap a f b g doc :
  a ≠ b →
  (∀ el, node_id (f el) = node_id el) →
  (∀ el, node_id (g el) = node_id el) →
  update_node a f (update_node b g doc)
  = update_node b g (update_node a f doc).
Proof.
  intros Hne Hf Hg. induction doc as [el kids IH] using Node_induction.
  simpl. f_equal.
  - repeat case_decide; rewrite ?Hf, ?Hg in *; congruence.
  - rewrite !map_map. apply map_ext_in. rewrite Forall_forall in IH.
    intros k Hk. by apply IH, list_elem_of_In.
Qed.

Lemma toggle_class_has c b el :
  bool_decide (c ∈ classList (toggle_class c b el)) = b.
Proof.
  destruct b; simpl.
  - apply bool_decide_eq_true_2, elem_of_union. left.
    by apply elem_of_singleton.
  - apply bool_decide_eq_false_2. intros [_ H]%elem_of_difference.
    apply H. by apply elem_of_singleton.
Qed.

Lemma closeNav_closed r doc :
  toggle r ≠ links r → is_Some (element_at doc (toggle r)) →
  menu_open r (closeNav r doc) = false
  ∧ in_sync r (closeNav r doc)
  ∧ ∀ i, i ≠ toggle r → i ≠ links r →
         element_at (closeNav r doc) i = element_at doc i.
Proof.
  intros Hne [tg Htg].
  assert (menu_open r (closeNav r doc) = false) as Hm.
  { unfold menu_open, has_class. rewrite closeNav_element.
    rewrite (decide_True (P := links r = links r)),
            (decide_False (P := links r = toggle r)) by done.
    destruct (element_at doc (links r)) as [el|]; [|done]. simpl.
    apply (toggle_class_has "is_open" false). }
  split; [exact Hm|]. split.
  - unfold in_sync. rewrite Hm. unfold attribute_at.
    rewrite closeNav_element, Htg.
    rewrite (decide_True (P := toggle r = toggle r)),
            (decide_False (P := toggle r = links r)) by done. simpl.
    unfold getAttribute. simpl. apply lookup_insert_eq.
  - intros i H1 H2. rewrite closeNav_element.
    rewrite (decide_False (P := i = toggle r)),
            (decide_False (P := i = links r)) by done.
    by destruct (element_at doc i).
Qed.

(** X18: a click on the toggle button (or on something inside it) flips the
    menu, and the click listener of the document, which runs after it,
    leaves that in place: afterwards the menu is open exactly when it was
    closed, [aria-expanded] on the toggle says so, and no other element has
    changed. *)
Theorem X18_toggle_click_flips_the_menu r doc t :
  toggle r ≠ links r →
  is_Some (element_at doc (toggle r)) → is_Some (element_at doc (links r)) →
  contains doc (toggle r) t = true →
  let doc' := documentClick r t (toggleClick r doc) in
  menu_open r doc' = negb (menu_open r doc)
  ∧ in_sync r doc'
  ∧ ∀ i, i ≠ toggle r → i ≠ links r → element_at doc' i = element_at doc i.
Proof.
  intros Hne [tg Htg] [lk Hlk] Hin doc'.
  assert (doc' = toggleClick r doc) as ->.
  { unfold doc', documentClick, toggleClick, setAriaExpanded.
    rewrite !contains_update
      by (try done; intros el; apply toggle_class_id).
    rewrite Hin. by rewrite orb_true_r. }
  assert (menu_open r (toggleClick r doc) = negb (menu_open r doc)) as Hm.
  { unfold menu_open at 1. unfold has_class. rewrite toggleClick_element.
    rewrite (decide_True (P := links r = links r)),
            (decide_False (P := links r = toggle r)), Hlk by done. simpl.
    apply toggle_class_has. }
  split; [exact Hm|]. split.
  - unfold in_sync. rewrite Hm. unfold attribute_at.
    rewrite toggleClick_element, Htg.
    rewrite (decide_True (P := toggle r = toggle r)),
            (decide_False (P := toggle r = links r)) by done. simpl.
    unfold getAttribute. simpl. apply lookup_insert_eq.
  - intros i H1 H2. rewrite toggleClick_element.
    rewrite (decide_False (P := i = toggle r)),
            (decide_False (P := i = links r)) by done.
    by destruct (element_at doc i).
Qed.

(** X19: a click on a link of the menu, a click outside the menu and the
    toggle, and the Escape key all leave the menu closed with
    [aria-expanded] set to [false] on the toggle and no other element
    changed, whatever the state was; closing again changes nothing more; a
    click inside the list or the toggle is ignored by the listener of the
    document, and so is any other key. *)
Theorem X19_menu_closes_on_outside_click_and_escape r doc t key :
  toggle r ≠ links r → is_Some (element_at doc (toggle r)) →
  let closed doc' :=
    menu_open r doc' = false ∧ in_sync r doc'
    ∧ ∀ i, i ≠ toggle r → i ≠ links r →
           element_at doc' i = element_at doc i in
  closed (closeNav r doc)
  ∧ (contains doc (links r) t = false → contains doc (toggle r) t = false →
     closed (documentClick r t doc))
  ∧ closed (keydown r "Escape" doc)
  ∧ closeNav r (closeNav r doc) = closeNav r doc
  ∧ (contains doc (links r) t = true ∨ contains doc (toggle r) t = true →
     documentClick r t doc = doc)
  ∧ (key ≠ "Escape" → keydown r key doc = doc).
Proof.
  intros Hne Htg closed.
  pose proof (closeNav_closed r doc Hne Htg) as Hc.
  split; [exact Hc|]. split; [|split; [exact Hc|split; [|split]]].
  - intros H1 H2. unfold documentClick. by rewrite H1, H2.
  - unfold closeNav, setAriaExpanded.
    rewrite (update_node_swap (links r) _ (toggle r)) by done.
    rewrite (ModalsFacts.update_node_idemp (toggle r)).
    + f_equal. apply ModalsFacts.update_node_idemp; [done|].
      intros el. unfold remove_class. simpl. f_equal.
      apply difference_twice_L.
    + done.
    + intros el. unfold set_attr. simpl. f_equal. apply insert_insert_eq.
  - intros H. unfold documentClick.
    destruct H as [-> | ->]; by rewrite ?orb_true_r.
  - intros H. unfold keydown. by rewrite bool_decide_false.
Qed.

Lemma X18_toggle_click_flips_the_menu_witness :
  menu_open MoreExamples.nav_refs
    (documentClick MoreExamples.nav_refs 2
       (toggleClick MoreExamples.nav_refs MoreExamples.nav_page))
  = false.
Proof.
  destruct (X18_toggle_click_flips_the_menu
              MoreExamples.nav_refs MoreExamples.nav_page 2) as (H & _).
  - discriminate.
  - eexists. vm_compute. reflexivity.
  - eexists. vm_compute. reflexivity.
  - vm_compute. reflexivity.
  - exact H.
Defined.

Lemma X19_menu_closes_on_outside_click_and_escape_witness :
  menu_open MoreExamples.nav_refs
    (documentClick MoreExamples.nav_refs 6 MoreExamples.nav_page) = false
  ∧ menu_open MoreExamples.nav_refs
      (keydown MoreExamples.nav_refs "Escape" MoreExamples.nav_page) = false.
Proof.
  destruct (X19_menu_closes_on_outside_click_and_escape
              MoreExamples.nav_refs MoreExamples.nav_page 6 "Tab")
    as (_ & H1 & H2 & _).
  - discriminate.
  - eexists. vm_compute. reflexivity.
  - split; [apply H1; vm_compute; reflexivity|apply H2].
Defined.

End NavFacts.

(** ** The gallery chips *)

Module GalleryFacts.
Import JS Dom DomMore Gallery.

Lemma apply_other items f (d : gmap nat string) i :
  i ∉ node_id <$> items → apply items f d !! i = d !! i.
Proof.
  unfold apply. revert d.
  induction items as [|b items IH]; intros d Hi; [done|].
  rewrite fmap_cons in Hi. apply not_elem_of_cons in Hi as [H1 H2].
  simpl. rewrite IH by done. by apply lookup_insert_ne.
Qed.

Lemma apply_item items f (d : gmap nat string) btn :
  NoDup (node_id <$> items) → btn ∈ items →
  apply items f d !! node_id btn
  = Some (if shows f btn then EmptyString else "none").
Proof.
  unfold apply. revert d.
  induction items as [|b items IH]; intros d Hnd Hin.
  { by apply elem_of_nil in Hin. }
  rewrite fmap_cons in Hnd. apply NoDup_cons in Hnd as [Hb Hnd].
  apply elem_of_cons in Hin as [->|Hin]; simpl.
  - fold (apply items f (<[node_id b := if shows f b then EmptyString else "none"]> d)).
    rewrite apply_other by done. apply lookup_insert_eq.
  - by apply IH.
Qed.

Lemma setActive_chip active chips c' :
  c' ∈ setActive active chips →
  ("is_active" ∈ classList c'
   ↔ getAttribute c' "data_gallery_filter" = Some active).
Proof.
  unfold setActive. intros (c & -> & _)%list_elem_of_fmap.
  destruct (decide (getAttribute c "data_gallery_filter" = Some active))
    as [E|E].
  - rewrite bool_decide_true by done. simpl.
    split; [done|]. intros _. apply elem_of_union. left.
    by apply elem_of_singleton.
  - rewrite bool_decide_false by done. simpl.
    split; [|done]. intros [_ H]%elem_of_difference.
    exfalso. apply H. by apply elem_of_singleton.
Qed.

Lemma shows_spec f btn :
  shows f btn = true
  ↔ f = "all" ∨ or_else (getAttribute btn "data_image_type") "all" = f.
Proof.
  unfold shows. case_bool_decide as Hf; [by split; [left|]|].
  rewrite bool_decide_eq_true. split; [by right|]. by intros [?|?].
Qed.

(** X20: after a click on a gallery chip whose filter is [f] (its
    [data_gallery_filter], or [all] when that is missing or empty), an item
    is displayed exactly when [f] is [all] or the item's [data_image_type]
    (read as [all] when missing or empty) is [f], and is otherwise set to
    [display: none]; the display of anything that is no item is not
    written; a chip carries [is_active] exactly when its own attribute is
    [f]. *)
Theorem X20_gallery_click_filters_by_type items c s :
  NoDup (node_id <$> items) →
  let f := or_else (getAttribute c "data_gallery_filter") "all" in
  let s' := chipClick items c s in
  (∀ btn, btn ∈ items →
     display s' !! node_id btn
     = Some (if bool_decide
                  (f = "all"
                   ∨ or_else (getAttribute btn "data_image_type") "all" = f)
             then EmptyString else "none"))
  ∧ (∀ i, i ∉ node_id <$> items → display s' !! i = display s !! i)
  ∧ (∀ c', c' ∈ chips s' →
       ("is_active" ∈ classList c'
        ↔ getAttribute c' "data_gallery_filter" = Some f))
  ∧ node_id <$> chips s' = node_id <$> chips s.
Proof.
  intros Hnd f s'. split; [|split; [|split]].
  - intros btn Hin. unfold s', chipClick. simpl. fold f.
    rewrite apply_item by done. f_equal.
    destruct (shows f btn) eqn:E.
    + by rewrite bool_decide_true by by apply shows_spec.
    + rewrite bool_decide_false; [done|].
      intros H%shows_spec. congruence.
  - intros i Hi. by apply apply_other.
  - intros c'. apply setActive_chip.
  - unfold s', chipClick, setActive. simpl.
    rewrite <- list_fmap_compose. apply list_fmap_ext.
    intros _ x _. simpl. by destruct (bool_decide _).
Qed.

Lemma X20_gallery_click_filters_by_type_witness :
  let s' := chipClick MoreExamples.gallery_items
              (Examples.el 41 "button" [("data_gallery_filter", "cad")] [])
              {| chips := MoreExamples.gallery_chips; display := ∅ |} in
  display s' !! 30 = Some EmptyString
  ∧ display s' !! 31 = Some "none"
  ∧ display s' !! 32 = Some "none".
Proof.
  destruct (X20_gallery_click_filters_by_type MoreExamples.gallery_items
              (Examples.el 41 "button" [("data_gallery_filter", "cad")] [])
              {| chips := MoreExamples.gallery_chips; display := ∅ |})
    as (H & _).
  - apply (bool_decide_unpack (NoDup _)). vm_compute. exact I.
  - repeat split; apply H;
      repeat first [apply list_elem_of_here|apply list_elem_of_further].
Defined.

(** X21: at the start, when the page has chips and items, every item is
    displayed and exactly the chips whose attribute is [all] are active;
    when it has no chip or no item, nothing is written.  A chip that has no
    [data_gallery_filter], or an empty one, acts as [all] when clicked:
    every item is displayed, and the chip itself is left without
    [is_active]. *)
Theorem X21_gallery_default_and_chip_without_value items c s :
  NoDup (node_id <$> items) →
  (chips s ≠ [] → items ≠ [] →
   (∀ btn, btn ∈ items →
      display (initGalleryFilters items s) !! node_id btn = Some EmptyString)
   ∧ (∀ c', c' ∈ chips (initGalleryFilters items s) →
        ("is_active" ∈ classList c'
         ↔ getAttribute c' "data_gallery_filter" = Some "all")))
  ∧ (chips s = [] ∨ items = [] → initGalleryFilters items s = s)
  ∧ (c ∈ chips s →
     getAttribute c "data_gallery_filter" = None
     ∨ getAttribute c "data_gallery_filter" = Some EmptyString →
     (∀ btn, btn ∈ items →
        display (chipClick items c s) !! node_id btn = Some EmptyString)
     ∧ remove_class "is_active" c ∈ chips (chipClick items c s)).
Proof.
  intros Hnd. split; [|split].
  - intros Hc Hi.
    assert (initGalleryFilters items s
            = {| chips := setActive "all" (chips s);
                 display := apply items "all" (display s) |}) as ->.
    { unfold initGalleryFilters. by destruct (chips s), items. }
    split.
    + intros btn Hin. simpl. by rewrite apply_item.
    + intros c'. apply setActive_chip.
  - unfold initGalleryFilters. intros [-> | ->]; [done|].
    by destruct (chips s).
  - intros Hin Hattr.
    assert (or_else (getAttribute c "data_gallery_filter") "all" = "all")
      as Hf by by destruct Hattr as [-> | ->].
    unfold chipClick. rewrite Hf. simpl. split.
    + intros btn Hb. by rewrite apply_item.
    + unfold setActive. apply list_elem_of_fmap.
      exists c. split; [|done].
      rewrite bool_decide_false; [done|].
      by destruct Hattr as [-> | ->].
Qed.

Lemma X21_gallery_default_and_chip_without_value_witness :
  let s := {| chips := MoreExamples.gallery_chips; display := ∅ |} in
  let c := Examples.el 42 "button" [("data_gallery_filter", EmptyString)] [] in
  display (chipClick MoreExamples.gallery_items c s) !! 31 = Some EmptyString
  ∧ remove_class "is_active" c
    ∈ chips (chipClick MoreExamples.gallery_items c s).
Proof.
  destruct (X21_gallery_default_and_chip_without_value
              MoreExamples.gallery_items
              (Examples.el 42 "button" [("data_gallery_filter", EmptyString)] [])
              {| chips := MoreExamples.gallery_chips; display := ∅ |})
    as (_ & _ & H).
  - apply (bool_decide_unpack (NoDup _)). vm_compute. exact I.
  - destruct H as [H1 H2].
    + repeat first [apply list_elem_of_here|apply list_elem_of_further].
    + right. reflexivity.
    + split; [|exact H2]. apply (H1 (Examples.el 31 "button"
        [("data_image_open", EmptyString); ("data_image_type", "photo")] [])).
      repeat first [apply list_elem_of_here|apply list_elem_of_further].
Defined.

End GalleryFacts.

(** ** The scroll spy *)

Module ScrollSpyFacts.
Import JS Dom DomMore ScrollSpy DomFacts DomMoreFacts SortFacts.

Lemma map_get_set k v m k' :
  map_get k' (map_set k v m) = if decide (k' = k) then Some v else map_get k' m.
Proof.
  induction m as [|[k0 v0] m IH]; simpl.
  - destruct (decide (k = k')), (decide (k' = k)); congruence.
  - destruct (decide (k0 = k)) as [->|Hk]; simpl.
    + destruct (decide (k = k')), (decide (k' = k)); congruence.
    + destruct (decide (k0 = k')) as [->|Hk'].
      * by rewrite decide_False.
      * exact IH.
Qed.

Lemma register_eq doc m a :
  register doc m a
  = match section_of doc a with
    | Some s => map_set s (ref a) m
    | None => m
    end.
Proof.
  unfold register, section_of.
  destruct (is_fragment _); [|done]. by destruct (qs _ doc).
Qed.

Lemma linkMap_from doc s (l : list Node) m :
  map_get s (foldl (register doc) m l)
  = match last (filter (λ a, section_of doc a = Some s) l) with
    | Some a => Some (ref a)
    | None => map_get s m
    end.
Proof.
  revert m. induction l as [|a l IH]; intros m; [done|].
  simpl. rewrite IH, filter_cons.
  destruct (decide (section_of doc a = Some s)) as [E|E].
  - rewrite last_cons.
    destruct (last (filter _ l)); [done|].
    rewrite register_eq, E, map_get_set. by rewrite decide_True.
  - destruct (last (filter _ l)); [done|].
    rewrite register_eq. destruct (section_of doc a) as [s'|]; [|done].
    rewrite map_get_set. rewrite decide_False; [done|congruence].
Qed.

(** X22: the link that the scroll spy ties to a section is the last link
    with [data_scrollspy], in document order, whose [href] is [#] followed
    by a non-empty fragment and for which that section is the first element
    with the fragment as [id]; a section that no such link points at has no
    link.  So when two links point at one section only the later one is
    ever marked. *)
Theorem X22_section_is_tied_to_its_last_link doc s :
  map_get s (linkMap doc)
  = ref <$> last (filter (λ a, section_of doc a = Some s) (spyLinks doc)).
Proof.
  unfold linkMap. rewrite linkMap_from.
  by destruct (last _).
Qed.

Lemma map_get_value k m l : map_get k m = Some l → l ∈ m.*2.
Proof.
  induction m as [|[k0 v0] m IH]; [done|]. simpl.
  destruct (decide (k0 = k)).
  - intros [= ->]. left.
  - intros H. right. by apply IH.
Qed.

Lemma remove_attr_twice a el : remove_attr a (remove_attr a el) = remove_attr a el.
Proof. unfold remove_attr. simpl. f_equal. apply delete_delete_eq. Qed.

(** The first loop of [setCurrent]. *)
Lemma cleared_element (m : LinkMap) doc i :
  element_at
    (foldl (λ d kv, update_node kv.2 (remove_attr "aria-current") d) doc m) i
  = (if decide (i ∈ m.*2) then remove_attr "aria-current" else id)
    <$> element_at doc i.
Proof.
  revert doc. induction m as [|[k v] m IH]; intros doc.
  { simpl. by destruct (element_at doc i). }
  cbn [foldl snd]. rewrite IH, element_at_update by done.
  rewrite fmap_cons. cbn [snd].
  destruct (element_at doc i) as [el|]; [|done].
  cbn [fmap option_fmap option_map]. f_equal.
  destruct (decide (i = v)) as [->|Hv].
  - rewrite (decide_True (P := v ∈ v :: m.*2)) by left.
    destruct (decide (v ∈ m.*2)); [apply remove_attr_twice|done].
  - destruct (decide (i ∈ m.*2)) as [Hi|Hi].
    + by rewrite decide_True by by right.
    + rewrite decide_False; [done|].
      by intros [?|?]%elem_of_cons.
Qed.

Lemma setCurrent_element m a doc i :
  element_at (setCurrent m a doc) i
  = (if decide (map_get a m = Some i)
     then set_attr "aria-current" "true" else id)
    <$> ((if decide (i ∈ m.*2) then remove_attr "aria-current" else id)
         <$> element_at doc i).
Proof.
  unfold setCurrent. destruct (map_get a m) as [l|] eqn:E.
  - rewrite element_at_update, cleared_element by done.
    destruct (element_at doc i) as [el|]; [|done]. simpl. f_equal.
    destruct (decide (i = l)) as [->|Hl].
    + by rewrite (decide_True (P := Some l = Some l)).
    + rewrite (decide_False (P := Some l = Some i)); [done|congruence].
  - rewrite cleared_element.
    by destruct (element_at doc i).
Qed.

(** X23: after [setCurrent] for a section, a link of the map carries
    [aria-current="true"] when it is the link of that section and no
    [aria-current] otherwise (so at most one link of the map is current, and
    none when the section has no link); an element that is no link of the
    map is left as it is, also when it carries [aria-current]; no other
    attribute of any element is written. *)
Theorem X23_one_link_is_current m a doc :
  (∀ l, l ∈ m.*2 → is_Some (element_at doc l) →
     attribute_at (setCurrent m a doc) l "aria-current"
     = if bool_decide (map_get a m = Some l) then Some "true" else None)
  ∧ (∀ i, i ∉ m.*2 → element_at (setCurrent m a doc) i = element_at doc i)
  ∧ (∀ i b, b ≠ "aria-current" →
       attribute_at (setCurrent m a doc) i b = attribute_at doc i b).
Proof.
  split; [|split].
  - intros l Hl [el Hel]. unfold attribute_at.
    rewrite setCurrent_element, Hel. rewrite (decide_True (P := l ∈ m.*2)) by done.
    simpl. destruct (decide (map_get a m = Some l)) as [E|E].
    + rewrite bool_decide_true by done. apply lookup_insert_eq.
    + rewrite bool_decide_false by done. apply lookup_delete_eq.
  - intros i Hi. rewrite setCurrent_element.
    rewrite (decide_False (P := i ∈ m.*2)) by done.
    rewrite decide_False.
    + by destruct (element_at doc i).
    + intros H. by apply map_get_value in H.
  - intros i b Hb. unfold attribute_at. rewrite setCurrent_element.
    destruct (element_at doc i) as [el|]; [|done]. simpl.
    unfold getAttribute.
    destruct (decide (map_get a m = Some i)), (decide (i ∈ m.*2)); simpl;
      rewrite ?lookup_insert_ne, ?lookup_delete_ne by done; done.
Qed.

Lemma X23_one_link_is_current_witness :
  let m := linkMap MoreExamples.nav_page in
  attribute_at (setCurrent m 7 MoreExamples.nav_page) 5 "aria-current"
  = Some "true"
  ∧ attribute_at (setCurrent m 7 MoreExamples.nav_page) 8 "aria-current"
    = None.
Proof.
  destruct (X23_one_link_is_current (linkMap MoreExamples.nav_page) 7
              MoreExamples.nav_page) as (H & _).
  split.
  - apply (H 5).
    + apply (bool_decide_unpack (_ ∈ _)). vm_compute. exact I.
    + eexists. vm_compute. reflexivity.
  - apply (H 8).
    + apply (bool_decide_unpack (_ ∈ _)). vm_compute. exact I.
    + eexists. vm_compute. reflexivity.
Defined.

(** [sort] reads the comparator on the elements of the list only. *)
Lemma sort_insert_ext {A} (cmp cmp' : A → A → num) x l :
  (∀ y, y ∈ l → cmp x y = cmp' x y) →
  sort_insert cmp x l = sort_insert cmp' x l.
Proof.
  induction l as [|y l IH]; intros H; [done|]. simpl.
  rewrite (H y) by left. rewrite IH; [done|].
  intros z Hz. apply H. by right.
Qed.

Lemma sort_ext {A} (cmp cmp' : A → A → num) l :
  (∀ x y, x ∈ l → y ∈ l → cmp x y = cmp' x y) →
  sort cmp l = sort cmp' l.
Proof.
  induction l as [|x l IH]; intros H; [done|].
  change (sort_insert cmp x (sort cmp l) = sort_insert cmp' x (sort cmp' l)).
  rewrite IH.
  - apply sort_insert_ext. intros y Hy. apply H; [left|right].
    by rewrite <- (sort_perm cmp' l).
  - intros y z Hy Hz. apply H; by right.
Qed.

Lemma by_ratio_finite a b :
  isFinite (intersectionRatio a) = true →
  isFinite (intersectionRatio b) = true →
  by_ratio a b = sub (Fin (ratio b)) (Fin (ratio a)).
Proof.
  unfold by_ratio, ratio.
  by destruct (intersectionRatio a), (intersectionRatio b).
Qed.

(** X24: when the ratios of the intersecting entries are finite, the
    observer's callback either finds no intersecting entry and leaves the
    document as it is, or makes current the section of an intersecting
    entry whose ratio no other intersecting entry exceeds, and among those
    with that ratio the one that comes first in the report. *)
Theorem X24_most_visible_section_becomes_current m entries doc :
  (∀ e, e ∈ entries → isIntersecting e = true →
        isFinite (intersectionRatio e) = true) →
  (Forall (λ e, isIntersecting e = false) entries
   ∧ onIntersect m entries doc = doc)
  ∨ ∃ v, onIntersect m entries doc = setCurrent m (target v) doc
         ∧ v ∈ entries ∧ isIntersecting v = true
         ∧ (∀ e, e ∈ entries → isIntersecting e = true →
                 (ratio e <= ratio v)%Q)
         ∧ head (filter (λ e, Qeq_bool (ratio e) (ratio v) = true
                              ∧ isIntersecting e = true) entries)
           = Some v.
Proof.
  intros Hfin. unfold onIntersect, mostVisible.
  set (l := filter (λ e, isIntersecting e = true) entries).
  assert (sort by_ratio l
          = sort (λ a b, sub (Fin (ratio b)) (Fin (ratio a))) l) as Hs.
  { apply sort_ext. intros x y [Hx1 Hx2]%list_elem_of_filter
      [Hy1 Hy2]%list_elem_of_filter.
    apply by_ratio_finite; by apply Hfin. }
  pose proof (descending_sorted (λ e, Fin (ratio e)) (λ _, eq_refl) l)
    as Hsorted.
  pose proof (sort_perm (λ a b, sub (Fin (ratio b)) (Fin (ratio a))) l)
    as Hperm.
  rewrite Hs.
  destruct (sort (λ a b, sub (Fin (ratio b)) (Fin (ratio a))) l)
    as [|v rest] eqn:E.
  - left. split; [|done]. apply Forall_forall. intros e He.
    destruct (isIntersecting e) eqn:Hi; [|done].
    assert (e ∈ l) as Hl by by apply list_elem_of_filter.
    rewrite <- Hperm in Hl. by apply elem_of_nil in Hl.
  - right. exists v. simpl. split; [done|].
    assert (v ∈ l) as Hv by (rewrite <- Hperm; left).
    apply list_elem_of_filter in Hv as [Hv1 Hv2].
    split; [done|]. split; [done|]. split.
    + intros e He Hi.
      assert (e ∈ v :: rest) as Hin
        by (rewrite Hperm; by apply list_elem_of_filter).
      apply StronglySorted_inv in Hsorted as [_ Hall].
      apply elem_of_cons in Hin as [->|Hin]; [apply Qle_refl|].
      rewrite Forall_forall in Hall. by apply Hall.
    + pose proof (descending_stable (λ e, Fin (ratio e)) (λ _, eq_refl)
                    (ratio v) l) as Hst.
      cbv beta in Hst. rewrite E in Hst. simpl in Hst.
      rewrite filter_cons_True in Hst by by apply Qeq_bool_refl.
      unfold l in Hst. rewrite list_filter_filter in Hst.
      by rewrite <- Hst.
Qed.

Lemma X24_most_visible_section_becomes_current_witness :
  let m := linkMap MoreExamples.nav_page in
  let es := MoreExamples.spy_entries in
  (Forall (λ e, isIntersecting e = false) es
   ∧ onIntersect m es MoreExamples.nav_page = MoreExamples.nav_page)
  ∨ ∃ v, onIntersect m es MoreExamples.nav_page
         = setCurrent m (target v) MoreExamples.nav_page
         ∧ v ∈ es ∧ isIntersecting v = true
         ∧ (∀ e, e ∈ es → isIntersecting e = true → (ratio e <= ratio v)%Q)
         ∧ head (filter (λ e, Qeq_bool (ratio e) (ratio v) = true
                              ∧ isIntersecting e = true) es)
           = Some v.
Proof.
  apply X24_most_visible_section_becomes_current.
  intros e He _. revert e He. apply Forall_forall.
  repeat constructor.
Defined.

End ScrollSpyFacts.

(** ** [clamp] *)

Module JSMathFacts.
Import JS JSMath.

Ltac compare_cases :=
  repeat match goal with
  | |- context [(?a ?= ?b)%Q] =>
      let H := fresh "H" in
      destruct (Qcompare_spec a b) as [H|H|H]; simpl
  | H : context [(?a ?= ?b)%Q] |- _ =>
      let H' := fresh "H" in
      destruct (Qcompare_spec a b) as [H'|H'|H']; simpl in H
  end.

Ltac compare_solve :=
  repeat split; intros; try done; try congruence;
  try (apply (proj1 (Qeq_alt _ _)); lra);
  try (rewrite <- Qle_alt; lra);
  try (exfalso; lra);
  try (exfalso; intuition congruence).

(** X25: for a number [n] and bounds [min <= max], none of them [NaN],
    [clamp n min max] lies between the bounds; it equals [n] when [n] lies
    between them, [min] when [n] is at most [min], and [max] when [n] is at
    least [max]. *)
Theorem X25_clamp_stays_between_the_bounds n min max :
  is_NaN n = false → le min max →
  le min (clamp n min max) ∧ le (clamp n min max) max
  ∧ (le min n → le n max → compare (clamp n min max) n = Eq)
  ∧ (le n min → compare (clamp n min max) min = Eq)
  ∧ (le max n → compare (clamp n min max) max = Eq).
Proof.
  unfold clamp, Math_min, Math_max, le.
  intros Hn (Hlo & Hhi & Hle).
  destruct n as [|[]|n]; [done|..];
    (destruct min as [|[]|lo]; [done|..]);
    (destruct max as [|[]|hi]; [done|..]); simpl in *; try done.
  all: compare_cases; compare_solve.
  all: compare_cases; compare_solve.
Qed.

Lemma X25_clamp_stays_between_the_bounds_witness :
  le (Fin 0) (clamp (Fin (3 # 2)) (Fin 0) (Fin 1))
  ∧ le (clamp (Fin (3 # 2)) (Fin 0) (Fin 1)) (Fin 1)
  ∧ compare (clamp (Fin (3 # 2)) (Fin 0) (Fin 1)) (Fin 1) = Eq.
Proof.
  destruct (X25_clamp_stays_between_the_bounds (Fin (3 # 2)) (Fin 0) (Fin 1))
    as (H1 & H2 & _ & _ & H3).
  - reflexivity.
  - repeat split. discriminate.
  - split; [exact H1|]. split; [exact H2|]. apply H3.
    repeat split. discriminate.
Defined.

(** X26: [clamp] gives [NaN] exactly when one of its three arguments is
    [NaN]; and when the lower bound is greater than the upper one, the
    result is the upper bound whatever [n] is. *)
Theorem X26_clamp_with_NaN_or_crossed_bounds n min max :
  is_NaN (clamp n min max) = is_NaN n || is_NaN min || is_NaN max
  ∧ (is_NaN n = false → is_NaN min = false → is_NaN max = false →
     compare min max = Gt → compare (clamp n min max) max = Eq).
Proof.
  unfold clamp, Math_min, Math_max.
  destruct n as [|[]|n], min as [|[]|lo], max as [|[]|hi]; simpl;
    try (split; [done|]; intros; done).
  all: compare_cases; compare_solve.
  all: compare_cases; compare_solve.
Qed.

Lemma X26_clamp_with_NaN_or_crossed_bounds_witness :
  compare (clamp (Fin (1 # 2)) (Fin 1) (Fin 0)) (Fin 0) = Eq.
Proof.
  by apply (proj2 (X26_clamp_with_NaN_or_crossed_bounds
                     (Fin (1 # 2)) (Fin 1) (Fin 0))).
Defined.

End JSMathFacts.
